(** * pyscad: selections, node graph, object composition and the SCAD compiler

    A shallow embedding of [pyscad.py].  Python classes become inductive
    types, class methods live in a module named after the class, exceptions
    are the left summand of [Result], dictionaries are insertion-ordered
    association lists (the order of [dict] iteration decides the order of
    the cross product in [Object.compose]). *)

From Stdlib Require Import String Ascii List Bool Arith Lia PeanoNat ZArith.
From Stdlib Require Import DecimalString DecimalNat Decimal.
Import ListNotations.

Set Implicit Arguments.
Local Open Scope string_scope.
Local Open Scope list_scope.

(** ** Exceptions and the result monad *)

Inductive Exception : Type :=
| AssertionError
| TypeError
| ValueError                      (* [first, *rest = ()] on an empty sequence *)
| KeyError
| RecursionError                  (* the bound of [iter_lines] is exhausted *)
| RaisedException (msg : string). (* [raise Exception(msg)] *)

Definition Result (A : Type) : Type := (Exception + A)%type.

Definition ret {A} (a : A) : Result A := inr a.
Definition raise {A} (e : Exception) : Result A := inl e.

Definition bind {A B} (m : Result A) (k : A -> Result B) : Result B :=
  match m with
  | inl e => inl e
  | inr a => k a
  end.

Notation "x <- m ;; k" := (bind m (fun x => k))
  (at level 61, m at next level, right associativity).

Fixpoint mapM {A B} (f : A -> Result B) (l : list A) : Result (list B) :=
  match l with
  | [] => ret []
  | a :: l' => b <- f a ;; bs <- mapM f l' ;; ret (b :: bs)
  end.

(** ** Text helpers *)

Fixpoint join (sep : string) (l : list string) : string :=
  match l with
  | [] => ""
  | [s] => s
  | s :: l' => s ++ sep ++ join sep l'
  end.

(** [_str_call(function, *args)] on arguments that are already rendered. *)
Definition _str_call (function : string) (args : list string) : string :=
  function ++ "(" ++ join ", " args ++ ")".

Definition tab : string := String (ascii_of_nat 9) EmptyString.

Definition str_of_nat (n : nat) : string :=
  NilZero.string_of_uint (Nat.to_uint n).

(** ** Hashable keys: the [__eq__] used by [dict] and [set] *)

Class Hashable (K : Type) : Type := key_eqb : K -> K -> bool.

(** The equality is the structural one. *)
Class HashableSpec (K : Type) `{Hashable K} : Prop :=
  key_eqb_eq : forall a b : K, key_eqb a b = true <-> a = b.

Arguments HashableSpec K {_}.

(** Truth value of a key: [bool(x)]. *)
Class Truthy (K : Type) : Type := __bool__ : K -> bool.

#[export] Instance bool_Hashable : Hashable bool := Bool.eqb.
#[export] Instance bool_Truthy : Truthy bool := fun b => b.

(** Sets as lists without repetition. *)
Definition set_mem {K} `{Hashable K} (x : K) (s : list K) : bool :=
  existsb (key_eqb x) s.

Definition set_add {K} `{Hashable K} (x : K) (s : list K) : list K :=
  if set_mem x s then s else x :: s.

(** Insertion-ordered dictionaries. *)
Module Dict.
Section Dict.
Context {K V : Type} `{Hashable K}.

Fixpoint get (k : K) (d : list (K * V)) : option V :=
  match d with
  | [] => None
  | (k', v) :: d' => if key_eqb k k' then Some v else get k d'
  end.

(** [d[k] = v]: an existing key keeps its position. *)
Fixpoint set (k : K) (v : V) (d : list (K * V)) : list (K * V) :=
  match d with
  | [] => [(k, v)]
  | (k', v') :: d' =>
      if key_eqb k k' then (k', v) :: d' else (k', v') :: set k v d'
  end.

Definition keys (d : list (K * V)) : list K := map fst d.

Definition of_list (l : list (K * V)) : list (K * V) :=
  fold_left (fun d kv => set (fst kv) (snd kv) d) l [].
End Dict.
End Dict.

(** ** Nodes *)

Unset Elimination Schemes.
Inductive Node : Type :=
| PrimitiveNode (_text : string)
| CompositeNode (_text : string) (_nodes : list Node).
Set Elimination Schemes.

Section NodeInduction.
Variable P : Node -> Prop.
Hypothesis P_primitive : forall text, P (PrimitiveNode text).
Hypothesis P_composite :
  forall text nodes, Forall P nodes -> P (CompositeNode text nodes).

Fixpoint Node_induction (n : Node) : P n :=
  match n with
  | PrimitiveNode text => P_primitive text
  | CompositeNode text nodes =>
      P_composite text
        ((fix children (l : list Node) : Forall P l :=
            match l with
            | [] => Forall_nil P
            | c :: l' => Forall_cons c (Node_induction c) (children l')
            end) nodes)
  end.
End NodeInduction.

Module Node.

Definition child_nodes (n : Node) : list Node :=
  match n with
  | PrimitiveNode _ => []
  | CompositeNode _ nodes => nodes
  end.

(** [Node.__eq__]: equality of the [_compare_key]s.  The key of a
    primitive is its text, the key of a composite is the pair of its text
    and the tuple of its children; Python compares strings by content and
    tuples by length and element by element with [__eq__] again, and a
    string never equals a tuple. *)
Fixpoint __eq__ (self other : Node) {struct self} : bool :=
  match self, other with
  | PrimitiveNode s, PrimitiveNode t => String.eqb s t
  | CompositeNode s l, CompositeNode t m =>
      String.eqb s t &&
      (fix tuple_eq (l m : list Node) {struct l} : bool :=
         match l, m with
         | [], [] => true
         | x :: l', y :: m' => __eq__ x y && tuple_eq l' m'
         | _, _ => false
         end) l m
  | _, _ => false
  end.

Section Hash.
(** Python's [hash] of a string, and of a tuple, which is computed from
    the hashes of its elements. *)
Variable hash_str : string -> Z.
Variable hash_tuple : list Z -> Z.

(** [Node.__hash__]: the hash of the [_compare_key]. *)
Fixpoint __hash__ (self : Node) : Z :=
  match self with
  | PrimitiveNode text => hash_str text
  | CompositeNode text nodes =>
      hash_tuple
        [hash_str text;
         hash_tuple ((fix elements (l : list Node) : list Z :=
                        match l with
                        | [] => []
                        | x :: l' => __hash__ x :: elements l'
                        end) nodes)]
  end.
End Hash.

Definition compose (text : string) (nodes : list Node) : Node :=
  CompositeNode text nodes.

Definition intersect (nodes : list Node) : Result Node :=
  match nodes with
  | [] => raise ValueError
  | first :: rest =>
      match rest with
      | _ :: _ => ret (compose (_str_call "intersection" []) nodes)
      | [] => ret first
      end
  end.

Definition union (nodes : list Node) : Result Node :=
  match nodes with
  | [] => raise ValueError
  | first :: rest =>
      match rest with
      | _ :: _ => ret (compose (_str_call "union" []) nodes)
      | [] => ret first
      end
  end.

Definition minus (left right : Node) : Node :=
  compose (_str_call "difference" []) [left; right].

Definition create (text : string) : Node := PrimitiveNode text.

End Node.

(** ** Selections *)

Inductive Selection : Type :=
| void_selection
| NodeSelection (_node : Node)
| InvertedSelection (_selection : Selection).

Module Selection.

(** The truth value of the [void] attribute.  [void_selection] defines
    [void] as a plain method, so the attribute is a bound method there,
    which every reader tests for truth only. *)
Fixpoint void (s : Selection) : bool :=
  match s with
  | void_selection => true
  | NodeSelection _ => false
  | InvertedSelection s' => void s'
  end.

(** [void_selection] has no node: the attribute there is a method whose
    body is [assert False]. *)
Fixpoint node (s : Selection) : Result Node :=
  match s with
  | void_selection => raise AssertionError
  | NodeSelection n => ret n
  | InvertedSelection s' => node s'
  end.

Fixpoint inverted (s : Selection) : bool :=
  match s with
  | void_selection => false
  | NodeSelection _ => false
  | InvertedSelection s' => negb (inverted s')
  end.

Definition invert (selection : Selection) : Selection :=
  InvertedSelection selection.

Definition create (n : Node) : Selection := NodeSelection n.

Definition transform (text : string) (selection : Selection)
  : Result Selection :=
  if void selection then ret selection
  else
    n <- node selection ;;
    let transformed_selection := NodeSelection (Node.compose text [n]) in
    if inverted selection
    then ret (InvertedSelection transformed_selection)
    else ret transformed_selection.

(** The loop of [intersect]: [None] is the early [return void_selection]. *)
Fixpoint collect (selections : list Selection)
         (inverted_nodes nodes : list Node)
  : Result (option (list Node * list Node)) :=
  match selections with
  | [] => ret (Some (inverted_nodes, nodes))
  | i :: rest =>
      if inverted i then
        if negb (void i)
        then n <- node i ;; collect rest (inverted_nodes ++ [n]) nodes
        else collect rest inverted_nodes nodes
      else
        if void i then ret None
        else n <- node i ;; collect rest inverted_nodes (nodes ++ [n])
  end.

Definition intersect (selections : list Selection) : Result Selection :=
  r <- collect selections [] [] ;;
  match r with
  | None => ret void_selection
  | Some (inverted_nodes, nodes) =>
      match inverted_nodes with
      | _ :: _ =>
          match nodes with
          | _ :: _ =>
              a <- Node.intersect nodes ;;
              b <- Node.union inverted_nodes ;;
              ret (create (Node.minus a b))
          | [] =>
              b <- Node.union inverted_nodes ;;
              ret (invert (create b))
          end
      | [] =>
          match nodes with
          | _ :: _ => a <- Node.intersect nodes ;; ret (create a)
          | [] => ret void_selection
          end
      end
  end.

Definition union (selections : list Selection) : Result Selection :=
  r <- intersect (map invert selections) ;;
  ret (invert r).

End Selection.

(** ** Selectors *)

Inductive Selector : Type := true_selector | false_selector.

Module Selector.

Definition eqb (a b : Selector) : bool :=
  match a, b with
  | true_selector, true_selector => true
  | false_selector, false_selector => true
  | _, _ => false
  end.

Definition __bool__ (self : Selector) : bool :=
  match self with
  | true_selector => true
  | false_selector => false
  end.

Definition __add__ (self other : Selector) : Selector :=
  match self with
  | true_selector => self
  | false_selector => other
  end.

Definition __mul__ (self other : Selector) : Selector :=
  match self with
  | true_selector => other
  | false_selector => self
  end.

Definition __neg__ (self : Selector) : Selector :=
  match self with
  | true_selector => false_selector
  | false_selector => true_selector
  end.

Definition __sub__ (self other : Selector) : Selector :=
  __mul__ self (__neg__ other).

End Selector.

#[export] Instance Selector_Hashable : Hashable Selector := Selector.eqb.
#[export] Instance Selector_Truthy : Truthy Selector := Selector.__bool__.

(** The functions of the [operator] module, applied to the tuple of
    selectors that [compose] unpacks into their arguments. *)
Definition operator__add__ (selectors : list Selector) : Result Selector :=
  match selectors with
  | [a; b] => ret (Selector.__add__ a b)
  | _ => raise TypeError
  end.

Definition operator__mul__ (selectors : list Selector) : Result Selector :=
  match selectors with
  | [a; b] => ret (Selector.__mul__ a b)
  | _ => raise TypeError
  end.

Definition operator__sub__ (selectors : list Selector) : Result Selector :=
  match selectors with
  | [a; b] => ret (Selector.__sub__ a b)
  | _ => raise TypeError
  end.

Definition operator__neg__ (selectors : list Selector) : Result Selector :=
  match selectors with
  | [a] => ret (Selector.__neg__ a)
  | _ => raise TypeError
  end.

(** ** Objects *)

(** [itertools.product]: the rightmost factor advances fastest; the product
    of no factors is the single empty tuple. *)
Fixpoint product {A} (iterables : list (list A)) : list (list A) :=
  match iterables with
  | [] => [[]]
  | xs :: rest => flat_map (fun x => map (cons x) (product rest)) xs
  end.

(** The loop of [_tally]. *)
Fixpoint tally_loop {K V} `{Hashable K}
         (tuples : list (K * V)) (res : list (K * list V))
  : list (K * list V) :=
  match tuples with
  | [] => res
  | (k, v) :: tuples' =>
      tally_loop tuples'
        (match Dict.get k res with
         | None => Dict.set k [v] res
         | Some list => Dict.set k (list ++ [v]) res
         end)
  end.

Definition _tally {K V} `{Hashable K} (tuples : list (K * V))
  : list (K * list V) :=
  tally_loop tuples [].

Record Object (K : Type) : Type := mkObject {
  _selections : list (K * Selection)
}.

(** A Python value handed to the arithmetic of [Object]: an [Object], or
    anything else. *)
Inductive PyValue (K : Type) : Type :=
| PyObject (o : Object K)
| PyOther (repr : string).

Arguments PyOther {K} repr.

Module Object.
Section Methods.
Context {K : Type} `{Hashable K}.

Definition get_selection (self : Object K) (selector : K) : Selection :=
  match Dict.get selector (_selections self) with
  | Some s => s
  | None => void_selection
  end.

Definition selectors (self : Object K) : list K :=
  Dict.keys (_selections self).

(** [assert all(isinstance(i, Object) for i in objects)] *)
Fixpoint assert_objects (objects : list (PyValue K))
  : Result (list (Object K)) :=
  match objects with
  | [] => ret []
  | PyObject o :: rest => os <- assert_objects rest ;; ret (o :: os)
  | PyOther _ :: _ => raise AssertionError
  end.

Definition _transform (self : Object K) (text : string)
  : Result (Object K) :=
  entries <- mapM (fun kv => v <- Selection.transform text (snd kv) ;;
                             ret (fst kv, v)) (_selections self) ;;
  ret (mkObject (Dict.of_list entries)).

End Methods.

Section Compose.
Context {K K' : Type} `{Hashable K} `{Hashable K'}.

Definition combine (groups : list (list Selection)) : Result Selection :=
  gs <- mapM Selection.intersect groups ;;
  Selection.union gs.

Definition inverse_groups
           (groups_by_selector : list (K' * list (list Selection)))
           (selector : K') : list (list Selection) :=
  flat_map (fun sg => if key_eqb (fst sg) selector then [] else snd sg)
           groups_by_selector.

Definition compute_selection
           (groups_by_selector : list (K' * list (list Selection)))
           (selector : K') : Result Selection :=
  match Dict.get selector groups_by_selector with
  | None => raise KeyError
  | Some groups =>
      let inverse_groups := inverse_groups groups_by_selector selector in
      if (List.length inverse_groups <? List.length groups)%nat
      then c <- combine inverse_groups ;; ret (Selection.invert c)
      else combine groups
  end.

Definition iter_selections (operation : list K -> Result K')
           (objects : list (Object K))
  : Result (list (K' * list Selection)) :=
  mapM (fun selectors =>
          selector <- operation selectors ;;
          ret (selector,
               map (fun os => get_selection (fst os) (snd os))
                   (List.combine objects selectors)))
       (product (map selectors objects)).

Definition compose (operation : list K -> Result K')
           (objects : list (PyValue K)) : Result (Object K') :=
  objects <- assert_objects objects ;;
  tuples <- iter_selections operation objects ;;
  let groups_by_selector := _tally tuples in
  entries <- mapM (fun i => s <- compute_selection groups_by_selector i ;;
                            ret (i, s))
                  (Dict.keys groups_by_selector) ;;
  ret (mkObject (Dict.of_list entries)).

End Compose.

(** The operators of [Object].  Python calls them on an [Object] as
    [self]; the other operand may be any value.  [Object] defines no
    reflected operator, so for a left operand that is not an [Object] none
    of these methods is called. *)
Definition __add__ (self : Object Selector) (other : PyValue Selector) :=
  compose operator__add__ [PyObject self; other].

Definition __mul__ (self : Object Selector) (other : PyValue Selector) :=
  compose operator__mul__ [PyObject self; other].

Definition __neg__ (self : Object Selector) :=
  compose operator__neg__ [PyObject self].

Definition __sub__ (self : Object Selector) (other : PyValue Selector) :=
  compose operator__sub__ [PyObject self; other].

(** Create a bipartite space, where True selects the given selection and
    False everything else. *)
Definition create (selection : Selection) : Object Selector :=
  mkObject
    (Dict.of_list [(true_selector, selection);
                   (false_selector, Selection.invert selection)]).

End Object.

(** ** The compiler *)

#[export] Instance Node_Hashable : Hashable Node := Node.__eq__.

Fixpoint height (n : Node) : nat :=
  match n with
  | PrimitiveNode _ => 0
  | CompositeNode _ nodes =>
      S ((fix tallest (l : list Node) : nat :=
            match l with
            | [] => 0
            | c :: l' => Nat.max (height c) (tallest l')
            end) nodes)
  end.

Definition indent (lines : list string) : list string :=
  map (fun j => (tab ++ j)%string) lines.

(** [PrimitiveNode.iter_lines] and [CompositeNode.iter_lines].  The
    recursion goes through the replacement of a child, which need not be a
    part of it, so it is bounded by [fuel]; [RecursionError] reports an
    exhausted bound. *)
Fixpoint iter_lines (fuel : nat) (node_replacements : list (Node * Node))
         (self : Node) {struct fuel} : Result (list string) :=
  match fuel with
  | 0 => raise RecursionError
  | S fuel' =>
      match self with
      | PrimitiveNode text => ret [(text ++ ";")%string]
      | CompositeNode text nodes =>
          let iter_node_lines (node : Node) : Result (list string) :=
            match Dict.get node node_replacements with
            | None => raise KeyError
            | Some replacement =>
                lines <- iter_lines fuel' node_replacements replacement ;;
                ret (indent lines)
            end in
          match nodes with
          | [] => raise ValueError
          | first :: rest =>
              match rest with
              | _ :: _ =>
                  body <- mapM iter_node_lines nodes ;;
                  ret ([(text ++ " {")%string] ++ concat body ++ ["}"])
              | [] =>
                  lines <- iter_node_lines first ;;
                  ret (text :: lines)
              end
          end
      end
  end.

Record _Module : Type := mk_Module {
  _name : string;
  _node : Node
}.

(** ['module {}()'.format(name)] *)
Definition module_header (name : string) : string :=
  "module " ++ name ++ "()".

Module _Module.

Definition iter_lines (fuel : nat) (self : _Module)
           (node_replacements : list (Node * Node)) : Result (list string) :=
  lines <- iter_lines fuel node_replacements (_node self) ;;
  ret (module_header (_name self) :: indent lines).

Definition reference (self : _Module) : Node :=
  Node.create (_str_call (_name self) []).

End _Module.

Record WalkState : Type := mkWalkState {
  nodes_set : list Node;
  nodes_list : list Node;
  reused_nodes : list Node
}.

Definition walk_start : WalkState := mkWalkState [] [] [].

Fixpoint walk_nodes (node : Node) (st : WalkState) {struct node} : WalkState :=
  if set_mem node (nodes_set st) then
    mkWalkState (nodes_set st) (nodes_list st)
                (set_add node (reused_nodes st))
  else
    let st1 := mkWalkState (set_add node (nodes_set st)) (nodes_list st)
                           (reused_nodes st) in
    let st2 :=
      match node with
      | PrimitiveNode _ => st1
      | CompositeNode _ nodes =>
          (fix walk_children (l : list Node) (st : WalkState) : WalkState :=
             match l with
             | [] => st
             | i :: l' => walk_children l' (walk_nodes i st)
             end) nodes st1
      end in
    mkWalkState (nodes_set st2) (nodes_list st2 ++ [node]) (reused_nodes st2).

(** The loop over [reversed(nodes_list)] that allocates the modules. *)
Fixpoint allocate (nodes : list Node) (reused_nodes : list Node)
         (node_replacements : list (Node * Node)) (modules : list _Module)
  : list (Node * Node) * list _Module :=
  match nodes with
  | [] => (node_replacements, modules)
  | i :: rest =>
      if set_mem i reused_nodes then
        let module :=
          mk_Module ("node_" ++ str_of_nat (List.length modules + 1))%string
                    i in
        allocate rest reused_nodes
                 (Dict.set i (_Module.reference module) node_replacements)
                 (modules ++ [module])
      else
        allocate rest reused_nodes (Dict.set i i node_replacements) modules
  end.

(** The two exceptions of [compile_scad]. *)
Definition inverted_root : Exception :=
  RaisedException "The top-level node is inverted.".

Definition void_root : Exception :=
  RaisedException "The top-level node is void.".

(** The first part of [compile_scad]: select the truthy part and refuse an
    inverted or void selection. *)
Definition root_node {K} `{Hashable K} `{Truthy K} (object : Object K)
  : Result Node :=
  composed <- Object.compose
                (fun xs => match xs with
                           | [x] => ret (__bool__ x)
                           | _ => raise TypeError
                           end)
                [PyObject object] ;;
  let selection := Object.get_selection composed true in
  if Selection.inverted selection then raise inverted_root
  else if Selection.void selection then raise void_root
  else Selection.node selection.

(** The state of [compile_scad] before the first line is emitted. *)
Definition plan (root_node : Node)
  : WalkState * (list (Node * Node) * list _Module) :=
  let st := walk_nodes root_node walk_start in
  (st, allocate (List.rev (nodes_list st)) (reused_nodes st) [] []).

(** The second part of [compile_scad]: the lines for a root node.  The
    bound given to [iter_lines] is the depth its recursion can reach. *)
Definition emit (root_node : Node) : Result (list string) :=
  let (node_replacements, modules) := snd (plan root_node) in
  let fuel := S (height root_node) in
  main <- iter_lines fuel node_replacements root_node ;;
  blocks <- mapM (fun i =>
                    lines <- _Module.iter_lines fuel i node_replacements ;;
                    ret ("" :: lines)) modules ;;
  ret (main ++ concat blocks).

Definition compile_scad {K} `{Hashable K} `{Truthy K} (object : Object K)
  : Result (list string) :=
  root <- root_node object ;;
  emit root.

Definition cube : Object Selector :=
  Object.create (Selection.create (Node.create (_str_call "cube" []))).

(** ** [union] and [intersect] of objects *)

(** [union(object_seq)] and [intersect(object_seq)] of the module: the
    objects are folded with [+] from the object of the void selection, and
    with [*] from its negation.  The accumulator is always an [Object], so
    [operator.__add__] and [operator.__mul__] reach the methods of
    [Object]. *)
Fixpoint reduce (function : Object Selector -> PyValue Selector ->
                            Result (Object Selector))
         (object_seq : list (PyValue Selector)) (initial : Object Selector)
  : Result (Object Selector) :=
  match object_seq with
  | [] => ret initial
  | x :: rest =>
      acc <- function initial x ;;
      reduce function rest acc
  end.

Definition union (object_seq : list (PyValue Selector))
  : Result (Object Selector) :=
  reduce Object.__add__ object_seq (Object.create void_selection).

Definition intersect (object_seq : list (PyValue Selector))
  : Result (Object Selector) :=
  initial <- Object.__neg__ (Object.create void_selection) ;;
  reduce Object.__mul__ object_seq initial.

(** * The pattern helpers of [tetris.py] *)

Module tetris.

(** The exceptions of the pattern helpers. *)
Inductive Failure : Type :=
| IndexError
| AssertionError
| ValueError.

Definition Outcome (A : Type) : Type := (Failure + A)%type.

Definition and_then {A B} (m : Outcome A) (k : A -> Outcome B) : Outcome B :=
  match m with
  | inl e => inl e
  | inr a => k a
  end.

Fixpoint traverse {A B} (f : A -> Outcome B) (l : list A)
  : Outcome (list B) :=
  match l with
  | [] => inr []
  | a :: l' =>
      and_then (f a) (fun b =>
      and_then (traverse f l') (fun bs => inr (b :: bs)))
  end.

(** An element of a row of a pattern: a character of a string such as
    ['110'], or a Boolean of a row that [rotate_pattern] built. *)
Inductive Tile : Type :=
| CharTile (c : ascii)
| BoolTile (b : bool).

(** [int(t)]: a Boolean counts as 0 or 1, a character has to be a
    decimal digit. *)
Definition int (t : Tile) : Outcome Z :=
  match t with
  | BoolTile b => inr (if b then 1 else 0)%Z
  | CharTile c =>
      let n := nat_of_ascii c in
      if (48 <=? n)%nat && (n <=? 57)%nat then inr (Z.of_nat (n - 48))
      else inl ValueError
  end.

Definition len {A} (l : list A) : Z := Z.of_nat (List.length l).

(** [range(n)] *)
Definition range (n : Z) : list Z := map Z.of_nat (seq 0 (Z.to_nat n)).

Definition pattern_size (pattern : list (list Tile)) : Outcome (Z * Z) :=
  match pattern with
  | [] => inl IndexError
  | first :: _ =>
      let size_x := len first in
      let size_y := len pattern in
      if forallb (fun i => Z.eqb (len i) size_x) pattern
      then inr (size_x, size_y)
      else inl AssertionError
  end.

Definition get_tile (pattern : list (list Tile)) (x y : Z) : Outcome bool :=
  and_then (pattern_size pattern) (fun size =>
  let (size_x, size_y) := size in
  if (0 <=? x)%Z && (x <? size_x)%Z && ((0 <=? y)%Z && (y <? size_y)%Z) then
    match nth_error pattern (Z.to_nat y) with
    | None => inl IndexError
    | Some row =>
        match nth_error row (Z.to_nat x) with
        | None => inl IndexError
        | Some t => and_then (int t) (fun v => inr (negb (Z.eqb v 0)))
        end
    end
  else inr false).

Definition rotate (pt : Z * Z) (direction : Z) : Z * Z :=
  Nat.iter (Z.to_nat direction)
           (fun pt : Z * Z => let (x, y) := pt in (- y, x)%Z) pt.

(** One pass of the loop of [rotate_pattern]. *)
Definition quarter_turn (pattern : list (list Tile))
  : Outcome (list (list Tile)) :=
  and_then (pattern_size pattern) (fun size =>
  let (size_x, size_y) := size in
  traverse (fun iy =>
              traverse (fun ix =>
                          and_then (get_tile pattern iy (size_y - ix - 1))
                                   (fun b => inr (BoolTile b)))
                       (range size_y))
           (range size_x)).

Fixpoint repeat_turn (n : nat) (pattern : list (list Tile))
  : Outcome (list (list Tile)) :=
  match n with
  | 0 => inr pattern
  | S n' => and_then (quarter_turn pattern) (repeat_turn n')
  end.

Definition rotate_pattern (pattern : list (list Tile)) (direction : Z)
  : Outcome (list (list Tile)) :=
  repeat_turn (Z.to_nat direction) pattern.

End tetris.

(** * Vocabulary of the properties *)

(** Number of [InvertedSelection] objects wrapped around the innermost
    selection. *)
Fixpoint wrappers (s : Selection) : nat :=
  match s with
  | InvertedSelection s' => S (wrappers s')
  | _ => 0
  end.

(** Every composite in [n] has at least one child. *)
Fixpoint well_formed (n : Node) : bool :=
  match n with
  | PrimitiveNode _ => true
  | CompositeNode _ nodes =>
      match nodes with
      | [] => false
      | _ :: _ =>
          (fix all (l : list Node) : bool :=
             match l with
             | [] => true
             | c :: l' => well_formed c && all l'
             end) nodes
      end
  end.

(** The inverted void selection and its further double inversions. *)
Definition whole_space (s : Selection) : bool :=
  Selection.inverted s && Selection.void s.

(** The void selection and its double inversions. *)
Definition nothing (s : Selection) : bool :=
  negb (Selection.inverted s) && Selection.void s.

(** The node and the selection of the [cube] primitive. *)
Definition cube_node : Node := Node.create (_str_call "cube" []).

Definition cube_selection : Selection := Selection.create cube_node.

(** Well formed nodes and selections. *)
Definition all_well_formed (l : list Node) : Prop :=
  Forall (fun n => well_formed n = true) l.

(** The node of a selection, when it has one, is well formed. *)
Definition selection_well_formed (s : Selection) : Prop :=
  forall n, Selection.node s = ret n -> well_formed n = true.

(** [isinstance(v, Object)] *)
Definition is_object {K} (v : PyValue K) : bool :=
  match v with
  | PyObject _ => true
  | PyOther _ => false
  end.

(** The selection that [compute_selection] returns for a key. *)
Definition computed_selection {K' : Type} `{Hashable K'}
           (groups_by_selector : list (K' * list (list Selection)))
           (s : K') : Selection :=
  match Object.compute_selection groups_by_selector s with
  | inr sel => sel
  | inl _ => void_selection
  end.

Fixpoint size (n : Node) : nat :=
  match n with
  | PrimitiveNode _ => 1
  | CompositeNode _ nodes =>
      S ((fix total (l : list Node) : nat :=
            match l with
            | [] => 0
            | c :: l' => size c + total l'
            end) nodes)
  end.

(** [subterm x y]: the structure [x] occurs in [y]. *)
Inductive subterm (x : Node) : Node -> Prop :=
| subterm_refl : subterm x x
| subterm_child text nodes c :
    In c nodes -> subterm x c -> subterm x (CompositeNode text nodes).

Definition proper_subterm (x y : Node) : Prop :=
  exists c, In c (Node.child_nodes y) /\ subterm x c.

(** Number of elements of [l] equal to [x]. *)
Definition count (x : Node) (l : list Node) : nat :=
  List.length (filter (key_eqb x) l).

(** Number of child references to [x] held by the nodes of [parents]. *)
Definition edges (x : Node) (parents : list Node) : nat :=
  list_sum (map (fun p => count x (Node.child_nodes p)) parents).

(** Number of calls of [walk_nodes] on [x]: the calls in [called] and one
    for every child reference of a node that was expanded. *)
Definition calls (x : Node) (called expanded : list Node) : nat :=
  count x called + edges x expanded.

(** Every node comes after all its children. *)
Definition ordered (l : list Node) : Prop :=
  forall l1 p l2, l = l1 ++ p :: l2 ->
                  forall c, In c (Node.child_nodes p) -> In c l1.

Definition walk_children (l : list Node) (st : WalkState) : WalkState :=
  fold_left (fun st i => walk_nodes i st) l st.

(** Invariant of the traversal: nodes that are in [nodes_set] without
    being in [nodes_list] yet are being visited, and are larger than
    [bound]. *)
Record walk_pre (bound : nat) (st : WalkState) : Prop := {
  pre_nodup : NoDup (nodes_list st);
  pre_incl : forall x, In x (nodes_list st) -> In x (nodes_set st);
  pre_order : ordered (nodes_list st);
  pre_pending : forall x, In x (nodes_set st) -> ~ In x (nodes_list st) ->
                          bound < size x
}.

(** Effect of calling [walk_nodes] on the nodes of [called] in turn:
    [new] is the list of the nodes visited for the first time. *)
Record walk_ok (called : list Node) (st st' : WalkState) (new : list Node)
  : Prop := {
  ok_list : nodes_list st' = nodes_list st ++ new;
  ok_set : forall x, In x (nodes_set st') <-> In x (nodes_set st) \/ In x new;
  ok_fresh : forall x, In x new -> ~ In x (nodes_set st);
  ok_nodup : NoDup new;
  ok_called : forall c, In c called -> In c (nodes_list st');
  ok_order : ordered (nodes_list st');
  ok_sub : forall x, In x new -> exists c, In c called /\ subterm x c;
  ok_new_calls : forall x, In x new -> 1 <= calls x called new;
  ok_calls_set : forall x, 1 <= calls x called new -> In x (nodes_set st');
  ok_reused : forall x,
      In x (reused_nodes st') <->
      In x (reused_nodes st) \/
      (In x (nodes_set st) /\ 1 <= calls x called new) \/
      2 <= calls x called new
}.

(** Name of the module allocated at position [k]. *)
Definition module_name (k : nat) : string := "node_" ++ str_of_nat (k + 1).

Definition well_named (modules : list _Module) : Prop :=
  forall k m, nth_error modules k = Some m -> _name m = module_name k.

(** A replacement is the node itself or a reference to a module. *)
Definition replaced (node_replacements : list (Node * Node)) (x : Node)
  : Prop :=
  Dict.get x node_replacements = Some x \/
  exists text, Dict.get x node_replacements = Some (PrimitiveNode text).

(** The lines of one module in the output: a blank line, the header and
    the indented body. *)
Definition block (m : _Module) (body : list string) : list string :=
  "" :: module_header (_name m) :: indent body.

(** The groups that [compose] tallies for [create S * create T] and for
    [create S + create T], in the order of the cross product. *)
Definition groups_mul (S T : Selection)
  : list (Selector * list (list Selection)) :=
  [(true_selector, [[S; T]]);
   (false_selector, [[S; Selection.invert T];
                     [Selection.invert S; T];
                     [Selection.invert S; Selection.invert T]])].

Definition groups_add (S T : Selection)
  : list (Selector * list (list Selection)) :=
  [(true_selector, [[S; T];
                    [S; Selection.invert T];
                    [Selection.invert S; T]]);
   (false_selector, [[Selection.invert S; Selection.invert T]])].

(** The groups that [compile_scad] tallies for an object with the two
    selector singletons as keys. *)
Definition groups_bool (St Sf : Selection)
  : list (bool * list (list Selection)) :=
  [(true, [[St]]); (false, [[Sf]])].

(** Number of positions of the tree [n] at which the structure [x]
    stands. *)
Fixpoint occurrences (x n : Node) : nat :=
  (if Node.__eq__ x n then 1 else 0) +
  match n with
  | PrimitiveNode _ => 0
  | CompositeNode _ nodes =>
      (fix total (l : list Node) : nat :=
         match l with
         | [] => 0
         | c :: l' => occurrences x c + total l'
         end) nodes
  end.

(** [line] behind [k] tabs. *)
Definition indented (k : nat) (line : string) : string :=
  Nat.iter k (String.append tab) line.

(** A line without its indentation. *)
Fixpoint unindent (line : string) : string :=
  match line with
  | String c rest =>
      if Ascii.eqb c (ascii_of_nat 9) then unindent rest else line
  | EmptyString => line
  end.

(** [line] is the call of the module [name]. *)
Definition is_call (name line : string) : bool :=
  String.eqb (unindent line) (name ++ "();").

(** A forward reference in a text: the declaration of a module, the lines
    from its header up to the next blank line, holds a call of a module
    whose header comes later in the text. *)
Definition forward_reference (out : list string) : Prop :=
  exists j k before body after,
    out = before ++ module_header (module_name j) :: body ++ after /\
    ~ In "" body /\
    existsb (is_call (module_name k)) body = true /\
    In (module_header (module_name k)) after.

(** Two intersections of a cube with itself, joined. *)
Definition nested_example : Node :=
  CompositeNode "union()"
    [CompositeNode "intersection()" [cube_node; cube_node];
     CompositeNode "intersection()" [cube_node; cube_node]].

(** A moved cube, joined with a scaled copy of the moved cube. *)
Definition moved_cube : Node :=
  CompositeNode "translate([1, 0, 0])" [cube_node].

Definition shared_example : Node :=
  CompositeNode "union()"
    [moved_cube; CompositeNode "scale([2, 2, 2])" [moved_cube]].

(** The only failure of rendering: a composite without children. *)
Definition renders {A} (r : Result A) : Prop :=
  (exists a, r = ret a) \/ r = raise ValueError.

(** ** Vocabulary of the further properties *)

(** The void selection, a node selection or one inversion of a node
    selection. *)
Definition normal_form (s : Selection) : Prop :=
  s = void_selection \/
  (exists n, s = NodeSelection n) \/
  (exists n, s = InvertedSelection (NodeSelection n)).

(** Two selections answer the [void], [inverted] and [node] queries
    alike. *)
Definition observably_equal (s s' : Selection) : Prop :=
  Selection.void s = Selection.void s' /\
  Selection.inverted s = Selection.inverted s' /\
  Selection.node s = Selection.node s'.

(** The operands of [Selection.intersect] that contribute a node: the
    plain ones are intersected, the cut ones are subtracted. *)
Definition is_plain (s : Selection) : bool :=
  negb (Selection.void s) && negb (Selection.inverted s).

Definition is_cut (s : Selection) : bool :=
  negb (Selection.void s) && Selection.inverted s.

Definition nodes_of (l : list Selection) : list Node :=
  flat_map (fun s => match Selection.node s with
                     | inr n => [n]
                     | inl _ => []
                     end) l.

(** What [Selection.intersect] builds from the nodes to subtract and the
    nodes to intersect. *)
Definition assemble (inverted_nodes nodes : list Node) : Result Selection :=
  match inverted_nodes, nodes with
  | [], [] => ret void_selection
  | [], _ :: _ => a <- Node.intersect nodes ;; ret (Selection.create a)
  | _ :: _, [] =>
      b <- Node.union inverted_nodes ;;
      ret (Selection.invert (Selection.create b))
  | _ :: _, _ :: _ =>
      a <- Node.intersect nodes ;;
      b <- Node.union inverted_nodes ;;
      ret (Selection.create (Node.minus a b))
  end.

(** The order of first occurrence of the elements of a list. *)
Fixpoint first_occurrences {K} `{Hashable K} (l : list K) : list K :=
  match l with
  | [] => []
  | k :: l' =>
      k :: filter (fun k' => negb (key_eqb k' k)) (first_occurrences l')
  end.

(** The second components of the tuples whose first component is [k]. *)
Definition values_of {K V} `{Hashable K} (k : K) (tuples : list (K * V))
  : list V :=
  map snd (filter (fun kv => key_eqb (fst kv) k) tuples).

Section Regions.
Variable Point : Type.
Variable primitive : string -> Point -> bool.
Variable operator : string -> list (Point -> bool) -> Point -> bool.

(** Whether a point lies in the region of a node, given the regions of
    the primitives and the meaning of the operators. *)
Fixpoint inside (n : Node) (p : Point) : bool :=
  match n with
  | PrimitiveNode text => primitive text p
  | CompositeNode text nodes => operator text (map inside nodes) p
  end.

(** Whether a selection selects a point: the region of its node or, if it
    is inverted, the complement; nothing for the void selection and
    everything for the inverted void one. *)
Definition selects (s : Selection) (p : Point) : bool :=
  match Selection.node s with
  | inr n => xorb (Selection.inverted s) (inside n p)
  | inl _ => Selection.inverted s
  end.

(** The three operators that [Node] emits have their Boolean meaning. *)
Definition boolean_operators : Prop :=
  (forall regions p,
      operator "union()" regions p = existsb (fun r => r p) regions) /\
  (forall regions p,
      operator "intersection()" regions p = forallb (fun r => r p) regions) /\
  (forall a b p, operator "difference()" [a; b] p = a p && negb (b p)).
End Regions.

(** The Boolean meaning of [union()], [intersection()] and
    [difference()]; any other operator stands for the empty region. *)
Definition standard_operator {Point : Type} (text : string)
           (regions : list (Point -> bool)) (p : Point) : bool :=
  if String.eqb text "union()" then existsb (fun r => r p) regions
  else if String.eqb text "intersection()"
       then forallb (fun r => r p) regions
       else if String.eqb text "difference()"
            then match regions with
                 | [a; b] => a p && negb (b p)
                 | _ => false
                 end
            else false.

(** A primitive of the line of natural numbers: the numbers below 3. *)
Definition below_three (text : string) (p : nat) : bool := Nat.ltb p 3.

(** An object whose selectors are the two selector singletons. *)
Definition bipartite (o : Object Selector) : Prop :=
  exists s1 s2,
    _selections o = [(true_selector, s1); (false_selector, s2)] \/
    _selections o = [(false_selector, s1); (true_selector, s2)].

(** The result of [Selection.transform], which never fails. *)
Definition transformed (text : string) (s : Selection) : Selection :=
  match Selection.transform text s with
  | inr s' => s'
  | inl _ => s
  end.

(** Number of positions strictly inside the tree [n] at which the
    structure [x] stands. *)
Definition inner_occurrences (x n : Node) : nat :=
  list_sum (map (occurrences x) (Node.child_nodes n)).

(** [p] occurs in [c], decided by a traversal of [c]. *)
Definition occurs_in (c p : Node) : bool :=
  set_mem p (nodes_list (walk_nodes c walk_start)).

(** A point turned by [r] quarters, for [r] from 0 to 3. *)
Definition quarter_turned (pt : Z * Z) (r : Z) : Z * Z :=
  let (x, y) := pt in
  match r with
  | 0 => (x, y)
  | 1 => (- y, x)
  | 2 => (- x, - y)
  | _ => (y, - x)
  end%Z.

(** A pattern of [size_y] rows of [size_x] tiles each, with at least one
    row and one column. *)
Definition rectangular (pattern : list (list tetris.Tile))
           (size_x size_y : Z) : Prop :=
  (0 < size_x)%Z /\ (0 < size_y)%Z /\
  tetris.len pattern = size_y /\
  Forall (fun row => tetris.len row = size_x) pattern.

(** Every tile of the pattern is a Boolean or a decimal digit. *)
Definition readable (pattern : list (list tetris.Tile)) : Prop :=
  Forall (Forall (fun t => exists v, tetris.int t = inr v)) pattern.

(** The tile that [get_tile] finds, [false] where it fails. *)
Definition tile (pattern : list (list tetris.Tile)) (x y : Z) : bool :=
  match tetris.get_tile pattern x y with
  | inr b => b
  | inl _ => false
  end.

(** The pattern ['110'; '011'] of the S piece. *)
Definition s_piece : list (list tetris.Tile) :=
  [[tetris.CharTile "1"%char; tetris.CharTile "1"%char;
    tetris.CharTile "0"%char];
   [tetris.CharTile "0"%char; tetris.CharTile "1"%char;
    tetris.CharTile "1"%char]].

Section Partitions.
Variable Point : Type.
Variable primitive : string -> Point -> bool.
Variable operator : string -> list (Point -> bool) -> Point -> bool.
Context {K : Type} `{Hashable K}.

(** The selector [k] labels the point [p] in the object: it is a selector
    of the object whose selection selects the point. *)
Definition labels (o : Object K) (p : Point) (k : K) : Prop :=
  In k (Object.selectors o) /\
  selects primitive operator (Object.get_selection o k) p = true.

(** The selections of the object add up to the complete space: none is
    void, and every point is selected by the selection of exactly one
    selector. *)
Definition partitions (o : Object K) : Prop :=
  NoDup (Object.selectors o) /\
  (forall k, In k (Object.selectors o) ->
             Selection.void (Object.get_selection o k) = false) /\
  forall p, exists k, labels o p k /\ forall k', labels o p k' -> k' = k.
End Partitions.

(** The selections that [iter_selections] yields for a combination of
    selectors: [[o.get_selection(s) for o, s in zip(objects, selectors)]]. *)
Definition group {K} `{Hashable K} (objects : list (Object K))
           (selectors : list K) : list Selection :=
  map (fun os => Object.get_selection (fst os) (snd os))
      (List.combine objects selectors).

Section Splits.
Variable Point : Type.
Variable primitive : string -> Point -> bool.
Variable operator : string -> list (Point -> bool) -> Point -> bool.

(** The region of an object with the selector singletons as keys: what
    the selection of [true_selector] selects. *)
Definition region (o : Object Selector) (p : Point) : bool :=
  selects primitive operator (Object.get_selection o true_selector) p.

(** The object splits the space into its region and the complement. *)
Definition splits (o : Object Selector) : Prop :=
  bipartite o /\ partitions primitive operator o.
End Splits.

(** An operator that shifts the line of natural numbers down by one
    beside the Boolean ones: its region holds [p] if the region of its
    child holds [p + 1]. *)
Definition shifting_operator (text : string) (regions : list (nat -> bool))
           (p : nat) : bool :=
  if String.eqb text "translate([-1, 0, 0])"
  then match regions with
       | [r] => r (p + 1)
       | _ => false
       end
  else standard_operator text regions p.

(** The lines of a tree that is written out in full: a primitive is one
    statement, a composite with one child stands before the indented lines
    of the child, any other composite puts the indented lines of its
    children between braces. *)
Fixpoint lines_of (n : Node) : list string :=
  match n with
  | PrimitiveNode text => [(text ++ ";")%string]
  | CompositeNode text nodes =>
      let children :=
        (fix all (l : list Node) : list (list string) :=
           match l with
           | [] => []
           | c :: l' => indent (lines_of c) :: all l'
           end) nodes in
      match nodes with
      | [_] => text :: concat children
      | _ => [(text ++ " {")%string] ++ concat children ++ ["}"]
      end
  end.

(** ** Vocabulary of the compiled text *)

(** The modules that [compile_scad] allocates for a root. *)
Definition modules_of (root : Node) : list _Module := snd (snd (plan root)).

(** The module that stands for a structure, if there is one. *)
Definition module_of (modules : list _Module) (x : Node) : option _Module :=
  find (fun m => Node.__eq__ (_node m) x) modules.

(** A node as it is written beside the declarations of [modules]: every
    child that has a module is replaced by the call of the module, every
    other child is written in the same way. *)
Fixpoint written (modules : list _Module) (n : Node) : Node :=
  match n with
  | PrimitiveNode _ => n
  | CompositeNode text nodes =>
      CompositeNode text
        ((fix all (l : list Node) : list Node :=
            match l with
            | [] => []
            | c :: l' =>
                match module_of modules c with
                | Some m => _Module.reference m
                | None => written modules c
                end :: all l'
            end) nodes)
  end.

(** What is written for a child: the call of its module, if it has one. *)
Definition written_child (modules : list _Module) (c : Node) : Node :=
  match module_of modules c with
  | Some m => _Module.reference m
  | None => written modules c
  end.

(** The declaration of a module in a text: a blank line, the header and
    the indented lines of its node as it is written. *)
Definition declaration (modules : list _Module) (m : _Module) : list string :=
  "" :: module_header (_name m) ::
  indent (lines_of (written modules (_node m))).

(** The text of a root beside the declarations of [modules]: the lines of
    the root as it is written, then one declaration for each module, in the
    order of the list. *)
Definition program_text (modules : list _Module) (root : Node)
  : list string :=
  lines_of (written modules root) ++ concat (map (declaration modules) modules).

(** The lines that a node writes itself, beside those of its children. *)
Definition own_lines (n : Node) : list string :=
  match n with
  | PrimitiveNode text => [(text ++ ";")%string]
  | CompositeNode text nodes =>
      match nodes with
      | [_] => [text]
      | _ => [(text ++ " {")%string; "}"]
      end
  end.

(** No node of the tree writes a line that reads as the call of a module
    [node_k]. *)
Definition capture_free (root : Node) : Prop :=
  forall x k, subterm x root ->
              existsb (is_call (module_name k)) (own_lines x) = false.

(** The declarations of a text, each with the statement that calls it. *)
Definition declarations (modules : list _Module) : list (string * Node) :=
  map (fun m => (_str_call (_name m) [], written modules (_node m))) modules.

(** The regions of a list of statements, if all of them have one. *)
Fixpoint all_regions {A} (l : list (option A)) : option (list A) :=
  match l with
  | [] => Some []
  | Some a :: l' => option_map (cons a) (all_regions l')
  | None :: _ => None
  end.

Section Programs.
Variable Point : Type.
Variable primitive : string -> Point -> bool.
Variable operator : string -> list (Point -> bool) -> Point -> bool.

(** The region of a statement beside a list of declarations: a statement
    that is the call of a declared module stands for the body of the
    declaration, any other primitive for its own region, a composite for
    its operator applied to the regions of its children.  Calls are
    followed [fuel] levels deep; a program whose calls never end has no
    region. *)
Fixpoint run (fuel : nat) (declared : list (string * Node)) (n : Node)
  : option (Point -> bool) :=
  match fuel with
  | 0 => None
  | S fuel' =>
      match n with
      | PrimitiveNode text =>
          match find (fun d => String.eqb (fst d) text) declared with
          | Some d => run fuel' declared (snd d)
          | None => Some (primitive text)
          end
      | CompositeNode text nodes =>
          option_map (operator text)
                     (all_regions (map (run fuel' declared) nodes))
      end
  end.

(** The region of the text that [compile_scad] writes for a root. *)
Definition compiled_region (fuel : nat) (root : Node)
  : option (Point -> bool) :=
  run fuel (declarations (modules_of root)) (written (modules_of root) root).
End Programs.

(** [union()] joins the regions of its children. *)
Definition union_joins (Point : Type)
           (operator : string -> list (Point -> bool) -> Point -> bool)
  : Prop :=
  forall regions p,
    operator "union()" regions p = existsb (fun r => r p) regions.

(** A union in which a primitive has the text of the call of the first
    module beside a repeated cube. *)
Definition captured_example : Node :=
  CompositeNode "union()" [PrimitiveNode "node_1()"; cube_node; cube_node].

(** * Properties *)

(** ** Selections *)

Lemma bind_ret {A B} (a : A) (k : A -> Result B) : (x <- ret a ;; k x) = k a.
Proof. reflexivity. Qed.

Lemma node_of_non_void (s : Selection) :
  Selection.void s = false -> exists n, Selection.node s = ret n.
Proof.
  induction s as [| n | s IH]; simpl; intros Hv.
  - discriminate.
  - now exists n.
  - now apply IH.
Qed.

Lemma void_has_no_node (s : Selection) :
  Selection.void s = true -> Selection.node s = raise AssertionError.
Proof.
  induction s as [| n | s IH]; simpl; intros Hv; auto; discriminate.
Qed.

(** A non-inverted void operand stops the loop of [intersect], whatever
    has been collected so far. *)
Lemma collect_void_operand (l : list Selection) (x : Selection) :
  In x l -> Selection.inverted x = false -> Selection.void x = true ->
  forall inverted_nodes nodes,
    Selection.collect l inverted_nodes nodes = ret None.
Proof.
  induction l as [| i rest IH]; intros Hin Hi Hv inv_nodes nodes.
  - destruct Hin.
  - simpl. destruct Hin as [-> | Hin].
    + now rewrite Hi, Hv.
    + destruct (Selection.inverted i) eqn:Ei, (Selection.void i) eqn:Ev;
        simpl; auto.
      * destruct (node_of_non_void i Ev) as [n ->]. simpl. auto.
      * destruct (node_of_non_void i Ev) as [n ->]. simpl. auto.
Qed.

(** Inverted void operands are skipped by the loop of [intersect]. *)
Lemma collect_skips_whole_space (l : list Selection) :
  forall inverted_nodes nodes,
    Selection.collect l inverted_nodes nodes =
    Selection.collect (filter (fun s => negb (whole_space s)) l)
                      inverted_nodes nodes.
Proof.
  induction l as [| i rest IH]; intros inv_nodes nodes; [reflexivity|].
  simpl. unfold whole_space at 1.
  destruct (Selection.inverted i) eqn:Ei, (Selection.void i) eqn:Ev; simpl;
    rewrite ?Ei, ?Ev; simpl; auto.
  - destruct (Selection.node i); simpl; auto.
  - destruct (Selection.node i); simpl; auto.
Qed.

Lemma filter_map_invert (l : list Selection) :
  filter (fun s => negb (whole_space s)) (map Selection.invert l) =
  map Selection.invert (filter (fun s => negb (nothing s)) l).
Proof.
  induction l as [| i rest IH]; [reflexivity|].
  simpl. unfold whole_space at 1, nothing at 1. simpl.
  destruct (negb (negb (Selection.inverted i) && Selection.void i));
    simpl; now rewrite IH.
Qed.

Lemma intersect_void_operand (l : list Selection) (x : Selection) :
  In x l -> Selection.inverted x = false -> Selection.void x = true ->
  Selection.intersect l = ret void_selection.
Proof.
  intros Hin Hi Hv. unfold Selection.intersect.
  now rewrite (collect_void_operand l x Hin Hi Hv).
Qed.

Lemma union_whole_space_operand (l : list Selection) (x : Selection) :
  In x l -> Selection.inverted x = true -> Selection.void x = true ->
  Selection.union l = ret (Selection.invert void_selection).
Proof.
  intros Hin Hi Hv. unfold Selection.union.
  rewrite (intersect_void_operand (map Selection.invert l)
                                  (Selection.invert x)).
  - reflexivity.
  - now apply in_map.
  - simpl. now rewrite Hi.
  - exact Hv.
Qed.

Lemma intersect_skips_whole_space (l : list Selection) :
  Selection.intersect l =
  Selection.intersect (filter (fun s => negb (whole_space s)) l).
Proof.
  unfold Selection.intersect. now rewrite collect_skips_whole_space.
Qed.

Lemma union_skips_nothing (l : list Selection) :
  Selection.union l =
  Selection.union (filter (fun s => negb (nothing s)) l).
Proof.
  unfold Selection.union.
  now rewrite intersect_skips_whole_space, filter_map_invert.
Qed.

(** The loop of [intersect] takes the node of non-void operands only, so it
    always runs to its end. *)
Lemma collect_total (l : list Selection) :
  forall inverted_nodes nodes,
    exists r, Selection.collect l inverted_nodes nodes = ret r.
Proof.
  induction l as [| i rest IH]; intros inv_nodes nodes; simpl.
  - eauto.
  - destruct (Selection.inverted i), (Selection.void i) eqn:Ev; simpl; eauto.
    + destruct (node_of_non_void i Ev) as [n ->]. simpl. eauto.
    + destruct (node_of_non_void i Ev) as [n ->]. simpl. eauto.
Qed.

Lemma intersect_total (l : list Selection) :
  exists s, Selection.intersect l = ret s.
Proof.
  unfold Selection.intersect.
  destruct (collect_total l [] []) as [[[inv_nodes nodes]|] ->]; simpl.
  - destruct inv_nodes as [|a [|b inv_nodes]], nodes as [|c [|d nodes]];
      simpl; eauto.
  - eauto.
Qed.

Lemma union_total (l : list Selection) :
  exists s, Selection.union l = ret s.
Proof.
  unfold Selection.union.
  destruct (intersect_total (map Selection.invert l)) as [s ->].
  simpl. eauto.
Qed.

Lemma well_formed_composite (text : string) (nodes : list Node) :
  well_formed (CompositeNode text nodes) = true <->
  nodes <> [] /\ all_well_formed nodes.
Proof.
  assert (Hall : forall l,
    (fix all (l : list Node) : bool :=
       match l with
       | [] => true
       | c :: l' => well_formed c && all l'
       end) l = true <-> all_well_formed l).
  { induction l as [| c l IH].
    - split; [constructor | reflexivity].
    - rewrite andb_true_iff, IH. split.
      + intros [? ?]. now constructor.
      + intros Hf. inversion Hf. auto. }
  destruct nodes as [| c l].
  - simpl. split; [discriminate | intros [Hne _]; now destruct Hne].
  - change (well_formed (CompositeNode text (c :: l)))
      with ((fix all (l : list Node) : bool :=
               match l with
               | [] => true
               | c :: l' => well_formed c && all l'
               end) (c :: l)).
    rewrite Hall. split; [intros; split; [discriminate | assumption] | tauto].
Qed.

Lemma Node_intersect_shape (nodes : list Node) (n : Node) :
  Node.intersect nodes = ret n ->
  nodes = [n] \/
  exists a b rest, nodes = a :: b :: rest /\
                   n = CompositeNode "intersection()" nodes.
Proof.
  destruct nodes as [| a [| b rest]]; simpl; intros Hn.
  - discriminate.
  - injection Hn as <-. now left.
  - injection Hn as <-. right. now exists a, b, rest.
Qed.

Lemma Node_union_shape (nodes : list Node) (n : Node) :
  Node.union nodes = ret n ->
  nodes = [n] \/
  exists a b rest, nodes = a :: b :: rest /\
                   n = CompositeNode "union()" nodes.
Proof.
  destruct nodes as [| a [| b rest]]; simpl; intros Hn.
  - discriminate.
  - injection Hn as <-. now left.
  - injection Hn as <-. right. now exists a, b, rest.
Qed.

Lemma Node_intersect_well_formed (nodes : list Node) (n : Node) :
  all_well_formed nodes -> Node.intersect nodes = ret n ->
  well_formed n = true.
Proof.
  intros Hwf Hn.
  destruct (Node_intersect_shape _ Hn) as [-> | (a & b & rest & -> & ->)].
  - now inversion Hwf.
  - apply well_formed_composite. split; [discriminate | assumption].
Qed.

Lemma Node_union_well_formed (nodes : list Node) (n : Node) :
  all_well_formed nodes -> Node.union nodes = ret n ->
  well_formed n = true.
Proof.
  intros Hwf Hn.
  destruct (Node_union_shape _ Hn) as [-> | (a & b & rest & -> & ->)].
  - now inversion Hwf.
  - apply well_formed_composite. split; [discriminate | assumption].
Qed.

Lemma all_well_formed_snoc (l : list Node) (n : Node) :
  all_well_formed l -> well_formed n = true -> all_well_formed (l ++ [n]).
Proof.
  intros Hl Hn. apply Forall_app. split; [assumption | now constructor].
Qed.

Lemma collect_well_formed (l : list Selection) :
  Forall selection_well_formed l ->
  forall inverted_nodes nodes inverted_nodes' nodes',
    all_well_formed inverted_nodes -> all_well_formed nodes ->
    Selection.collect l inverted_nodes nodes =
      ret (Some (inverted_nodes', nodes')) ->
    all_well_formed inverted_nodes' /\ all_well_formed nodes'.
Proof.
  induction 1 as [| i rest Hi Hrest IH]; intros a b a' b' Ha Hb; simpl.
  - intros [= <- <-]. auto.
  - destruct (Selection.inverted i), (Selection.void i); simpl;
      try discriminate; try (now apply IH).
    + destruct (Selection.node i) as [e | n] eqn:En; simpl; [discriminate|].
      apply IH; auto. apply all_well_formed_snoc; auto.
    + destruct (Selection.node i) as [e | n] eqn:En; simpl; [discriminate|].
      apply IH; auto. apply all_well_formed_snoc; auto.
Qed.

Lemma intersect_well_formed (l : list Selection) (s : Selection) :
  Forall selection_well_formed l ->
  Selection.intersect l = ret s -> selection_well_formed s.
Proof.
  intros Hl. unfold Selection.intersect.
  destruct (Selection.collect l [] []) as [e | [[a b] |]] eqn:Ec; simpl.
  - discriminate.
  - destruct (collect_well_formed Hl (Forall_nil _) (Forall_nil _) Ec)
      as [Ha Hb].
    destruct a as [| a0 a], b as [| b0 b].
    + intros [= <-] n; discriminate.
    + destruct (Node.intersect (b0 :: b)) as [e | x] eqn:Ex; simpl;
        [discriminate|].
      intros [= <-] n [= <-]. exact (Node_intersect_well_formed Hb Ex).
    + destruct (Node.union (a0 :: a)) as [e | y] eqn:Ey; simpl;
        [discriminate|].
      intros [= <-] n [= <-]. exact (Node_union_well_formed Ha Ey).
    + destruct (Node.intersect (b0 :: b)) as [e | x] eqn:Ex; cbn [bind];
        [discriminate|].
      destruct (Node.union (a0 :: a)) as [e | y] eqn:Ey; cbn [bind];
        [discriminate|].
      intros [= <-] n [= <-]. apply well_formed_composite.
      split; [discriminate|].
      repeat constructor.
      * exact (Node_intersect_well_formed Hb Ex).
      * exact (Node_union_well_formed Ha Ey).
  - intros [= <-] n; discriminate.
Qed.

Lemma invert_well_formed (s : Selection) :
  selection_well_formed s -> selection_well_formed (Selection.invert s).
Proof. intros Hs n Hn. now apply Hs. Qed.

Lemma union_well_formed (l : list Selection) (s : Selection) :
  Forall selection_well_formed l ->
  Selection.union l = ret s -> selection_well_formed s.
Proof.
  intros Hl. unfold Selection.union.
  destruct (Selection.intersect (map Selection.invert l)) as [e | r] eqn:Er;
    simpl; [discriminate|].
  intros [= <-]. apply invert_well_formed.
  apply (intersect_well_formed (l := map Selection.invert l)); auto.
  apply Forall_map. eapply Forall_impl; [| exact Hl].
  intros a Ha. now apply invert_well_formed.
Qed.

(** C3 (as stated, refuted).  The union of an inverted void selection and
    a cube is the inverted void selection, not the union of the remaining
    cube: the inverted void operand decides the result instead of being
    absorbed. *)
Lemma union_inverted_void_not_absorbed :
  Selection.union [Selection.invert void_selection; cube_selection] =
    ret (Selection.invert void_selection) /\
  Selection.union [cube_selection] =
    ret (Selection.invert (Selection.invert cube_selection)) /\
  Selection.union [Selection.invert void_selection; cube_selection] <>
    Selection.union [cube_selection].
Proof.
  repeat split. discriminate.
Qed.

(** C3 (amended).  A non-inverted void operand makes [Selection.intersect]
    return [void_selection]; an inverted void operand makes
    [Selection.union] return the inverted [void_selection], whatever the
    other operands are.  The operands that are dropped without affecting the
    result are the inverted void ones for [intersect] and the non-inverted
    void ones for [union]. *)
Theorem void_absorption (L : list Selection) :
  (forall x, In x L -> nothing x = true ->
             Selection.intersect L = ret void_selection) /\
  (forall x, In x L -> whole_space x = true ->
             Selection.union L = ret (Selection.invert void_selection)) /\
  Selection.intersect L =
    Selection.intersect (filter (fun s => negb (whole_space s)) L) /\
  Selection.union L =
    Selection.union (filter (fun s => negb (nothing s)) L).
Proof.
  split; [| split; [| split]].
  - intros x Hin Hx. unfold nothing in Hx.
    apply andb_true_iff in Hx as [Hi Hv].
    apply negb_true_iff in Hi.
    exact (intersect_void_operand L x Hin Hi Hv).
  - intros x Hin Hx. unfold whole_space in Hx.
    apply andb_true_iff in Hx as [Hi Hv].
    exact (union_whole_space_operand L x Hin Hi Hv).
  - apply intersect_skips_whole_space.
  - apply union_skips_nothing.
Qed.

Lemma void_absorption_witness :
  Selection.intersect [cube_selection; void_selection] =
    ret void_selection /\
  Selection.union [cube_selection; Selection.invert void_selection] =
    ret (Selection.invert void_selection).
Proof.
  split.
  - apply (proj1 (void_absorption [cube_selection; void_selection])
                 void_selection); [simpl; auto | reflexivity].
  - apply (proj1 (proj2 (void_absorption
                   [cube_selection; Selection.invert void_selection]))
                 (Selection.invert void_selection));
      [simpl; auto | reflexivity].
Defined.

(** C4 (as stated, refuted).  Inverting [void_selection] twice nests two
    wrappers around it: the representation has grown and the result is not
    the selection that was inverted. *)
Lemma double_inversion_grows :
  wrappers (Selection.invert (Selection.invert void_selection)) = 2 /\
  wrappers void_selection = 0 /\
  Selection.invert (Selection.invert void_selection) <> void_selection.
Proof.
  repeat split. discriminate.
Qed.

(** C4 (amended).  [invert (invert x)] answers the [void], [inverted] and
    [node] queries as [x] does; every inversion wraps the selection once
    more, so [n] inversions add [n] wrappers. *)
Theorem double_inversion_observable (x : Selection) :
  Selection.void (Selection.invert (Selection.invert x)) = Selection.void x /\
  Selection.inverted (Selection.invert (Selection.invert x)) =
    Selection.inverted x /\
  Selection.node (Selection.invert (Selection.invert x)) = Selection.node x /\
  forall n, wrappers (Nat.iter n Selection.invert x) =
            n + wrappers x.
Proof.
  repeat split.
  - simpl. apply negb_involutive.
  - induction n as [| n IH]; simpl; [reflexivity | now rewrite IH].
Qed.

(** C8 (as stated, refuted).  [Selection.intersect] reads the [void] flag
    of the inverted void selection and then drops the operand: the result
    is the non-void intersection of the remaining cube, as for an operand
    that selects everything, whereas a void operand gives a void result. *)
Lemma inverted_void_treated_as_everything :
  Selection.void (Selection.invert void_selection) = true /\
  Selection.intersect [Selection.invert void_selection; cube_selection]
    = Selection.intersect [cube_selection] /\
  Selection.intersect [Selection.invert void_selection; cube_selection]
    = ret cube_selection /\
  Selection.intersect [void_selection; cube_selection]
    = ret void_selection.
Proof.
  repeat split.
Qed.

(** C8 (amended).  [invert void_selection] reports [void] (and
    [inverted]); [transform] returns it unchanged; [intersect] drops it
    wherever it stands among the operands, and [union] returns it as soon
    as it is one of the operands, wherever it stands. *)
Theorem inverted_void_is_void :
  Selection.void (Selection.invert void_selection) = true /\
  Selection.inverted (Selection.invert void_selection) = true /\
  (forall text,
      Selection.transform text (Selection.invert void_selection) =
      ret (Selection.invert void_selection)) /\
  (forall L1 L2,
      Selection.intersect (L1 ++ Selection.invert void_selection :: L2) =
      Selection.intersect (L1 ++ L2)) /\
  (forall L,
      In (Selection.invert void_selection) L ->
      Selection.union L = ret (Selection.invert void_selection)).
Proof.
  split; [reflexivity|]. split; [reflexivity|]. split; [reflexivity|].
  split.
  - intros L1 L2.
    rewrite (intersect_skips_whole_space
               (L1 ++ Selection.invert void_selection :: L2)).
    rewrite (intersect_skips_whole_space (L1 ++ L2)).
    now rewrite !filter_app.
  - intros L Hin.
    exact (union_whole_space_operand L (Selection.invert void_selection)
             Hin eq_refl eq_refl).
Qed.

Lemma inverted_void_is_void_witness :
  Selection.intersect
    [cube_selection; Selection.invert void_selection; cube_selection] =
  Selection.intersect [cube_selection; cube_selection] /\
  Selection.union [cube_selection; Selection.invert void_selection] =
  ret (Selection.invert void_selection).
Proof.
  split.
  - exact (proj1 (proj2 (proj2 (proj2 inverted_void_is_void)))
             [cube_selection] [cube_selection]).
  - apply (proj2 (proj2 (proj2 (proj2 inverted_void_is_void)))).
    right. now left.
Defined.

(** C10.  [Selection.intersect] and [Selection.union] never fail: the
    destructuring at the head of [Node.intersect] and [Node.union], which
    raises on an empty sequence, is only reached with a non-empty one, and
    the intersection of no selections is void without building a node.  A
    result of [Node.intersect] or [Node.union] is the single node given or
    a composite of at least two children, and selections built from well
    formed nodes have a well formed node. *)
Theorem intersect_calls_non_empty (L : list Selection) :
  (exists s, Selection.intersect L = ret s) /\
  (exists s, Selection.union L = ret s) /\
  Selection.intersect [] = ret void_selection /\
  Node.intersect [] = raise ValueError /\
  Node.union [] = raise ValueError /\
  (forall nodes n,
      Node.intersect nodes = ret n ->
      nodes = [n] \/
      exists a b rest, nodes = a :: b :: rest /\
                       n = CompositeNode "intersection()" nodes) /\
  (forall nodes n,
      Node.union nodes = ret n ->
      nodes = [n] \/
      exists a b rest, nodes = a :: b :: rest /\
                       n = CompositeNode "union()" nodes) /\
  (Forall selection_well_formed L ->
   forall s, Selection.intersect L = ret s \/ Selection.union L = ret s ->
             selection_well_formed s).
Proof.
  split; [apply intersect_total|].
  split; [apply union_total|].
  split; [reflexivity|].
  split; [reflexivity|].
  split; [reflexivity|].
  split; [apply Node_intersect_shape|].
  split; [apply Node_union_shape|].
  intros HL s [Hs | Hs].
  - exact (intersect_well_formed HL Hs).
  - exact (union_well_formed HL Hs).
Qed.

Lemma intersect_calls_non_empty_witness :
  selection_well_formed
    (Selection.create
       (Node.minus cube_node (CompositeNode "union()" [cube_node; cube_node]))).
Proof.
  apply (proj2 (proj2 (proj2 (proj2 (proj2 (proj2 (proj2
           (intersect_calls_non_empty
              [cube_selection;
               Selection.invert cube_selection;
               Selection.invert cube_selection])))))))).
  - repeat (apply Forall_cons || apply Forall_nil);
      intros n Hn; simpl in Hn; injection Hn as <-; reflexivity.
  - left. reflexivity.
Defined.

(** ** Dictionaries *)

#[export] Instance bool_HashableSpec : HashableSpec bool.
Proof. intros a b. apply Bool.eqb_true_iff. Qed.

#[export] Instance Selector_HashableSpec : HashableSpec Selector.
Proof.
  intros [] []; unfold key_eqb, Selector_Hashable; simpl; split; intros;
    congruence.
Qed.

Lemma Node_eq_refl (n : Node) : Node.__eq__ n n = true.
Proof.
  induction n as [text | text nodes IH] using Node_induction; simpl.
  - apply String.eqb_refl.
  - rewrite String.eqb_refl. simpl.
    induction IH as [| c l Hc Hl IHl]; [reflexivity|].
    now rewrite Hc, IHl.
Qed.

Lemma Node_eq_true (a : Node) : forall b, Node.__eq__ a b = true -> a = b.
Proof.
  induction a as [s | s l IH] using Node_induction;
    intros [t | t m]; simpl; try discriminate.
  - intros E. apply String.eqb_eq in E. now subst.
  - intros E. apply andb_true_iff in E as [Es El].
    apply String.eqb_eq in Es. subst t. f_equal.
    revert m El. induction IH as [| c l Hc Hl IHl]; intros [| d m] El;
      try discriminate; [reflexivity|].
    apply andb_true_iff in El as [Ecd El].
    f_equal; [now apply Hc | now apply IHl].
Qed.

#[export] Instance Node_HashableSpec : HashableSpec Node.
Proof.
  intros a b. split.
  - apply Node_eq_true.
  - intros ->. apply Node_eq_refl.
Qed.

Section DictFacts.
Context {K : Type} `{HashableSpec K}.

Lemma key_eqb_refl (k : K) : key_eqb k k = true.
Proof. now apply key_eqb_eq. Qed.

Lemma key_eqb_neq (a b : K) : a <> b -> key_eqb a b = false.
Proof.
  intros Hab. destruct (key_eqb a b) eqn:E; [|reflexivity].
  apply (proj1 (key_eqb_eq a b)) in E. contradiction.
Qed.

Lemma key_eq_dec (a b : K) : a = b \/ a <> b.
Proof.
  destruct (key_eqb a b) eqn:E.
  - left. now apply (proj1 (key_eqb_eq a b)).
  - right. intros Hab. apply (proj2 (key_eqb_eq a b)) in Hab. congruence.
Qed.

Lemma set_mem_In (x : K) (s : list K) : set_mem x s = true <-> In x s.
Proof.
  unfold set_mem. rewrite existsb_exists. split.
  - intros (y & Hy & E). apply (proj1 (key_eqb_eq x y)) in E. now subst.
  - intros Hx. exists x. split; [assumption | apply key_eqb_refl].
Qed.

Lemma set_mem_false (x : K) (s : list K) : set_mem x s = false <-> ~ In x s.
Proof.
  rewrite <- set_mem_In. destruct (set_mem x s); split; intros; congruence.
Qed.

Lemma set_add_In (x y : K) (s : list K) :
  In y (set_add x s) <-> y = x \/ In y s.
Proof.
  unfold set_add. destruct (set_mem x s) eqn:E.
  - apply set_mem_In in E. split; [auto | intros [-> | ?]; auto].
  - simpl. split; intros [? | ?]; auto.
Qed.

Context {V : Type}.

Lemma get_None (k : K) (d : list (K * V)) :
  Dict.get k d = None <-> ~ In k (Dict.keys d).
Proof.
  induction d as [| [k' v] d IH]; simpl.
  - tauto.
  - destruct (key_eqb k k') eqn:E.
    + apply (proj1 (key_eqb_eq k k')) in E. subst.
      split; [discriminate | tauto].
    + rewrite IH. split.
      * intros Hn [-> | Hin]; [rewrite key_eqb_refl in E; discriminate | tauto].
      * tauto.
Qed.

Lemma get_In (k : K) (d : list (K * V)) :
  In k (Dict.keys d) -> exists v, Dict.get k d = Some v.
Proof.
  intros Hin. destruct (Dict.get k d) as [v |] eqn:E; [eauto|].
  apply get_None in E. contradiction.
Qed.

Lemma set_fresh (k : K) (v : V) (d : list (K * V)) :
  ~ In k (Dict.keys d) -> Dict.set k v d = d ++ [(k, v)].
Proof.
  induction d as [| [k' v'] d IH]; simpl; intros Hk; [reflexivity|].
  rewrite key_eqb_neq by (intros ->; tauto).
  rewrite IH by tauto. reflexivity.
Qed.

Lemma keys_set (k : K) (v : V) (d : list (K * V)) :
  Dict.keys (Dict.set k v d) =
  if set_mem k (Dict.keys d) then Dict.keys d else Dict.keys d ++ [k].
Proof.
  induction d as [| [k' v'] d IH]; simpl; [reflexivity|].
  unfold set_mem in *. simpl. destruct (key_eqb k k') eqn:E; simpl.
  - reflexivity.
  - rewrite IH. now destruct (existsb (key_eqb k) (Dict.keys d)).
Qed.

Lemma get_set_same (k : K) (v : V) (d : list (K * V)) :
  Dict.get k (Dict.set k v d) = Some v.
Proof.
  induction d as [| [k' v'] d IH]; simpl.
  - now rewrite key_eqb_refl.
  - destruct (key_eqb k k') eqn:E; simpl; now rewrite E.
Qed.

Lemma get_set_other (k k' : K) (v : V) (d : list (K * V)) :
  k <> k' -> Dict.get k (Dict.set k' v d) = Dict.get k d.
Proof.
  intros Hk. induction d as [| [k0 v0] d IH]; simpl.
  - now rewrite key_eqb_neq.
  - destruct (key_eqb k' k0) eqn:E; simpl.
    + apply (proj1 (key_eqb_eq k' k0)) in E. subst k0.
      simpl. now rewrite key_eqb_neq.
    + now rewrite IH.
Qed.

Lemma NoDup_keys_set (k : K) (v : V) (d : list (K * V)) :
  NoDup (Dict.keys d) -> NoDup (Dict.keys (Dict.set k v d)).
Proof.
  intros Hd. rewrite keys_set. destruct (set_mem k (Dict.keys d)) eqn:E.
  - assumption.
  - apply set_mem_false in E. apply NoDup_app; auto.
    + repeat constructor. simpl. tauto.
    + intros x Hx [<- | []]. contradiction.
Qed.

Lemma of_list_NoDup_gen (l acc : list (K * V)) :
  NoDup (Dict.keys (acc ++ l)) ->
  fold_left (fun d kv => Dict.set (fst kv) (snd kv) d) l acc = acc ++ l.
Proof.
  revert acc. induction l as [| [k v] l IH]; intros acc Hnd; simpl.
  - now rewrite app_nil_r.
  - assert (Hk : ~ In k (Dict.keys acc)).
    { unfold Dict.keys in *. rewrite map_app in Hnd. simpl in Hnd.
      apply NoDup_remove_2 in Hnd. rewrite in_app_iff in Hnd. tauto. }
    rewrite set_fresh by assumption.
    rewrite IH; rewrite <- app_assoc; simpl; auto.
Qed.

Lemma of_list_NoDup (l : list (K * V)) :
  NoDup (Dict.keys l) -> Dict.of_list l = l.
Proof. intros Hl. unfold Dict.of_list. now rewrite of_list_NoDup_gen. Qed.

Lemma get_map (g : K -> V) (k : K) (l : list K) :
  In k l -> Dict.get k (map (fun i => (i, g i)) l) = Some (g k).
Proof.
  induction l as [| i l IH]; simpl; intros Hin; [destruct Hin|].
  destruct (key_eqb k i) eqn:E.
  - apply (proj1 (key_eqb_eq k i)) in E. now subst.
  - destruct Hin as [-> | Hin]; [rewrite key_eqb_refl in E; discriminate|].
    now apply IH.
Qed.

End DictFacts.

(** ** Object composition *)

Lemma mapM_map {A B} (f : A -> Result B) (g : A -> B) (l : list A) :
  (forall a, In a l -> f a = ret (g a)) -> mapM f l = ret (map g l).
Proof.
  induction l as [| a l IH]; simpl; intros Hf; [reflexivity|].
  rewrite Hf by auto. simpl. rewrite IH by auto. reflexivity.
Qed.

Lemma mapM_total {A B} (f : A -> Result B) (l : list A) :
  (forall a, In a l -> exists b, f a = ret b) ->
  exists bs, mapM f l = ret bs /\ List.length bs = List.length l.
Proof.
  induction l as [| a l IH]; simpl; intros Hf; [now exists []|].
  destruct (Hf a) as [b ->]; auto.
  destruct IH as (bs & -> & Hlen); auto.
  exists (b :: bs). simpl. auto.
Qed.

Lemma combine_total (groups : list (list Selection)) :
  exists s, Object.combine groups = ret s.
Proof.
  unfold Object.combine.
  destruct (mapM_total Selection.intersect groups) as (gs & -> & _).
  - intros g _. apply intersect_total.
  - simpl. apply union_total.
Qed.

Lemma assert_objects_fails {K} (objects : list (PyValue K)) :
  Exists (fun v => is_object v = false) objects ->
  Object.assert_objects objects = raise AssertionError.
Proof.
  induction objects as [| [o | r] rest IH]; intros Hex.
  - inversion Hex.
  - simpl. rewrite IH; [reflexivity|].
    inversion Hex as [? ? Ho | ? ? Hrest]; [discriminate | assumption].
  - reflexivity.
Qed.

Section ComposeFacts.
Context {K K' : Type} `{Hashable K} `{HashableSpec K'}.

Lemma tally_loop_NoDup {V} (tuples : list (K' * V)) :
  forall res, NoDup (Dict.keys res) ->
              NoDup (Dict.keys (tally_loop tuples res)).
Proof.
  induction tuples as [| [k v] tuples IH]; intros res Hres; simpl.
  - assumption.
  - apply IH. destruct (Dict.get k res); now apply NoDup_keys_set.
Qed.

Lemma tally_NoDup {V} (tuples : list (K' * V)) :
  NoDup (Dict.keys (_tally tuples)).
Proof. apply tally_loop_NoDup. constructor. Qed.

Lemma compute_selection_total
      (groups_by_selector : list (K' * list (list Selection))) (s : K') :
  In s (Dict.keys groups_by_selector) ->
  exists sel, Object.compute_selection groups_by_selector s = ret sel.
Proof.
  intros Hin. unfold Object.compute_selection.
  destruct (get_In s groups_by_selector Hin) as [groups ->].
  destruct (_ <? _)%nat.
  - destruct (combine_total (Object.inverse_groups groups_by_selector s))
      as [c ->].
    simpl. eauto.
  - apply combine_total.
Qed.

Lemma compose_result (operation : list K -> Result K')
      (objects : list (PyValue K)) (objs : list (Object K))
      (tuples : list (K' * list Selection)) :
  Object.assert_objects objects = ret objs ->
  Object.iter_selections operation objs = ret tuples ->
  Object.compose operation objects =
  ret (mkObject (map (fun i => (i, computed_selection (_tally tuples) i))
                     (Dict.keys (_tally tuples)))).
Proof.
  intros Ho Ht. unfold Object.compose. rewrite Ho. simpl. rewrite Ht. simpl.
  rewrite (mapM_map _
             (fun i => (i, computed_selection (_tally tuples) i))).
  - simpl. rewrite of_list_NoDup; [reflexivity|].
    unfold Dict.keys at 1. rewrite map_map. simpl. rewrite map_id.
    apply tally_NoDup.
  - intros i Hi. unfold computed_selection.
    destruct (compute_selection_total _ i Hi) as [sel ->]. reflexivity.
Qed.

End ComposeFacts.

(** C7.  When the inputs are objects and the operation is defined on every
    combination of their selectors, [compose] returns an object that has,
    for every result selector [s] with its list [groups] of selection
    groups, the selection [invert (combine inverse_groups)] if [groups] is
    longer than [inverse_groups], the concatenation of the groups of all
    other result selectors, and [combine groups] otherwise; [combine] is the
    union of the intersections of the groups. *)
Theorem compose_term_count
        {K K' : Type} `{Hashable K} `{HashableSpec K'}
        (operation : list K -> Result K') (objects : list (PyValue K))
        (objs : list (Object K)) (tuples : list (K' * list Selection)) :
  Object.assert_objects objects = ret objs ->
  Object.iter_selections operation objs = ret tuples ->
  let groups_by_selector := _tally tuples in
  exists result,
    Object.compose operation objects = ret result /\
    Object.selectors result = Dict.keys groups_by_selector /\
    (forall s groups,
        Dict.get s groups_by_selector = Some groups ->
        let inverse_groups :=
          flat_map (fun sg => if key_eqb (fst sg) s then [] else snd sg)
                   groups_by_selector in
        exists sel,
          Dict.get s (_selections result) = Some sel /\
          (if (List.length inverse_groups <? List.length groups)%nat
           then c <- Object.combine inverse_groups ;;
                ret (Selection.invert c)
           else Object.combine groups) = ret sel) /\
    (forall groups,
        Object.combine groups =
        (xs <- mapM Selection.intersect groups ;; Selection.union xs)).
Proof.
  intros Ho Ht groups_by_selector. eexists.
  split; [exact (compose_result _ _ Ho Ht)|].
  split.
  { unfold Object.selectors, Dict.keys. simpl. rewrite map_map. simpl.
    now rewrite map_id. }
  split; [| reflexivity].
  intros s groups Hs inverse_groups. simpl.
  assert (Hin : In s (Dict.keys groups_by_selector)).
  { destruct (set_mem s (Dict.keys groups_by_selector)) eqn:E.
    - now apply set_mem_In.
    - apply set_mem_false, get_None in E. congruence. }
  exists (computed_selection groups_by_selector s). split.
  - now apply (get_map (computed_selection groups_by_selector)).
  - unfold computed_selection.
    destruct (compute_selection_total _ s Hin) as [sel Hsel]. rewrite Hsel.
    unfold Object.compute_selection in Hsel. now rewrite Hs in Hsel.
Qed.

Lemma compose_term_count_witness :
  exists result,
    Object.__add__ cube (PyObject cube) = ret result /\
    Object.selectors result = [true_selector; false_selector] /\
    Dict.get true_selector (_selections result) =
      Some (Selection.invert (Selection.invert (Selection.create
              (CompositeNode "union()" [cube_node; cube_node])))).
Proof.
  destruct (compose_term_count
              (K := Selector) (K' := Selector) operator__add__
              [PyObject cube; PyObject cube] eq_refl eq_refl)
    as (result & Hr & Hk & Hsel & _).
  exists result. split; [exact Hr|]. split; [exact Hk|].
  destruct (Hsel true_selector _ eq_refl) as (sel & Hget & Hval).
  rewrite Hget. f_equal.
  vm_compute in Hval. now injection Hval as <-.
Defined.

(** ** The traversal *)

Lemma walk_nodes_unfold (node : Node) (st : WalkState) :
  walk_nodes node st =
  if set_mem node (nodes_set st) then
    mkWalkState (nodes_set st) (nodes_list st)
                (set_add node (reused_nodes st))
  else
    let st2 := walk_children (Node.child_nodes node)
                 (mkWalkState (set_add node (nodes_set st)) (nodes_list st)
                              (reused_nodes st)) in
    mkWalkState (nodes_set st2) (nodes_list st2 ++ [node]) (reused_nodes st2).
Proof.
  assert (E : forall l st,
    (fix walk_children (l : list Node) (st : WalkState) : WalkState :=
       match l with
       | [] => st
       | i :: l' => walk_children l' (walk_nodes i st)
       end) l st = walk_children l st).
  { induction l as [| i l IH]; intros s; simpl; [reflexivity | apply IH]. }
  destruct node as [text | text nodes]; simpl.
  - reflexivity.
  - now rewrite E.
Qed.

Lemma size_child (text : string) (nodes : list Node) (c : Node) :
  In c nodes -> size c < size (CompositeNode text nodes).
Proof.
  simpl. induction nodes as [| d l IH]; intros Hin; [destruct Hin|].
  destruct Hin as [-> | Hin]; [lia|]. specialize (IH Hin). lia.
Qed.

Lemma size_pos (n : Node) : 1 <= size n.
Proof. destruct n; simpl; lia. Qed.

Lemma count_app (x : Node) (l m : list Node) :
  count x (l ++ m) = count x l + count x m.
Proof. unfold count. now rewrite filter_app, length_app. Qed.

Lemma edges_app (x : Node) (l m : list Node) :
  edges x (l ++ m) = edges x l + edges x m.
Proof. unfold edges. now rewrite map_app, list_sum_app. Qed.

Lemma calls_app (x : Node) (c1 c2 n1 n2 : list Node) :
  calls x (c1 ++ c2) (n1 ++ n2) = calls x c1 n1 + calls x c2 n2.
Proof. unfold calls. rewrite count_app, edges_app. lia. Qed.

Lemma count_pos (x : Node) (l : list Node) : 1 <= count x l <-> In x l.
Proof.
  unfold count. induction l as [| a l IH]; simpl.
  - split; [lia | tauto].
  - destruct (key_eqb x a) eqn:E; simpl.
    + apply (proj1 (key_eqb_eq x a)) in E. subst. split; [auto | lia].
    + rewrite IH. split; [auto|]. intros [-> | ?]; [|assumption].
      rewrite key_eqb_refl in E. discriminate.
Qed.

Lemma count_single (x node : Node) :
  count x [node] = if key_eqb x node then 1 else 0.
Proof. unfold count. simpl. now destruct (key_eqb x node). Qed.

Lemma calls_node (x node : Node) (new : list Node) :
  calls x [node] (new ++ [node]) =
  (if key_eqb x node then 1 else 0) + calls x (Node.child_nodes node) new.
Proof.
  unfold calls. rewrite edges_app, count_single. unfold edges at 2. simpl. lia.
Qed.

Lemma walk_pre_le (b b' : nat) (st : WalkState) :
  b' <= b -> walk_pre b st -> walk_pre b' st.
Proof.
  intros Hle [H1 H2 H3 H4]. split; auto.
  intros x Hs Hl. specialize (H4 x Hs Hl). lia.
Qed.

Lemma walk_ok_refl (st : WalkState) :
  ordered (nodes_list st) -> walk_ok [] st st [].
Proof.
  intros Ho. split; simpl.
  - now rewrite app_nil_r.
  - tauto.
  - tauto.
  - constructor.
  - tauto.
  - assumption.
  - intros x [].
  - intros x [].
  - intros x. unfold calls, count, edges. simpl. lia.
  - intros x. unfold calls, count, edges. simpl. split; [tauto|].
    intros [? | [[_ ?] | ?]]; [assumption | lia | lia].
Qed.

Lemma walk_pre_step (b : nat) (called new : list Node) (st st' : WalkState) :
  walk_pre b st -> walk_ok called st st' new -> walk_pre b st'.
Proof.
  intros [P1 P2 P3 P4] [O1 O2 O3 O4 O5 O6 O7 O8 O9 O10]. split.
  - rewrite O1. apply NoDup_app; auto.
    intros x Hx Hn. apply (O3 x Hn). auto.
  - intros x. rewrite O1, in_app_iff, O2. intros [? | ?]; auto.
  - assumption.
  - intros x Hs Hl. rewrite O1, in_app_iff in Hl. apply O2 in Hs.
    apply P4; tauto.
Qed.

Lemma walk_ok_trans (c1 c2 n1 n2 : list Node) (st st1 st2 : WalkState) :
  walk_ok c1 st st1 n1 -> walk_ok c2 st1 st2 n2 ->
  walk_ok (c1 ++ c2) st st2 (n1 ++ n2).
Proof.
  intros [A1 A2 A3 A4 A5 A6 A7 A8 A9 A10] [B1 B2 B3 B4 B5 B6 B7 B8 B9 B10].
  split.
  - now rewrite B1, A1, app_assoc.
  - intros x. rewrite B2, A2, in_app_iff. tauto.
  - intros x. rewrite in_app_iff. intros [Hx | Hx]; [now apply A3|].
    intros Hs. apply (B3 x Hx). apply A2. auto.
  - apply NoDup_app; auto.
    intros x Hx1 Hx2. apply (B3 x Hx2). apply A2. auto.
  - intros c. rewrite in_app_iff. intros [Hc | Hc]; [| now apply B5].
    rewrite B1, in_app_iff. left. now apply A5.
  - assumption.
  - intros x. rewrite in_app_iff. intros [Hx | Hx].
    + destruct (A7 x Hx) as (c & Hc & Hs). exists c. rewrite in_app_iff. auto.
    + destruct (B7 x Hx) as (c & Hc & Hs). exists c. rewrite in_app_iff. auto.
  - intros x. rewrite in_app_iff, calls_app. intros [Hx | Hx].
    + specialize (A8 x Hx). lia.
    + specialize (B8 x Hx). lia.
  - intros x. rewrite calls_app. intros Hc.
    destruct (Nat.le_gt_cases 1 (calls x c1 n1)) as [H1 | H1].
    + apply B2. left. now apply A9.
    + apply B9. lia.
  - intros x. rewrite calls_app, B10, A10, A2.
    specialize (A8 x). specialize (A9 x).
    split.
    + intros [[? | [[? ?] | ?]] | [[[? | Hn] ?] | ?]]; try tauto.
      * right. left. split; [assumption | lia].
      * right. right. lia.
      * right. left. split; [assumption | lia].
      * right. right. specialize (A8 Hn). lia.
      * right. right. lia.
    + intros [? | [[Hs Hc] | Hc]]; [tauto | |].
      * destruct (Nat.le_gt_cases 1 (calls x c1 n1)) as [H1 | H1].
        -- left. right. left. auto.
        -- right. left. split; [auto | lia].
      * destruct (Nat.le_gt_cases 2 (calls x c1 n1)) as [H1 | H1];
          [tauto|].
        destruct (Nat.le_gt_cases 2 (calls x c2 n2)) as [H2 | H2];
          [tauto|].
        right. left. split; [| lia].
        assert (H3 : 1 <= calls x c1 n1) by lia.
        specialize (A9 H3). apply A2 in A9. tauto.
Qed.

Lemma walk_children_ok (l : list Node) :
  Forall (fun c => forall st, walk_pre (size c) st ->
                   exists new, walk_ok [c] st (walk_nodes c st) new) l ->
  forall b st,
    (forall c, In c l -> size c <= b) -> walk_pre b st ->
    exists new, walk_ok l st (walk_children l st) new.
Proof.
  induction 1 as [| c l Hc Hl IH]; intros b st Hb Hpre.
  - exists []. apply walk_ok_refl. apply Hpre.
  - simpl.
    destruct (Hc st) as [n1 Hok1].
    { apply (walk_pre_le (b := b)); [apply Hb; now left | assumption]. }
    destruct (IH b (walk_nodes c st)) as [n2 Hok2].
    { intros d Hd. apply Hb. now right. }
    { exact (walk_pre_step Hpre Hok1). }
    exists (n1 ++ n2).
    exact (walk_ok_trans (c1 := [c]) Hok1 Hok2).
Qed.

Lemma ordered_snoc (l : list Node) (node : Node) :
  ordered l -> (forall c, In c (Node.child_nodes node) -> In c l) ->
  ordered (l ++ [node]).
Proof.
  intros Ho Hc l1 p l2 E c Hin.
  destruct l2 as [| z l2 _] using rev_ind.
  - apply app_inj_tail in E as [-> <-]. now apply Hc.
  - rewrite app_comm_cons, app_assoc in E.
    apply app_inj_tail in E as [E _].
    exact (Ho l1 p l2 E c Hin).
Qed.

Lemma size_child_nodes (node c : Node) :
  In c (Node.child_nodes node) -> size c < size node.
Proof.
  destruct node as [text | text nodes]; [intros [] | apply size_child].
Qed.

Lemma subterm_of_child (x c node : Node) :
  In c (Node.child_nodes node) -> subterm x c -> subterm x node.
Proof.
  destruct node as [text | text nodes]; [intros [] |].
  intros Hc Hs. exact (subterm_child text nodes Hc Hs).
Qed.

Lemma walk_nodes_step (node : Node) :
  Forall (fun c => forall st, walk_pre (size c) st ->
                   exists new, walk_ok [c] st (walk_nodes c st) new)
         (Node.child_nodes node) ->
  forall st, walk_pre (size node) st ->
             exists new, walk_ok [node] st (walk_nodes node st) new.
Proof.
  intros IH st Hpre. rewrite walk_nodes_unfold.
  destruct (set_mem node (nodes_set st)) eqn:Emem.
  - (* met before: the node is marked as reused *)
    apply set_mem_In in Emem.
    assert (Hdone : In node (nodes_list st)).
    { destruct (set_mem node (nodes_list st)) eqn:E;
        [now apply set_mem_In in E|].
      apply set_mem_false in E.
      pose proof (pre_pending Hpre node Emem E). lia. }
    exists []. split; simpl.
    + now rewrite app_nil_r.
    + tauto.
    + intros x [].
    + constructor.
    + intros c [<- | []]. assumption.
    + apply Hpre.
    + intros x [].
    + intros x [].
    + intros x. unfold calls, edges. simpl. rewrite count_single, Nat.add_0_r.
      destruct (key_eqb x node) eqn:E; [| lia].
      apply (proj1 (key_eqb_eq x node)) in E. now subst.
    + intros x. rewrite set_add_In. unfold calls, edges. simpl.
      rewrite count_single, Nat.add_0_r.
      destruct (key_eqb x node) eqn:E.
      * apply (proj1 (key_eqb_eq x node)) in E. subst x.
        split; [intros _; right; left; split; [assumption | lia] | auto].
      * assert (x <> node).
        { intros ->. rewrite key_eqb_refl in E. discriminate. }
        split; [intros [? | ?]; [contradiction | auto]|].
        intros [? | [[_ ?] | ?]]; [auto | lia | lia].
  - (* first visit *)
    apply set_mem_false in Emem.
    set (st1 := mkWalkState (set_add node (nodes_set st)) (nodes_list st)
                            (reused_nodes st)).
    assert (Hpre1 : walk_pre (size node - 1) st1).
    { destruct Hpre as [P1 P2 P3 P4]. split; simpl; auto.
      - intros x Hx. apply set_add_In. auto.
      - intros x Hs Hl. apply set_add_In in Hs as [-> | Hs].
        + pose proof (size_pos node). lia.
        + specialize (P4 x Hs Hl). lia. }
    destruct (walk_children_ok IH (b := size node - 1) (st := st1))
      as [new2 Hok2]; [| assumption |].
    { intros c Hc. apply size_child_nodes in Hc. lia. }
    set (st2 := walk_children (Node.child_nodes node) st1) in *.
    destruct Hok2 as [O1 O2 O3 O4 O5 O6 O7 O8 O9 O10].
    unfold st1 in O1, O2, O3, O10. simpl in O1, O2, O3, O10.
    assert (Hfresh : ~ In node new2).
    { intros Hn. apply (O3 node Hn). apply set_add_In. auto. }
    exists (new2 ++ [node]). simpl. split; simpl.
    + rewrite O1. now rewrite app_assoc.
    + intros x. rewrite O2, set_add_In, in_app_iff. simpl.
      intuition (subst; auto).
    + intros x. rewrite in_app_iff. intros [Hx | [<- | []]]; [| assumption].
      intros Hs. apply (O3 x Hx). apply set_add_In. auto.
    + apply NoDup_app; auto.
      * repeat constructor. simpl. tauto.
      * intros x Hx [<- | []]. contradiction.
    + intros c [<- | []]. apply in_app_iff. right. now left.
    + apply ordered_snoc; assumption.
    + intros x. rewrite in_app_iff. intros [Hx | [<- | []]].
      * destruct (O7 x Hx) as (c & Hc & Hs). exists node.
        split; [now left|]. exact (subterm_of_child _ Hc Hs).
      * exists node. split; [now left | constructor].
    + intros x. rewrite calls_node, in_app_iff. intros [Hx | [<- | []]].
      * specialize (O8 x Hx). lia.
      * rewrite key_eqb_refl. lia.
    + intros x. rewrite calls_node, O2, set_add_In.
      destruct (key_eqb x node) eqn:E.
      * apply (proj1 (key_eqb_eq x node)) in E. auto.
      * intros Hc. specialize (O9 x Hc). apply O2 in O9.
        rewrite set_add_In in O9. tauto.
    + intros x. rewrite calls_node, O10, set_add_In.
      destruct (key_eqb x node) eqn:E.
      * apply (proj1 (key_eqb_eq x node)) in E. subst x.
        split.
        -- intros [? | [[_ ?] | ?]]; [tauto | right; right; lia
                                     | right; right; lia].
        -- intros [? | [[? _] | ?]]; [tauto | contradiction |].
           right. left. split; [auto | lia].
      * assert (x <> node).
        { intros ->. rewrite key_eqb_refl in E. discriminate. }
        simpl. tauto.
Qed.

Lemma walk_nodes_ok (node : Node) :
  forall st, walk_pre (size node) st ->
             exists new, walk_ok [node] st (walk_nodes node st) new.
Proof.
  induction node as [text | text nodes IH] using Node_induction;
    apply walk_nodes_step; simpl; [constructor | assumption].
Qed.

Lemma ordered_prefix (l1 l2 : list Node) : ordered (l1 ++ l2) -> ordered l1.
Proof.
  intros Ho a p b E c Hc. apply (Ho a p (b ++ l2)); [| assumption].
  rewrite E, <- app_assoc. reflexivity.
Qed.

Lemma ordered_closed (l : list Node) (x y : Node) :
  ordered l -> In y l -> subterm x y -> In x l.
Proof.
  intros Ho Hy Hs. induction Hs as [| text nodes c Hc Hs IH]; [assumption|].
  apply in_split in Hy as (l1 & l2 & E).
  apply IH. rewrite E. apply in_app_iff. left.
  exact (Ho l1 _ l2 E c Hc).
Qed.

Lemma ordered_before (l1 l2 : list Node) (x y : Node) :
  ordered (l1 ++ y :: l2) -> proper_subterm x y -> In x l1.
Proof.
  intros Ho (c & Hc & Hs).
  apply (ordered_closed (l := l1) (y := c)).
  - exact (@ordered_prefix l1 (y :: l2) Ho).
  - exact (Ho l1 y l2 eq_refl c Hc).
  - assumption.
Qed.

Lemma walk_start_pre (b : nat) : walk_pre b walk_start.
Proof.
  split; simpl; try tauto.
  - constructor.
  - intros [| a l1] p l2 E; discriminate.
Qed.

(** The state after the traversal of a root. *)
Lemma walk_result (root : Node) :
  let st := walk_nodes root walk_start in
  NoDup (nodes_list st) /\
  ordered (nodes_list st) /\
  (forall x, In x (nodes_list st) <-> subterm x root) /\
  (forall x, In x (reused_nodes st) <->
             2 <= calls x [root] (nodes_list st)).
Proof.
  destruct (walk_nodes_ok root (walk_start_pre (size root))) as [new Hok].
  destruct Hok as [O1 O2 O3 O4 O5 O6 O7 O8 O9 O10]. simpl in *.
  rewrite O1. repeat split.
  - assumption.
  - now rewrite <- O1.
  - intros Hx. destruct (O7 x Hx) as (c & [<- | []] & Hs). assumption.
  - intros Hs. rewrite <- O1. apply (ordered_closed (y := root)); auto.
  - intros Hx. apply O10 in Hx. tauto.
  - intros Hx. apply O10. auto.
Qed.

(** ** Module allocation *)

Lemma well_named_snoc (modules : list _Module) (i : Node) :
  well_named modules ->
  well_named (modules ++
                [mk_Module ("node_" ++ str_of_nat (List.length modules + 1))
                           i]).
Proof.
  intros Hw k m Hk.
  destruct (Nat.lt_ge_cases k (List.length modules)) as [Hlt | Hge].
  - rewrite nth_error_app1 in Hk by assumption. now apply Hw.
  - rewrite nth_error_app2 in Hk by assumption.
    destruct (k - List.length modules) as [| j] eqn:E; simpl in Hk.
    + injection Hk as <-. simpl. unfold module_name.
      replace k with (List.length modules) by lia. reflexivity.
    + destruct j; discriminate.
Qed.

Lemma allocate_spec (reused : list Node) (nodes : list Node) :
  forall node_replacements modules,
    NoDup nodes -> well_named modules ->
    exists extra,
      let result := allocate nodes reused node_replacements modules in
      snd result = modules ++ extra /\
      well_named (snd result) /\
      map _node extra = filter (fun i => set_mem i reused) nodes /\
      (forall x, ~ In x nodes ->
                 Dict.get x (fst result) = Dict.get x node_replacements) /\
      (forall x, In x nodes -> set_mem x reused = false ->
                 Dict.get x (fst result) = Some x) /\
      (forall x, In x nodes -> set_mem x reused = true ->
                 exists m, In m extra /\ _node m = x /\
                           Dict.get x (fst result) =
                             Some (_Module.reference m)).
Proof.
  induction nodes as [| i rest IH]; intros repl mods Hnd Hw.
  - exists []. simpl. rewrite app_nil_r. repeat split; auto; intros x [].
  - inversion Hnd as [| ? ? Hi Hrest]; subst. simpl.
    destruct (set_mem i reused) eqn:Ei.
    + set (module := mk_Module _ i).
      destruct (IH (Dict.set i (_Module.reference module) repl)
                   (mods ++ [module]) Hrest (well_named_snoc i Hw))
        as (extra & E1 & E2 & E3 & E4 & E5 & E6).
      exists (module :: extra). simpl in *. repeat split.
      * rewrite E1, <- app_assoc. reflexivity.
      * assumption.
      * now rewrite E3.
      * intros x Hx. rewrite E4 by tauto.
        apply get_set_other. intros ->. tauto.
      * intros x [<- | Hx] Hr; [congruence | now apply E5].
      * intros x [<- | Hx] Hr.
        -- exists module. repeat split; auto.
           rewrite E4 by assumption. apply get_set_same.
        -- destruct (E6 x Hx Hr) as (m & Hm & Hn & Hg). exists m. auto.
    + destruct (IH (Dict.set i i repl) mods Hrest Hw)
        as (extra & E1 & E2 & E3 & E4 & E5 & E6).
      exists extra. simpl in *. repeat split; auto.
      * intros x Hx. rewrite E4 by tauto.
        apply get_set_other. intros ->. tauto.
      * intros x [<- | Hx] Hr; [| now apply E5].
        rewrite E4 by assumption. apply get_set_same.
      * intros x [<- | Hx] Hr; [congruence | now apply E6].
Qed.

Lemma subterm_trans (x y z : Node) : subterm x y -> subterm y z -> subterm x z.
Proof.
  intros Hxy Hyz. induction Hyz as [| text nodes c Hc Hs IH]; [assumption|].
  exact (subterm_child text nodes Hc IH).
Qed.

Lemma height_child (text : string) (nodes : list Node) (c : Node) :
  In c nodes -> height c < height (CompositeNode text nodes).
Proof.
  simpl. induction nodes as [| d l IH]; intros Hin; [destruct Hin|].
  destruct Hin as [-> | Hin]; [lia|]. specialize (IH Hin). lia.
Qed.

Lemma height_subterm (x y : Node) : subterm x y -> height x <= height y.
Proof.
  induction 1 as [| text nodes c Hc Hs IH]; [lia|].
  pose proof (height_child text nodes c Hc). lia.
Qed.

Lemma well_formed_subterm (x y : Node) :
  subterm x y -> well_formed y = true -> well_formed x = true.
Proof.
  induction 1 as [| text nodes c Hc Hs IH]; [auto|].
  intros Hwf. apply well_formed_composite in Hwf as [_ Hall].
  apply IH. unfold all_well_formed in Hall. rewrite Forall_forall in Hall.
  now apply Hall.
Qed.

Lemma iter_lines_total (node_replacements : list (Node * Node)) (x : Node) :
  (forall y, proper_subterm y x -> replaced node_replacements y) ->
  well_formed x = true ->
  forall fuel, height x < fuel ->
               exists lines, iter_lines fuel node_replacements x = ret lines.
Proof.
  induction x as [text | text nodes IH] using Node_induction;
    intros Hrepl Hwf fuel Hfuel.
  - destruct fuel as [| fuel]; [lia|]. simpl. eauto.
  - destruct fuel as [| fuel]; [lia|].
    apply well_formed_composite in Hwf as [Hne Hall].
    assert (Hchild : forall c, In c nodes ->
      exists lines,
        match Dict.get c node_replacements with
        | None => raise KeyError
        | Some replacement =>
            lines <- iter_lines fuel node_replacements replacement ;;
            ret (indent lines)
        end = ret lines).
    { intros c Hc.
      pose proof (height_child text nodes c Hc) as Hh.
      destruct (Hrepl c) as [-> | [t ->]].
      - exists c. split; [assumption | constructor].
      - rewrite Forall_forall in IH.
        destruct (IH c Hc) with (fuel := fuel) as [lines ->].
        + intros y (d & Hd & Hs). apply Hrepl.
          exists c. split; [assumption|].
          destruct c as [t | t l]; [destruct Hd|].
          exact (subterm_child t l Hd Hs).
        + unfold all_well_formed in Hall. rewrite Forall_forall in Hall.
          now apply Hall.
        + lia.
        + simpl. eauto.
      - destruct fuel as [| fuel]; [lia|]. simpl. eauto. }
    cbn [iter_lines].
    destruct nodes as [| first rest]; [now destruct Hne|].
    destruct rest as [| second rest].
    + destruct (Hchild first) as [lines ->]; [now left|]. simpl. eauto.
    + destruct (mapM_total _ (first :: second :: rest) Hchild)
        as (body & -> & _).
      simpl. eauto.
Qed.

Lemma well_named_nil : well_named [].
Proof. intros [| k] m Hk; discriminate. Qed.

(** What [compile_scad] knows before it emits its first line. *)
Lemma plan_spec (root : Node) :
  let st := fst (plan root) in
  let node_replacements := fst (snd (plan root)) in
  let modules := snd (snd (plan root)) in
  st = walk_nodes root walk_start /\
  well_named modules /\
  map _node modules =
    filter (fun i => set_mem i (reused_nodes st)) (List.rev (nodes_list st)) /\
  (forall x, subterm x root -> set_mem x (reused_nodes st) = false ->
             Dict.get x node_replacements = Some x) /\
  (forall x, subterm x root -> set_mem x (reused_nodes st) = true ->
             exists m, In m modules /\ _node m = x /\
                       Dict.get x node_replacements =
                         Some (_Module.reference m)).
Proof.
  unfold plan. simpl.
  destruct (walk_result root) as (Hnd & Ho & Hsub & Hre).
  set (st := walk_nodes root walk_start) in *.
  destruct (allocate_spec (reused_nodes st) [] (NoDup_rev Hnd) well_named_nil)
    as (extra & E1 & E2 & E3 & E4 & E5 & E6).
  simpl in E1. rewrite E1 in *. repeat split; auto.
  - intros x Hx. apply E5. apply in_rev. rewrite rev_involutive.
    now apply Hsub.
  - intros x Hx. apply E6. apply in_rev. rewrite rev_involutive.
    now apply Hsub.
Qed.

Lemma plan_replaced (root : Node) (x : Node) :
  subterm x root -> replaced (fst (snd (plan root))) x.
Proof.
  intros Hx. destruct (plan_spec root) as (_ & _ & _ & Hkeep & Hmod).
  unfold replaced.
  destruct (set_mem x (reused_nodes (fst (plan root)))) eqn:E.
  - destruct (Hmod x Hx E) as (m & _ & _ & ->). right.
    unfold _Module.reference, Node.create. eauto.
  - left. now apply Hkeep.
Qed.

Lemma plan_module_nodes (root : Node) (m : _Module) :
  In m (snd (snd (plan root))) ->
  subterm (_node m) root /\
  set_mem (_node m) (reused_nodes (fst (plan root))) = true.
Proof.
  intros Hm. destruct (plan_spec root) as (Est & _ & Hnodes & _ & _).
  destruct (walk_result root) as (_ & _ & Hsub & _).
  apply (in_map _node) in Hm. rewrite Hnodes in Hm.
  apply filter_In in Hm as [Hin Hr]. split; [| assumption].
  apply Hsub. rewrite <- Est. now apply in_rev.
Qed.

(** [compile_scad] produces its lines for every well formed root. *)
Lemma emit_total (root : Node) :
  well_formed root = true ->
  exists main bodies,
    iter_lines (S (height root)) (fst (snd (plan root))) root = ret main /\
    Forall2 (fun m body =>
               iter_lines (S (height root)) (fst (snd (plan root))) (_node m)
               = ret body)
            (snd (snd (plan root))) bodies /\
    emit root =
    ret (main ++
         concat (map (fun mb => block (fst mb) (snd mb))
                     (List.combine (snd (snd (plan root))) bodies))).
Proof.
  intros Hwf. unfold emit.
  destruct (snd (plan root)) as [node_replacements modules] eqn:Eplan.
  assert (Hrepl : forall x, subterm x root -> replaced node_replacements x).
  { intros x Hx. pose proof (plan_replaced Hx) as Hr.
    now rewrite Eplan in Hr. }
  assert (Hmods : forall m, In m modules -> subterm (_node m) root).
  { intros m Hm. apply plan_module_nodes. now rewrite Eplan. }
  simpl fst. simpl snd.
  destruct (iter_lines_total (node_replacements := node_replacements)
              (x := root)) with (fuel := S (height root)) as [main Hmain];
    auto.
  { intros y (c & Hc & Hs). apply Hrepl.
    destruct root as [t | t l]; [destruct Hc|].
    exact (subterm_child t l Hc Hs). }
  exists main. rewrite Hmain. cbn [bind].
  clear Eplan. revert Hmods.
  induction modules as [| m modules IH]; intros Hmods.
  - exists []. split; [reflexivity|]. split; [constructor|].
    simpl. now rewrite app_nil_r.
  - destruct IH as (bodies & _ & Hall & Hemit);
      [intros; apply Hmods; now right|].
    destruct (iter_lines_total (node_replacements := node_replacements)
                (x := _node m)) with (fuel := S (height root)) as [body Hbody].
    { intros y (c & Hc & Hs). apply Hrepl.
      apply (subterm_trans (y := _node m)); [| apply Hmods; now left].
      destruct (_node m) as [t | t l]; [destruct Hc|].
      exact (subterm_child t l Hc Hs). }
    { apply (well_formed_subterm (y := root)); auto. apply Hmods. now left. }
    { pose proof (height_subterm (Hmods m (or_introl eq_refl))). lia. }
    exists (body :: bodies). split; [reflexivity|]. split; [now constructor|].
    cbn [mapM List.combine map concat fst snd].
    unfold _Module.iter_lines at 1. rewrite Hbody. cbn [bind ret].
    destruct (mapM _ modules) as [e | blocks] eqn:Eb; cbn [bind ret] in *;
      [discriminate|].
    injection Hemit as Hemit. apply app_inv_head in Hemit. rewrite <- Hemit.
    reflexivity.
Qed.

Lemma renders_mapM {A B} (f : A -> Result B) (l : list A) :
  (forall a, In a l -> renders (f a)) -> renders (mapM f l).
Proof.
  induction l as [| a l IH]; intros Hf; simpl.
  - left. eauto.
  - destruct (Hf a (or_introl eq_refl)) as [[b ->] | ->]; [| now right].
    simpl. destruct IH as [[bs ->] | ->]; [intros; apply Hf; now right | |].
    + left. simpl. eauto.
    + now right.
Qed.

(** The bound on the recursion of [iter_lines] is never reached and every
    replacement is found. *)
Lemma iter_lines_renders (node_replacements : list (Node * Node)) (x : Node) :
  (forall y, proper_subterm y x -> replaced node_replacements y) ->
  forall fuel, height x < fuel ->
               renders (iter_lines fuel node_replacements x).
Proof.
  induction x as [text | text nodes IH] using Node_induction;
    intros Hrepl fuel Hfuel.
  - destruct fuel as [| fuel]; [lia|]. left. simpl. eauto.
  - destruct fuel as [| fuel]; [lia|].
    assert (Hchild : forall c, In c nodes ->
      renders
        match Dict.get c node_replacements with
        | None => raise KeyError
        | Some replacement =>
            lines <- iter_lines fuel node_replacements replacement ;;
            ret (indent lines)
        end).
    { intros c Hc.
      pose proof (height_child text nodes c Hc) as Hh.
      destruct (Hrepl c) as [-> | [t ->]].
      - exists c. split; [assumption | constructor].
      - rewrite Forall_forall in IH.
        destruct (IH c Hc) with (fuel := fuel) as [[lines ->] | ->].
        + intros y (d & Hd & Hs). apply Hrepl.
          exists c. split; [assumption|].
          destruct c as [t | t l]; [destruct Hd|].
          exact (subterm_child t l Hd Hs).
        + lia.
        + left. simpl. eauto.
        + now right.
      - destruct fuel as [| fuel]; [lia|]. left. simpl. eauto. }
    cbn [iter_lines].
    destruct nodes as [| first rest]; [now right|].
    destruct rest as [| second rest].
    + destruct (Hchild first) as [[lines ->] | ->]; [now left | |].
      * left. simpl. eauto.
      * now right.
    + destruct (renders_mapM _ (first :: second :: rest) Hchild)
        as [[body ->] | ->].
      * left. simpl. eauto.
      * now right.
Qed.

Lemma emit_renders (root : Node) : renders (emit root).
Proof.
  unfold emit.
  destruct (snd (plan root)) as [node_replacements modules] eqn:Eplan.
  assert (Hrepl : forall x, subterm x root -> replaced node_replacements x).
  { intros x Hx. pose proof (plan_replaced Hx) as Hr.
    now rewrite Eplan in Hr. }
  assert (Hmods : forall m, In m modules -> subterm (_node m) root).
  { intros m Hm. apply plan_module_nodes. now rewrite Eplan. }
  destruct (iter_lines_renders (node_replacements := node_replacements)
              (x := root)) with (fuel := S (height root))
    as [[main ->] | ->]; [| lia | | now right].
  { intros y (c & Hc & Hs). apply Hrepl.
    destruct root as [t | t l]; [destruct Hc|].
    exact (subterm_child t l Hc Hs). }
  cbn [bind].
  destruct (renders_mapM
              (fun i => lines <- _Module.iter_lines (S (height root)) i
                                   node_replacements ;;
                        ret ("" :: lines)) modules) as [[blocks ->] | ->].
  - intros m Hm. unfold _Module.iter_lines.
    destruct (iter_lines_renders (node_replacements := node_replacements)
                (x := _node m)) with (fuel := S (height root))
      as [[body ->] | ->].
    + intros y (c & Hc & Hs). apply Hrepl.
      apply (subterm_trans (y := _node m)); [| now apply Hmods].
      destruct (_node m) as [t | t l]; [destruct Hc|].
      exact (subterm_child t l Hc Hs).
    + pose proof (height_subterm (Hmods m Hm)). lia.
    + left. simpl. eauto.
    + now right.
  - left. simpl. eauto.
  - now right.
Qed.

(** ** Order of the modules *)

Lemma NoDup_app_disjoint {A} (l1 l2 : list A) (x : A) :
  NoDup (l1 ++ l2) -> In x l1 -> In x l2 -> False.
Proof.
  induction l1 as [| a l1 IH]; simpl; intros Hnd H1 H2; [assumption|].
  inversion Hnd as [| ? ? Ha Hrest]; subst.
  destruct H1 as [-> | H1]; [| now apply IH].
  apply Ha. apply in_app_iff. auto.
Qed.

Lemma nth_error_unique {A} (l1 l2 : list A) (y : A) (p : nat) :
  NoDup (l1 ++ y :: l2) -> nth_error (l1 ++ y :: l2) p = Some y ->
  p = List.length l1.
Proof.
  intros Hnd Hp.
  apply (proj1 (NoDup_nth_error _) Hnd).
  - apply nth_error_Some. congruence.
  - rewrite Hp, nth_error_app2, Nat.sub_diag by lia. reflexivity.
Qed.

Lemma plan_modules_NoDup (root : Node) :
  NoDup (map _node (snd (snd (plan root)))).
Proof.
  destruct (plan_spec root) as (Est & _ & -> & _).
  destruct (walk_result root) as (Hnd & _).
  apply NoDup_filter, NoDup_rev. now rewrite Est.
Qed.

Lemma module_order (root : Node) (p q : nat) (mp mq : _Module) :
  nth_error (snd (snd (plan root))) p = Some mp ->
  nth_error (snd (snd (plan root))) q = Some mq ->
  proper_subterm (_node mq) (_node mp) ->
  p < q.
Proof.
  intros Hp Hq Hsub.
  pose proof (plan_modules_NoDup root) as HndM.
  destruct (plan_spec root) as (Est & _ & Hnodes & _).
  destruct (walk_result root) as (Hnd & Ho & _).
  rewrite <- Est in Hnd, Ho.
  apply (map_nth_error _node) in Hp, Hq.
  set (L := nodes_list (fst (plan root))) in *.
  set (f := fun i => set_mem i (reused_nodes (fst (plan root)))) in *.
  set (x := _node mq) in *. set (y := _node mp) in *.
  assert (Hy : In y (filter f (List.rev L))).
  { rewrite <- Hnodes. apply nth_error_In with p. exact Hp. }
  apply filter_In in Hy as [HyL Hfy]. apply in_rev in HyL.
  apply in_split in HyL as (l1 & l2 & EL).
  rewrite EL in Hnd, Ho.
  pose proof (@ordered_before l1 l2 x y Ho Hsub) as Hx1.
  assert (EM : map _node (snd (snd (plan root))) =
               filter f (List.rev l2) ++ y :: filter f (List.rev l1)).
  { rewrite Hnodes, EL, rev_app_distr. simpl. rewrite <- app_assoc. simpl.
    rewrite filter_app. simpl. now rewrite Hfy. }
  rewrite EM in *.
  pose proof (nth_error_unique _ _ _ HndM Hp) as ->.
  destruct (Nat.lt_ge_cases (List.length (filter f (List.rev l2))) q)
    as [Hlt | Hge]; [assumption | exfalso].
  apply (@NoDup_app_disjoint _ l1 (y :: l2) x Hnd Hx1).
  destruct (Nat.eq_dec q (List.length (filter f (List.rev l2)))) as [-> | Hne].
  - rewrite nth_error_app2, Nat.sub_diag in Hq by lia. left. simpl in Hq.
    congruence.
  - rewrite nth_error_app1 in Hq by lia. right.
    apply nth_error_In in Hq. apply filter_In in Hq as [Hq _].
    now apply in_rev in Hq.
Qed.

(** ** Compiling sums and products of objects *)

Lemma mul_create (S T : Selection) :
  Object.__mul__ (Object.create S) (PyObject (Object.create T)) =
  ret (mkObject
         [(true_selector, computed_selection (groups_mul S T) true_selector);
          (false_selector,
           computed_selection (groups_mul S T) false_selector)]).
Proof.
  unfold Object.__mul__.
  erewrite (compose_result (K := Selector) (K' := Selector));
    [| reflexivity | reflexivity].
  reflexivity.
Qed.

Lemma add_create (S T : Selection) :
  Object.__add__ (Object.create S) (PyObject (Object.create T)) =
  ret (mkObject
         [(true_selector, computed_selection (groups_add S T) true_selector);
          (false_selector,
           computed_selection (groups_add S T) false_selector)]).
Proof.
  unfold Object.__add__.
  erewrite (compose_result (K := Selector) (K' := Selector));
    [| reflexivity | reflexivity].
  reflexivity.
Qed.

Lemma root_node_two (St Sf : Selection) :
  root_node (mkObject [(true_selector, St); (false_selector, Sf)]) =
  let selection := computed_selection (groups_bool St Sf) true in
  if Selection.inverted selection then raise inverted_root
  else if Selection.void selection then raise void_root
  else Selection.node selection.
Proof.
  unfold root_node.
  erewrite (compose_result (K := Selector) (K' := bool));
    [| reflexivity | reflexivity].
  reflexivity.
Qed.

(** The selection that [compile_scad] composes from a true-key selection
    that is neither void nor inverted, and from one that is inverted. *)
Lemma truthy_selection_plain (St Sf : Selection) (n : Node) :
  Selection.void St = false -> Selection.inverted St = false ->
  Selection.node St = ret n ->
  computed_selection (groups_bool St Sf) true =
  Selection.invert (Selection.invert (Selection.create n)).
Proof.
  intros Hv Hi Hn.
  unfold computed_selection, Object.compute_selection. simpl.
  unfold Object.combine. simpl.
  unfold Selection.intersect at 1. simpl. rewrite Hi, Hv, Hn. reflexivity.
Qed.

Lemma truthy_selection_inverted (St Sf : Selection) (n : Node) :
  Selection.void St = false -> Selection.inverted St = true ->
  Selection.node St = ret n ->
  computed_selection (groups_bool St Sf) true =
  Selection.invert (Selection.create n).
Proof.
  intros Hv Hi Hn.
  unfold computed_selection, Object.compute_selection. simpl.
  unfold Object.combine. simpl.
  unfold Selection.intersect at 1. simpl. rewrite Hi, Hv, Hn. reflexivity.
Qed.

Lemma create_two (S : Selection) :
  Object.create S = mkObject [(true_selector, S);
                       (false_selector, Selection.invert S)].
Proof. reflexivity. Qed.

Lemma root_node_plain (St Sf : Selection) (n : Node) :
  Selection.void St = false -> Selection.inverted St = false ->
  Selection.node St = ret n ->
  root_node (mkObject [(true_selector, St); (false_selector, Sf)]) = ret n.
Proof.
  intros Hv Hi Hn.
  now rewrite root_node_two, (@truthy_selection_plain St Sf n Hv Hi Hn).
Qed.

Lemma root_node_inverted (St Sf : Selection) :
  Selection.void St = false -> Selection.inverted St = true ->
  root_node (mkObject [(true_selector, St); (false_selector, Sf)]) =
  raise inverted_root.
Proof.
  intros Hv Hi. destruct (node_of_non_void St Hv) as [n Hn].
  now rewrite root_node_two, (@truthy_selection_inverted St Sf n Hv Hi Hn).
Qed.

Lemma mul_complement_true (A : Selection) (n : Node) :
  Selection.void A = false -> Selection.inverted A = false ->
  Selection.node A = ret n ->
  computed_selection (groups_mul A (Selection.invert A)) true_selector =
  Selection.invert (Selection.invert (Selection.create (Node.minus n n))).
Proof.
  intros Hv Hi Hn.
  unfold computed_selection, Object.compute_selection. simpl.
  unfold Object.combine. simpl.
  unfold Selection.intersect at 1. simpl. rewrite Hi, Hv, Hn. reflexivity.
Qed.

Lemma add_self_true_plain (A : Selection) (n : Node) :
  Selection.void A = false -> Selection.inverted A = false ->
  Selection.node A = ret n ->
  computed_selection (groups_add A A) true_selector =
  Selection.invert (Selection.invert
    (Selection.create (CompositeNode "union()" [n; n]))).
Proof.
  intros Hv Hi Hn.
  unfold computed_selection, Object.compute_selection. simpl.
  unfold Object.combine. simpl.
  unfold Selection.intersect at 1. simpl. rewrite Hi, Hv, Hn. reflexivity.
Qed.

Lemma add_self_true_inverted (A : Selection) (n : Node) :
  Selection.void A = false -> Selection.inverted A = true ->
  Selection.node A = ret n ->
  computed_selection (groups_add A A) true_selector =
  Selection.invert (Selection.invert (Selection.invert
    (Selection.create (CompositeNode "intersection()" [n; n])))).
Proof.
  intros Hv Hi Hn.
  unfold computed_selection, Object.compute_selection. simpl.
  unfold Object.combine. simpl.
  unfold Selection.intersect at 1. simpl. rewrite Hi, Hv, Hn. reflexivity.
Qed.

Lemma compile_scad_root {K} `{Hashable K} `{Truthy K} (object : Object K)
      (n : Node) :
  root_node object = ret n -> compile_scad object = emit n.
Proof. intros Hr. unfold compile_scad. now rewrite Hr. Qed.

Lemma compile_scad_raise {K} `{Hashable K} `{Truthy K} (object : Object K)
      (e : Exception) :
  root_node object = raise e -> compile_scad object = raise e.
Proof. intros Hr. unfold compile_scad. now rewrite Hr. Qed.

Lemma emit_succeeds (root : Node) :
  well_formed root = true -> exists lines, emit root = ret lines.
Proof.
  intros Hwf. destruct (emit_total root Hwf) as (main & bodies & _ & _ & ->).
  eauto.
Qed.

(** C1 (as stated, refuted).  For the cube, the true-key selection of
    [create A * create (invert A)] is not void, and [compile_scad] emits
    the difference of the cube with itself instead of raising. *)
Lemma complement_intersection_compiles :
  exists object,
    Object.__mul__ (Object.create (cube_selection))
                   (PyObject (Object.create (Selection.invert
                                        (cube_selection))))
      = ret object /\
    Selection.void (Object.get_selection object true_selector) = false /\
    compile_scad object =
      ret ["difference() {"; (tab ++ "node_1();")%string;
           (tab ++ "node_1();")%string; "}";
           ""; "module node_1()"; (tab ++ "cube();")%string].
Proof.
  eexists. split; [reflexivity|]. split; reflexivity.
Qed.

(** C1 (amended).  For a selection [A] that is neither void nor inverted,
    with node [n], the true-key selection of [create A * create (invert A)]
    is the doubly inverted selection of [difference() {n; n}], which is
    not void; [compile_scad] takes that difference as its root, does not
    raise the error of a void root and, when [n] is well formed, returns
    lines. *)
Theorem complement_intersection_not_void (A : Selection) :
  Selection.void A = false -> Selection.inverted A = false ->
  exists n object,
    Selection.node A = ret n /\
    Object.__mul__ (Object.create A)
                   (PyObject (Object.create (Selection.invert A)))
      = ret object /\
    Object.get_selection object true_selector =
      Selection.invert (Selection.invert
        (Selection.create (CompositeNode "difference()" [n; n]))) /\
    Selection.void (Object.get_selection object true_selector) = false /\
    root_node object = ret (CompositeNode "difference()" [n; n]) /\
    compile_scad object = emit (CompositeNode "difference()" [n; n]) /\
    compile_scad object <> raise void_root /\
    (well_formed n = true ->
     exists lines, compile_scad object = ret lines).
Proof.
  intros Hv Hi. destruct (node_of_non_void A Hv) as [n Hn].
  exists n. eexists. split; [exact Hn|]. split; [apply mul_create|].
  assert (Htrue : Object.get_selection
            (mkObject
               [(true_selector,
                 computed_selection (groups_mul A (Selection.invert A))
                                    true_selector);
                (false_selector,
                 computed_selection (groups_mul A (Selection.invert A))
                                    false_selector)]) true_selector =
          Selection.invert (Selection.invert
            (Selection.create (CompositeNode "difference()" [n; n])))).
  { unfold Object.get_selection. simpl.
    now rewrite (@mul_complement_true A n Hv Hi Hn). }
  assert (Hroot : root_node
            (mkObject
               [(true_selector,
                 computed_selection (groups_mul A (Selection.invert A))
                                    true_selector);
                (false_selector,
                 computed_selection (groups_mul A (Selection.invert A))
                                    false_selector)]) =
          ret (CompositeNode "difference()" [n; n])).
  { apply root_node_plain;
      now rewrite (@mul_complement_true A n Hv Hi Hn). }
  split; [exact Htrue|]. split; [now rewrite Htrue|].
  split; [exact Hroot|]. split; [exact (compile_scad_root _ Hroot)|].
  split.
  { rewrite (compile_scad_root _ Hroot).
    destruct (emit_renders (CompositeNode "difference()" [n; n]))
      as [[lines ->] | ->]; discriminate. }
  intros Hwf. rewrite (compile_scad_root _ Hroot). apply emit_succeeds.
  apply well_formed_composite. split; [discriminate|].
  repeat constructor; assumption.
Qed.

Lemma complement_intersection_not_void_witness :
  exists n object,
    Selection.node (cube_selection) = ret n /\
    Object.__mul__ cube
                   (PyObject (Object.create (Selection.invert
                                        (cube_selection))))
      = ret object /\
    root_node object = ret (CompositeNode "difference()" [n; n]).
Proof.
  destruct (complement_intersection_not_void (cube_selection)
              eq_refl eq_refl)
    as (n & object & Hn & Hmul & _ & _ & Hroot & _).
  exists n, object. auto.
Defined.

(** ** Names of the modules *)

Lemma str_of_nat_inj (a b : nat) : str_of_nat a = str_of_nat b -> a = b.
Proof.
  unfold str_of_nat. intros E.
  apply Unsigned.to_uint_inj.
  assert (Hnil : forall n, Nat.to_uint n <> Nil).
  { intros n Hn. pose proof (Unsigned.to_of (Nat.to_uint n)) as Hu.
    rewrite Unsigned.of_to, Hn in Hu. simpl in Hu.
    pose proof (Unsigned.of_to n) as Ho. rewrite Hn in Ho. simpl in Ho.
    subst n. discriminate. }
  pose proof (NilZero.usu (Nat.to_uint a) (Hnil a)) as Ha.
  pose proof (NilZero.usu (Nat.to_uint b) (Hnil b)) as Hb.
  rewrite E in Ha. congruence.
Qed.

Lemma module_name_inj (j k : nat) : module_name j = module_name k -> j = k.
Proof.
  unfold module_name. intros E. injection E as E.
  apply str_of_nat_inj in E. lia.
Qed.

Lemma NoDup_map_eq {A B} (f : A -> B) (l : list A) (a b : A) :
  NoDup (map f l) -> In a l -> In b l -> f a = f b -> a = b.
Proof.
  induction l as [| c l IH]; simpl; intros Hnd Ha Hb E; [destruct Ha|].
  inversion Hnd as [| ? ? Hc Hrest]; subst.
  destruct Ha as [-> | Ha], Hb as [-> | Hb]; auto.
  - exfalso. apply Hc. rewrite E. now apply in_map.
  - exfalso. apply Hc. rewrite <- E. now apply in_map.
Qed.

(** ** Reused nodes *)

Lemma walk_reused_visited (root : Node) (x : Node) :
  In x (reused_nodes (walk_nodes root walk_start)) ->
  In x (nodes_list (walk_nodes root walk_start)).
Proof.
  destruct (walk_nodes_ok root (walk_start_pre (size root))) as [new Hok].
  destruct Hok as [O1 O2 O3 O4 O5 O6 O7 O8 O9 O10]. simpl in *.
  intros Hx. apply O10 in Hx. rewrite O1.
  assert (Hc : 1 <= calls x [root] new)
    by (destruct Hx as [[] | [[[] _] | ?]]; lia).
  apply O9, O2 in Hc. tauto.
Qed.

(** * Further properties *)

(** ** The selector algebra *)

(** X1.  The two selectors form the Boolean algebra of their truth
    values: [__bool__] is one-to-one and turns [+], [*], unary [-] and
    binary [-] into disjunction, conjunction, negation and conjunction
    with the negation. *)
Theorem selector_algebra_is_boolean (a b : Selector) :
  (Selector.__bool__ a = Selector.__bool__ b -> a = b) /\
  Selector.__bool__ (Selector.__add__ a b) =
    Selector.__bool__ a || Selector.__bool__ b /\
  Selector.__bool__ (Selector.__mul__ a b) =
    Selector.__bool__ a && Selector.__bool__ b /\
  Selector.__bool__ (Selector.__neg__ a) = negb (Selector.__bool__ a) /\
  Selector.__bool__ (Selector.__sub__ a b) =
    Selector.__bool__ a && negb (Selector.__bool__ b).
Proof.
  destruct a, b; simpl; repeat split; intros; congruence.
Qed.

Lemma selector_algebra_is_boolean_witness :
  false_selector = false_selector.
Proof.
  apply (proj1 (selector_algebra_is_boolean false_selector false_selector)).
  reflexivity.
Defined.

(** ** [_tally] *)

Section TallyFacts.
Context {K V : Type} `{HashableSpec K}.

Lemma key_eqb_sym (a b : K) : key_eqb a b = key_eqb b a.
Proof.
  destruct (key_eq_dec a b) as [-> | Hne]; [reflexivity|].
  rewrite !key_eqb_neq; auto.
Qed.

Lemma tally_loop_get (tuples : list (K * V)) :
  forall (res : list (K * list V)) (k : K),
    Dict.get k (tally_loop tuples res) =
    match Dict.get k res, values_of k tuples with
    | None, [] => None
    | None, v :: vs => Some (v :: vs)
    | Some l, vs => Some (l ++ vs)
    end.
Proof.
  induction tuples as [| [k0 v0] tuples IH]; intros res k.
  - simpl. destruct (Dict.get k res); [now rewrite app_nil_r | reflexivity].
  - simpl. rewrite IH. unfold values_of. simpl.
    destruct (key_eq_dec k k0) as [-> | Hne].
    + rewrite key_eqb_refl. simpl.
      destruct (Dict.get k0 res) as [l |]; rewrite get_set_same.
      * now rewrite <- app_assoc.
      * reflexivity.
    + rewrite (key_eqb_neq (a := k0) (b := k)) by congruence.
      destruct (Dict.get k0 res) as [l |];
        now rewrite get_set_other by assumption.
Qed.

Lemma filter_filter {A} (f g : A -> bool) (l : list A) :
  filter f (filter g l) = filter (fun x => g x && f x) l.
Proof.
  induction l as [| a l IH]; simpl; [reflexivity|].
  destruct (g a); simpl; [destruct (f a)|]; now rewrite IH.
Qed.

Lemma tally_loop_keys (tuples : list (K * V)) :
  forall res : list (K * list V),
    Dict.keys (tally_loop tuples res) =
    Dict.keys res ++
    filter (fun k => negb (set_mem k (Dict.keys res)))
           (first_occurrences (map fst tuples)).
Proof.
  induction tuples as [| [k0 v0] tuples IH]; intros res.
  - simpl. now rewrite app_nil_r.
  - simpl. rewrite IH.
    assert (Ek : forall l : list V,
               Dict.keys (Dict.set k0 l res) =
               if set_mem k0 (Dict.keys res) then Dict.keys res
               else Dict.keys res ++ [k0]) by (intros; apply keys_set).
    assert (Ekeys : Dict.keys
               match Dict.get k0 res with
               | Some list => Dict.set k0 (list ++ [v0]) res
               | None => Dict.set k0 [v0] res
               end =
             if set_mem k0 (Dict.keys res) then Dict.keys res
             else Dict.keys res ++ [k0])
      by (destruct (Dict.get k0 res); apply Ek).
    rewrite Ekeys. rewrite filter_filter.
    destruct (set_mem k0 (Dict.keys res)) eqn:E0; simpl.
    + f_equal. apply filter_ext. intros k.
      destruct (key_eq_dec k k0) as [-> | Hne].
      * rewrite E0. now rewrite andb_false_r.
      * now rewrite key_eqb_neq.
    + rewrite <- app_assoc. simpl. f_equal. f_equal.
      apply filter_ext. intros k. unfold set_mem.
      rewrite existsb_app. simpl. rewrite orb_false_r, negb_orb.
      apply andb_comm.
Qed.

End TallyFacts.

Lemma tally_spec {K V : Type} `{HashableSpec K} (tuples : list (K * V)) :
  NoDup (Dict.keys (_tally tuples)) /\
  Dict.keys (_tally tuples) = first_occurrences (map fst tuples) /\
  (forall k, In k (map fst tuples) ->
             Dict.get k (_tally tuples) = Some (values_of k tuples)) /\
  (forall k, ~ In k (map fst tuples) -> Dict.get k (_tally tuples) = None).
Proof.
  split; [apply tally_NoDup|]. split; [| split].
  - unfold _tally. rewrite tally_loop_keys. simpl.
    induction (first_occurrences (map fst tuples)) as [| a l IH];
      simpl; [reflexivity | now rewrite IH].
  - intros k Hk. unfold _tally. rewrite tally_loop_get. simpl.
    destruct (values_of k tuples) as [| v vs] eqn:E; [| reflexivity].
    exfalso. apply in_map_iff in Hk as ([k' v] & <- & Hin).
    assert (Hv : In v (values_of (fst (k', v)) tuples)).
    { unfold values_of. apply in_map_iff. exists (k', v). split; [reflexivity|].
      apply filter_In. split; [assumption | apply key_eqb_refl]. }
    rewrite E in Hv. destruct Hv.
  - intros k Hk. unfold _tally. rewrite tally_loop_get. simpl.
    destruct (values_of k tuples) as [| v vs] eqn:E; [reflexivity|].
    exfalso. apply Hk.
    assert (Hv : In v (values_of k tuples)) by (rewrite E; now left).
    unfold values_of in Hv. apply in_map_iff in Hv as ([k' v'] & _ & Hin).
    apply filter_In in Hin as [Hin Ek]. simpl in Ek.
    apply (proj1 (key_eqb_eq k' k)) in Ek. subst k'.
    apply in_map_iff. exists (k, v'). auto.
Qed.

(** X2.  [_tally] returns a dictionary whose keys are the first elements
    of the tuples, each once, in the order of their first occurrence; the
    value of a key is the list of the second elements of its tuples, in
    the order of the tuples; any other key is missing. *)
Theorem tally_groups_by_key {K V : Type} `{HashableSpec K}
        (tuples : list (K * V)) :
  NoDup (Dict.keys (_tally tuples)) /\
  Dict.keys (_tally tuples) = first_occurrences (map fst tuples) /\
  (forall k, In k (map fst tuples) ->
             Dict.get k (_tally tuples) = Some (values_of k tuples)) /\
  (forall k, ~ In k (map fst tuples) -> Dict.get k (_tally tuples) = None).
Proof. apply tally_spec. Qed.

Lemma tally_groups_by_key_witness :
  Dict.get true_selector
           (_tally [(true_selector, 1); (false_selector, 2);
                    (true_selector, 3)]) = Some [1; 3] /\
  Dict.get false_selector (_tally [(true_selector, 1)]) = None.
Proof.
  split.
  - exact (proj1 (proj2 (proj2 (tally_groups_by_key
             [(true_selector, 1); (false_selector, 2); (true_selector, 3)])))
             true_selector (or_introl eq_refl)).
  - apply (proj2 (proj2 (proj2 (tally_groups_by_key
             [(true_selector, 1)])))).
    simpl. intros [H | []]. discriminate H.
Defined.

(** ** [Selection.intersect], [Selection.union] and [Selection.transform] *)

Lemma nodes_of_app (l m : list Selection) :
  nodes_of (l ++ m) = nodes_of l ++ nodes_of m.
Proof. unfold nodes_of. apply flat_map_app. Qed.

Lemma nodes_of_cons (i : Selection) (n : Node) (l : list Selection) :
  Selection.node i = ret n -> nodes_of (i :: l) = n :: nodes_of l.
Proof. intros En. unfold nodes_of. simpl. now rewrite En. Qed.

Lemma collect_by_polarity (l : list Selection) :
  existsb nothing l = false ->
  forall inverted_nodes nodes,
    Selection.collect l inverted_nodes nodes =
    ret (Some (inverted_nodes ++ nodes_of (filter is_cut l),
               nodes ++ nodes_of (filter is_plain l))).
Proof.
  induction l as [| i rest IH]; intros Hno a b.
  - simpl. now rewrite !app_nil_r.
  - simpl in Hno. apply orb_false_iff in Hno as [Hi Hrest].
    cbn [Selection.collect filter]. unfold is_cut at 1, is_plain at 1.
    unfold nothing in Hi.
    destruct (Selection.inverted i) eqn:Ei, (Selection.void i) eqn:Ev;
      simpl in Hi; try discriminate; cbn [negb andb].
    + now apply IH.
    + destruct (node_of_non_void i Ev) as [n En].
      rewrite En. cbn [bind ret]. rewrite IH by assumption.
      rewrite (@nodes_of_cons i n _ En). now rewrite <- app_assoc.
    + destruct (node_of_non_void i Ev) as [n En].
      rewrite En. cbn [bind ret]. rewrite IH by assumption.
      rewrite (@nodes_of_cons i n _ En). now rewrite <- app_assoc.
Qed.

Lemma intersect_assemble (inverted_nodes nodes : list Node) :
  match inverted_nodes with
  | _ :: _ =>
      match nodes with
      | _ :: _ =>
          a <- Node.intersect nodes ;;
          b <- Node.union inverted_nodes ;;
          ret (Selection.create (Node.minus a b))
      | [] =>
          b <- Node.union inverted_nodes ;;
          ret (Selection.invert (Selection.create b))
      end
  | [] =>
      match nodes with
      | _ :: _ => a <- Node.intersect nodes ;; ret (Selection.create a)
      | [] => ret void_selection
      end
  end = assemble inverted_nodes nodes.
Proof. destruct inverted_nodes, nodes; reflexivity. Qed.

Lemma intersect_polarity (L : list Selection) :
  Selection.intersect L =
  if existsb nothing L then ret void_selection
  else assemble (nodes_of (filter is_cut L)) (nodes_of (filter is_plain L)).
Proof.
  destruct (existsb nothing L) eqn:E.
  - apply existsb_exists in E as (x & Hin & Hx).
    unfold nothing in Hx. apply andb_true_iff in Hx as [Hi Hv].
    apply negb_true_iff in Hi.
    exact (intersect_void_operand L x Hin Hi Hv).
  - unfold Selection.intersect. rewrite (collect_by_polarity L E). simpl.
    apply intersect_assemble.
Qed.

(** X3.  [Selection.intersect] depends on its operands through three
    lists only.  If an operand is void and not inverted the result is
    [void_selection].  Otherwise the inverted void operands are ignored and
    the result is built from the nodes of the inverted operands and the
    nodes of the other operands, each list in the order of the operands:
    the intersection of the second minus the union of the first. *)
Theorem intersect_by_polarity (L : list Selection) :
  Selection.intersect L =
  if existsb nothing L then ret void_selection
  else assemble (nodes_of (filter is_cut L)) (nodes_of (filter is_plain L)).
Proof. apply intersect_polarity. Qed.

Lemma assemble_shape (inverted_nodes nodes : list Node) :
  exists s, assemble inverted_nodes nodes = ret s /\
            (s = void_selection /\ inverted_nodes = [] /\ nodes = [] \/
             (exists n, s = NodeSelection n /\ nodes <> []) \/
             (exists n, s = InvertedSelection (NodeSelection n) /\
                        inverted_nodes <> [] /\ nodes = [])).
Proof.
  destruct inverted_nodes as [| a inv], nodes as [| b nodes].
  - exists void_selection. split; [reflexivity|]. left. auto.
  - destruct nodes; simpl; eexists; (split; [reflexivity|]); right; left;
      eexists; (split; [reflexivity | discriminate]).
  - destruct inv; simpl; eexists; (split; [reflexivity|]); right; right;
      eexists; (split; [reflexivity|]); (split; [discriminate | reflexivity]).
  - destruct inv, nodes; simpl; eexists; (split; [reflexivity|]); right; left;
      eexists; (split; [reflexivity | discriminate]).
Qed.

Lemma nodes_of_nil_iff (f : Selection -> bool) (l : list Selection) :
  (forall s, f s = true -> Selection.void s = false) ->
  nodes_of (filter f l) = [] <-> existsb f l = false.
Proof.
  intros Hf. induction l as [| i l IH]; [simpl; tauto|].
  cbn [filter existsb]. destruct (f i) eqn:E; cbn [orb].
  - destruct (node_of_non_void i (Hf i E)) as [n En].
    rewrite (@nodes_of_cons i n _ En). split; discriminate.
  - exact IH.
Qed.

Lemma is_plain_non_void (s : Selection) :
  is_plain s = true -> Selection.void s = false.
Proof.
  unfold is_plain. destruct (Selection.void s); [discriminate | reflexivity].
Qed.

Lemma is_cut_non_void (s : Selection) :
  is_cut s = true -> Selection.void s = false.
Proof.
  unfold is_cut. destruct (Selection.void s); [discriminate | reflexivity].
Qed.

Lemma polarity_cases (l : list Selection) :
  existsb nothing l = false -> existsb is_plain l = false ->
  existsb is_cut l = false -> forallb whole_space l = true.
Proof.
  induction l as [| i l IH]; simpl; [reflexivity|].
  intros H1 H2 H3.
  apply orb_false_iff in H1 as [H1 H1'], H2 as [H2 H2'], H3 as [H3 H3'].
  rewrite IH by assumption. rewrite andb_true_r.
  unfold nothing, is_plain, is_cut, whole_space in *.
  destruct (Selection.inverted i), (Selection.void i); simpl in *; congruence.
Qed.

Lemma whole_space_excludes (l : list Selection) :
  forallb whole_space l = true ->
  existsb nothing l = false /\ existsb is_plain l = false /\
  existsb is_cut l = false.
Proof.
  induction l as [| i l IH]; simpl; [auto|].
  intros H. apply andb_true_iff in H as [Hi Hl].
  destruct (IH Hl) as (-> & -> & ->).
  unfold nothing, is_plain, is_cut, whole_space in *.
  destruct (Selection.inverted i), (Selection.void i); simpl in *;
    try discriminate; auto.
Qed.

Lemma intersect_shape (l : list Selection) :
  exists s, Selection.intersect l = ret s /\ normal_form s.
Proof.
  rewrite intersect_polarity. destruct (existsb nothing l).
  - exists void_selection. split; [reflexivity | now left].
  - destruct (assemble_shape (nodes_of (filter is_cut l))
                             (nodes_of (filter is_plain l)))
      as (s & -> & [(-> & _) | [(n & -> & _) | (n & -> & _)]]);
      eexists; (split; [reflexivity|]); unfold normal_form; eauto.
Qed.

Lemma intersect_flags (L : list Selection) :
  exists s r,
    Selection.intersect L = ret s /\
    Selection.union L = ret (InvertedSelection r) /\
    wrappers s <= 1 /\ wrappers r <= 1 /\
    (Selection.void s = true <->
     existsb nothing L = true \/ forallb whole_space L = true) /\
    (Selection.inverted s = true <->
     existsb nothing L = false /\ existsb is_plain L = false /\
     existsb is_cut L = true).
Proof.
  assert (Hshape : forall l, exists s,
    Selection.intersect l = ret s /\ wrappers s <= 1).
  { intros l. rewrite intersect_polarity. destruct (existsb nothing l).
    - exists void_selection. simpl. auto.
    - destruct (assemble_shape (nodes_of (filter is_cut l))
                               (nodes_of (filter is_plain l)))
        as (s & -> & [(-> & _) | [(n & -> & _) | (n & -> & _)]]);
        eexists; (split; [reflexivity | simpl; lia]). }
  destruct (Hshape (map Selection.invert L)) as (r & Hr & Hwr).
  rewrite intersect_polarity.
  destruct (existsb nothing L) eqn:Eno.
  - exists void_selection, r. split; [reflexivity|].
    split; [unfold Selection.union; now rewrite Hr|].
    split; [simpl; lia|]. split; [assumption|]. simpl. split.
    + split; auto.
    + split; [discriminate | intros (H & _); discriminate].
  - destruct (assemble_shape (nodes_of (filter is_cut L))
                             (nodes_of (filter is_plain L)))
      as (s & Hs & Hcases).
    exists s, r. split; [assumption|].
    split; [unfold Selection.union; now rewrite Hr|].
    pose proof (nodes_of_nil_iff is_plain L is_plain_non_void) as Hp.
    pose proof (nodes_of_nil_iff is_cut L is_cut_non_void) as Hc.
    destruct Hcases as [(-> & E1 & E2) | [(n & -> & E2) | (n & -> & E1 & E2)]].
    + apply Hc in E1. apply Hp in E2.
      split; [simpl; lia|]. split; [assumption|]. simpl. split.
      * split; [intros _; right; now apply polarity_cases | auto].
      * split; [discriminate | intros (_ & _ & H); congruence].
    + split; [simpl; lia|]. split; [assumption|]. simpl.
      assert (Hpl : existsb is_plain L = true).
      { apply not_false_is_true. intros E. apply Hp in E. contradiction. }
      split.
      * split; [discriminate|].
        intros [H | H]; [discriminate|].
        apply whole_space_excludes in H as (_ & H & _). congruence.
      * split; [discriminate | intros (_ & H & _); congruence].
    + apply Hp in E2.
      assert (Hcu : existsb is_cut L = true).
      { apply not_false_is_true. intros E. apply Hc in E. contradiction. }
      split; [simpl; lia|]. split; [assumption|]. simpl. split.
      * split; [discriminate|].
        intros [H | H]; [discriminate|].
        apply whole_space_excludes in H as (_ & _ & H). congruence.
      * split; auto.
Qed.

(** X4.  Whatever the nesting of its operands, the result of
    [Selection.intersect] is [void_selection], a plain node selection or
    one inversion of a node selection, and the result of [Selection.union]
    is one inversion of such a selection.  The intersection is void exactly
    if an operand is void and not inverted or if every operand is an
    inverted void one; it is inverted exactly if no operand is void and not
    inverted, none has a node without being inverted and at least one has a
    node and is inverted. *)
Theorem intersect_normal_form (L : list Selection) :
  exists s r,
    Selection.intersect L = ret s /\
    Selection.union L = ret (InvertedSelection r) /\
    wrappers s <= 1 /\ wrappers r <= 1 /\
    (Selection.void s = true <->
     existsb nothing L = true \/ forallb whole_space L = true) /\
    (Selection.inverted s = true <->
     existsb nothing L = false /\ existsb is_plain L = false /\
     existsb is_cut L = true) /\
    normal_form s /\ normal_form r.
Proof.
  destruct (intersect_flags L) as (s & r & Hs & Hu & Hws & Hwr & Hv & Hi).
  exists s, r. do 6 (split; [assumption|]).
  destruct (intersect_shape L) as (s' & Hs' & Hn).
  rewrite Hs in Hs'. injection Hs' as <-. split; [assumption|].
  destruct (intersect_shape (map Selection.invert L)) as (r' & Hr' & Hn').
  unfold Selection.union in Hu. rewrite Hr' in Hu. cbn [bind ret] in Hu.
  injection Hu as <-. assumption.
Qed.

Lemma intersect_normal_form_witness :
  exists s,
    Selection.intersect
      [Selection.invert (Selection.invert (Selection.invert cube_selection))]
    = ret s /\ Selection.inverted s = true /\ wrappers s <= 1.
Proof.
  destruct (intersect_normal_form
              [Selection.invert (Selection.invert
                                   (Selection.invert cube_selection))])
    as (s & r & Hs & _ & Hw & _ & _ & Hinv & _).
  exists s. split; [exact Hs|]. split; [| exact Hw].
  apply Hinv. repeat split.
Defined.

Lemma observably_equal_flags (f : bool -> bool -> bool) (s s' : Selection) :
  observably_equal s s' ->
  f (Selection.inverted s) (Selection.void s) =
  f (Selection.inverted s') (Selection.void s').
Proof. intros (-> & -> & _). reflexivity. Qed.

Lemma observably_equal_invert (s s' : Selection) :
  observably_equal s s' ->
  observably_equal (Selection.invert s) (Selection.invert s').
Proof. intros (Hv & Hi & Hn). repeat split; simpl; congruence. Qed.

Lemma observably_equal_polarity (L L' : list Selection) :
  Forall2 observably_equal L L' ->
  existsb nothing L = existsb nothing L' /\
  nodes_of (filter is_cut L) = nodes_of (filter is_cut L') /\
  nodes_of (filter is_plain L) = nodes_of (filter is_plain L').
Proof.
  induction 1 as [| s s' L L' Hs HL (IH1 & IH2 & IH3)]; [auto|].
  destruct Hs as (Hv & Hi & Hn).
  assert (E0 : nothing s = nothing s')
    by (unfold nothing; now rewrite Hv, Hi).
  assert (Ec : is_cut s = is_cut s') by (unfold is_cut; now rewrite Hv, Hi).
  assert (Ep : is_plain s = is_plain s')
    by (unfold is_plain; now rewrite Hv, Hi).
  assert (Hcons : forall l l',
             Selection.void s' = false -> nodes_of l = nodes_of l' ->
             nodes_of (s :: l) = nodes_of (s' :: l')).
  { intros l l' Ev El. destruct (node_of_non_void s' Ev) as [n En].
    assert (En' : Selection.node s = ret n) by congruence.
    rewrite (@nodes_of_cons s n _ En'), (@nodes_of_cons s' n _ En).
    congruence. }
  cbn [existsb filter]. rewrite E0, Ec, Ep, IH1. split; [reflexivity|].
  split.
  - destruct (is_cut s') eqn:E; [| assumption].
    apply Hcons; [now apply is_cut_non_void | assumption].
  - destruct (is_plain s') eqn:E; [| assumption].
    apply Hcons; [now apply is_plain_non_void | assumption].
Qed.

(** X5.  [Selection.intersect] and [Selection.union] see their operands
    through the [void], [inverted] and [node] queries only: operands that
    answer these alike give the same result.  In particular an operand may
    be inverted twice without changing the result. *)
Theorem intersect_respects_observations (L L' : list Selection) :
  Forall2 observably_equal L L' ->
  Selection.intersect L = Selection.intersect L' /\
  Selection.union L = Selection.union L'.
Proof.
  assert (Hi : forall l l', Forall2 observably_equal l l' ->
                            Selection.intersect l = Selection.intersect l').
  { intros l l' H. rewrite !intersect_polarity.
    destruct (observably_equal_polarity H) as (-> & -> & ->). reflexivity. }
  intros H. split; [now apply Hi|].
  unfold Selection.union.
  rewrite (Hi (map Selection.invert L) (map Selection.invert L'));
    [reflexivity|].
  induction H; simpl; constructor; auto using observably_equal_invert.
Qed.

Lemma intersect_respects_observations_witness :
  Selection.intersect
    [Selection.invert (Selection.invert cube_selection); void_selection] =
  Selection.intersect [cube_selection; void_selection].
Proof.
  apply (intersect_respects_observations
           (L := [Selection.invert (Selection.invert cube_selection);
                  void_selection])
           (L' := [cube_selection; void_selection])).
  repeat constructor; simpl; reflexivity.
Defined.

(** X6.  [Selection.transform] never fails and keeps the [void] and
    [inverted] answers of the selection.  A void selection is returned as
    it is; for any other selection the node becomes the only child of a
    composite with the given text, under at most one inversion. *)
Theorem transform_keeps_polarity (text : string) (s : Selection) :
  exists s',
    Selection.transform text s = ret s' /\
    Selection.void s' = Selection.void s /\
    Selection.inverted s' = Selection.inverted s /\
    (Selection.void s = true -> s' = s) /\
    (Selection.void s = false ->
     exists n, Selection.node s = ret n /\
               Selection.node s' = ret (CompositeNode text [n]) /\
               wrappers s' <= 1).
Proof.
  unfold Selection.transform. destruct (Selection.void s) eqn:Ev.
  - exists s. repeat split; auto. discriminate.
  - destruct (node_of_non_void s Ev) as [n En]. rewrite En. simpl.
    destruct (Selection.inverted s) eqn:Ei; eexists;
      (split; [reflexivity|]); simpl; repeat split; auto;
      try discriminate; intros _; exists n; repeat split; auto.
Qed.

Lemma transform_keeps_polarity_witness :
  exists s',
    Selection.transform "translate([1, 0, 0])"
                        (Selection.invert cube_selection) = ret s' /\
    Selection.node s' =
      ret (CompositeNode "translate([1, 0, 0])" [cube_node]).
Proof.
  destruct (transform_keeps_polarity "translate([1, 0, 0])"
              (Selection.invert cube_selection))
    as (s' & Hs & _ & _ & _ & Hnode).
  exists s'. split; [exact Hs|].
  destruct (Hnode eq_refl) as (n & Hn & Hn' & _).
  injection Hn as <-. exact Hn'.
Defined.

(** ** The regions of intersections and unions *)

Lemma forallb_over_map {A B} (f : A -> B) (g : B -> bool) (l : list A) :
  forallb g (map f l) = forallb (fun a => g (f a)) l.
Proof. induction l as [| a l IH]; simpl; [reflexivity | now rewrite IH]. Qed.

Lemma existsb_over_map {A B} (f : A -> B) (g : B -> bool) (l : list A) :
  existsb g (map f l) = existsb (fun a => g (f a)) l.
Proof. induction l as [| a l IH]; simpl; [reflexivity | now rewrite IH]. Qed.

Section RegionFacts.
Variable Point : Type.
Variable primitive : string -> Point -> bool.
Variable operator : string -> list (Point -> bool) -> Point -> bool.
Hypothesis operators : boolean_operators operator.

Lemma inside_intersect (nodes : list Node) (n : Node) (p : Point) :
  Node.intersect nodes = ret n ->
  inside primitive operator n p =
  forallb (fun c => inside primitive operator c p) nodes.
Proof.
  intros Hn.
  destruct (Node_intersect_shape _ Hn) as [-> | (a & b & rest & E & ->)].
  - simpl. now rewrite andb_true_r.
  - cbn [inside].
    destruct operators as (_ & Hi & _). rewrite Hi.
    now rewrite forallb_over_map.
Qed.

Lemma inside_union (nodes : list Node) (n : Node) (p : Point) :
  Node.union nodes = ret n ->
  inside primitive operator n p =
  existsb (fun c => inside primitive operator c p) nodes.
Proof.
  intros Hn.
  destruct (Node_union_shape _ Hn) as [-> | (a & b & rest & E & ->)].
  - simpl. now rewrite orb_false_r.
  - cbn [inside].
    destruct operators as (Hu & _ & _). rewrite Hu.
    now rewrite existsb_over_map.
Qed.

Lemma selects_invert (s : Selection) (p : Point) :
  selects primitive operator (Selection.invert s) p =
  negb (selects primitive operator s p).
Proof.
  unfold selects. simpl. destruct (Selection.node s); [reflexivity|].
  now destruct (Selection.inverted s), (inside primitive operator n p).
Qed.

Lemma selects_polarity (L : list Selection) (p : Point) :
  existsb nothing L = false ->
  forallb (fun x => selects primitive operator x p) L =
  forallb (fun c => inside primitive operator c p)
          (nodes_of (filter is_plain L)) &&
  negb (existsb (fun c => inside primitive operator c p)
                (nodes_of (filter is_cut L))).
Proof.
  induction L as [| i L IH]; [reflexivity|].
  cbn [existsb forallb filter]. intros H.
  apply orb_false_iff in H as [Hi HL]. rewrite (IH HL).
  assert (Hsel : selects primitive operator i p =
                 match Selection.node i with
                 | inr n => xorb (Selection.inverted i)
                                 (inside primitive operator n p)
                 | inl _ => Selection.inverted i
                 end) by reflexivity.
  rewrite Hsel. clear Hsel.
  assert (Epl : is_plain i =
                negb (Selection.void i) && negb (Selection.inverted i))
    by reflexivity.
  assert (Ecu : is_cut i = negb (Selection.void i) && Selection.inverted i)
    by reflexivity.
  unfold nothing in Hi. rewrite Epl, Ecu. clear Epl Ecu.
  destruct (Selection.void i) eqn:Ev.
  - rewrite (void_has_no_node i Ev). cbn [negb andb].
    destruct (Selection.inverted i); [reflexivity | discriminate].
  - destruct (node_of_non_void i Ev) as [n En]. rewrite En.
    cbn [negb andb ret].
    destruct (Selection.inverted i) eqn:Ei; cbn [negb andb];
      rewrite (@nodes_of_cons i n _ En); cbn [forallb existsb xorb].
    + destruct (inside primitive operator n p); simpl.
      * now rewrite andb_false_r.
      * reflexivity.
    + destruct (inside primitive operator n p); simpl; reflexivity.
Qed.

Lemma selects_void (s : Selection) (p : Point) :
  Selection.void s = true ->
  selects primitive operator s p = Selection.inverted s.
Proof.
  intros Hv. unfold selects. now rewrite (void_has_no_node s Hv).
Qed.

Lemma selects_create (n : Node) (p : Point) :
  selects primitive operator (Selection.create n) p =
  inside primitive operator n p.
Proof. reflexivity. Qed.

Lemma inside_minus (a b : Node) (p : Point) :
  inside primitive operator (Node.minus a b) p =
  inside primitive operator a p && negb (inside primitive operator b p).
Proof.
  destruct operators as (_ & _ & Hd).
  exact (Hd (inside primitive operator a) (inside primitive operator b) p).
Qed.

Lemma selects_assemble (inverted_nodes nodes : list Node) (s : Selection)
      (p : Point) :
  inverted_nodes <> [] \/ nodes <> [] ->
  assemble inverted_nodes nodes = ret s ->
  selects primitive operator s p =
  forallb (fun c => inside primitive operator c p) nodes &&
  negb (existsb (fun c => inside primitive operator c p) inverted_nodes).
Proof.
  intros Hne. unfold assemble.
  destruct inverted_nodes as [| a inv], nodes as [| b nodes].
  - destruct Hne as [H | H]; now destruct H.
  - destruct (Node.intersect (b :: nodes)) as [e | x] eqn:Ex;
      cbn [bind ret]; [discriminate|].
    intros [= <-]. rewrite selects_create, (inside_intersect _ p Ex).
    cbn [existsb negb]. now rewrite andb_true_r.
  - destruct (Node.union (a :: inv)) as [e | y] eqn:Ey;
      cbn [bind ret]; [discriminate|].
    intros [= <-].
    rewrite selects_invert, selects_create, (inside_union _ p Ey).
    reflexivity.
  - destruct (Node.intersect (b :: nodes)) as [e | x] eqn:Ex;
      cbn [bind ret]; [discriminate|].
    destruct (Node.union (a :: inv)) as [e | y] eqn:Ey;
      cbn [bind ret]; [discriminate|].
    intros [= <-]. rewrite selects_create, inside_minus.
    now rewrite (inside_intersect _ p Ex), (inside_union _ p Ey).
Qed.

Lemma selects_intersect (L : list Selection) (s : Selection) (p : Point) :
  existsb (fun x => negb (whole_space x)) L = true ->
  Selection.intersect L = ret s ->
  selects primitive operator s p =
  forallb (fun x => selects primitive operator x p) L.
Proof.
  intros Hsome. rewrite intersect_polarity.
  destruct (existsb nothing L) eqn:Eno.
  - intros [= <-]. symmetry.
    apply existsb_exists in Eno as (x & Hin & Hx).
    apply not_true_is_false. intros Hall.
    rewrite forallb_forall in Hall. specialize (Hall x Hin).
    unfold nothing in Hx. apply andb_true_iff in Hx as [Hi Hv].
    rewrite (selects_void x p Hv) in Hall.
    rewrite Hall in Hi. discriminate.
  - intros Hs. rewrite (selects_polarity L p Eno).
    apply selects_assemble; [| assumption].
    destruct (existsb is_cut L) eqn:Ec.
    + left. intros E.
      apply (nodes_of_nil_iff is_cut L is_cut_non_void) in E. congruence.
    + destruct (existsb is_plain L) eqn:Ep.
      * right. intros E.
        apply (nodes_of_nil_iff is_plain L is_plain_non_void) in E.
        congruence.
      * exfalso. pose proof (polarity_cases L Eno Ep Ec) as Hall.
        apply existsb_exists in Hsome as (x & Hin & Hx).
        rewrite forallb_forall in Hall. rewrite (Hall x Hin) in Hx.
        discriminate.
Qed.

Lemma selects_some (L : list Selection) (p : Point) :
  negb (forallb (fun x => selects primitive operator (Selection.invert x) p)
                L) =
  existsb (fun x => selects primitive operator x p) L.
Proof.
  induction L as [| x L IH]; [reflexivity|].
  cbn [forallb existsb]. rewrite selects_invert, <- IH.
  now destruct (selects primitive operator x p).
Qed.

End RegionFacts.

(** X7.  Read as regions of space, with a void selection selecting
    nothing, an inverted one the complement, and [union()],
    [intersection()] and [difference()] having their Boolean meaning,
    [Selection.intersect] selects the points that all operands select,
    provided some operand is not the inverted void selection, and
    [Selection.union] selects the points that some operand selects,
    provided some operand is not the plain void selection. *)
Theorem intersect_and_union_select_regions
        (Point : Type) (primitive : string -> Point -> bool)
        (operator : string -> list (Point -> bool) -> Point -> bool)
        (L : list Selection) (p : Point) :
  boolean_operators operator ->
  (existsb (fun x => negb (whole_space x)) L = true ->
   exists s, Selection.intersect L = ret s /\
             selects primitive operator s p =
             forallb (fun x => selects primitive operator x p) L) /\
  (existsb (fun x => negb (nothing x)) L = true ->
   exists s, Selection.union L = ret s /\
             selects primitive operator s p =
             existsb (fun x => selects primitive operator x p) L).
Proof.
  intros Hop. split.
  - intros Hsome. destruct (intersect_total L) as [s Hs].
    exists s. split; [assumption|].
    now apply (selects_intersect primitive Hop L).
  - intros Hsome. unfold Selection.union.
    destruct (intersect_total (map Selection.invert L)) as [r Hr].
    rewrite Hr. cbn [bind ret]. eexists. split; [reflexivity|].
    rewrite selects_invert.
    rewrite (selects_intersect primitive Hop (map Selection.invert L) p);
      [| | assumption].
    + rewrite forallb_over_map. now apply selects_some.
    + rewrite existsb_over_map. exact Hsome.
Qed.

Lemma intersect_and_union_select_regions_witness :
  exists s,
    Selection.intersect [cube_selection; Selection.invert cube_selection] =
    ret s /\
    selects below_three standard_operator s 1 = false.
Proof.
  assert (Hop : boolean_operators (@standard_operator nat))
    by (repeat split).
  destruct (proj1 (@intersect_and_union_select_regions
                     nat below_three standard_operator
                     [cube_selection; Selection.invert cube_selection] 1
                     Hop) eq_refl) as (s & Hs & Hp).
  exists s. split; [exact Hs | exact Hp].
Defined.

(** ** Composition of objects *)

Lemma mapM_pair {A B C} (f : A -> Result B) (g : A -> C) (l : list A) :
  mapM (fun a => b <- f a ;; ret (b, g a)) l =
  (bs <- mapM f l ;; ret (List.combine bs (map g l))).
Proof.
  induction l as [| a l IH]; [reflexivity|].
  cbn [mapM map]. destruct (f a) as [e | b]; cbn [bind ret]; [reflexivity|].
  rewrite IH. destruct (mapM f l) as [e | bs]; reflexivity.
Qed.

Lemma mapM_length {A B} (f : A -> Result B) (l : list A) (bs : list B) :
  mapM f l = ret bs -> List.length bs = List.length l.
Proof.
  revert bs. induction l as [| a l IH]; intros bs; simpl.
  - now intros [= <-].
  - destruct (f a) as [e | b]; simpl; [discriminate|].
    destruct (mapM f l) as [e | bs']; simpl; [discriminate|].
    intros [= <-]. simpl. now rewrite (IH bs').
Qed.

Lemma map_fst_combine {A B} (l : list A) (m : list B) :
  List.length l = List.length m -> map fst (List.combine l m) = l.
Proof.
  revert m. induction l as [| a l IH]; intros [| b m]; simpl;
    try discriminate; [reflexivity|].
  intros [= E]. now rewrite IH.
Qed.

Lemma compose_keys
        {K K' : Type} `{Hashable K} `{HashableSpec K'}
        (operation : list K -> Result K') (objects : list (PyValue K))
        (objs : list (Object K)) :
  Object.assert_objects objects = ret objs ->
  match mapM operation (product (map Object.selectors objs)) with
  | inl e => Object.compose operation objects = raise e
  | inr ks =>
      exists result,
        Object.compose operation objects = ret result /\
        Object.selectors result = first_occurrences ks /\
        NoDup (Object.selectors result)
  end.
Proof.
  intros Ho.
  assert (Hit : Object.iter_selections operation objs =
                (ks <- mapM operation (product (map Object.selectors objs)) ;;
                 ret (List.combine ks
                        (map (fun selectors =>
                                map (fun os => Object.get_selection
                                                 (fst os) (snd os))
                                    (List.combine objs selectors))
                             (product (map Object.selectors objs))))))
    by apply mapM_pair.
  destruct (mapM operation (product (map Object.selectors objs)))
    as [e | ks] eqn:Eks.
  - unfold Object.compose. rewrite Ho. cbn [bind ret]. now rewrite Hit.
  - cbn [bind ret] in Hit.
    eexists. split; [exact (compose_result _ _ Ho Hit)|].
    destruct (tally_spec
                (List.combine ks
                   (map (fun selectors =>
                           map (fun os => Object.get_selection
                                            (fst os) (snd os))
                               (List.combine objs selectors))
                        (product (map Object.selectors objs)))))
      as (Hnd & Hkeys & _).
    assert (Hk : forall (g : K' -> Selection) (l : list K'),
               Object.selectors (mkObject (map (fun i => (i, g i)) l)) = l).
    { intros g l. unfold Object.selectors, Dict.keys. simpl.
      rewrite map_map. simpl. apply map_id. }
    rewrite Hk. split; [| exact Hnd].
    rewrite Hkeys. f_equal. apply map_fst_combine.
    rewrite (mapM_length _ _ Eks). now rewrite length_map.
Qed.

(** X8.  [Object.compose] on objects applies the operation to every
    combination of their selectors, in the order of the cross product.  If
    the operation fails on a combination, [compose] fails with the first
    such error.  Otherwise it returns an object whose selectors are the
    values of the operation, each once, in the order of their first
    occurrence. *)
Theorem compose_selectors
        {K K' : Type} `{Hashable K} `{HashableSpec K'}
        (operation : list K -> Result K') (objects : list (PyValue K))
        (objs : list (Object K)) :
  Object.assert_objects objects = ret objs ->
  match mapM operation (product (map Object.selectors objs)) with
  | inl e => Object.compose operation objects = raise e
  | inr ks =>
      exists result,
        Object.compose operation objects = ret result /\
        Object.selectors result = first_occurrences ks /\
        NoDup (Object.selectors result)
  end.
Proof. apply compose_keys. Qed.

Lemma compose_selectors_witness :
  exists result,
    Object.__neg__ cube = ret result /\
    Object.selectors result = [false_selector; true_selector].
Proof.
  pose proof (compose_selectors (K := Selector) (K' := Selector)
                operator__neg__ [PyObject cube] eq_refl) as H.
  cbv beta iota in H. destruct H as (result & Hr & Hk & _).
  exists result. split; [exact Hr | exact Hk].
Defined.

(** ** A group of one selection *)

(** What [compose] makes of a result selector that a single combination of
    a single object maps to. *)
Lemma combine_single (S : Selection) :
  Object.combine [[S]] =
  ret (if Selection.void S then Selection.invert void_selection
       else match Selection.node S with
            | inr n =>
                if Selection.inverted S
                then Selection.invert (Selection.create n)
                else Selection.invert (Selection.invert (Selection.create n))
            | inl _ => void_selection
            end).
Proof.
  unfold Object.combine. cbn [mapM bind ret].
  unfold Selection.intersect at 1. cbn [Selection.collect].
  destruct (Selection.void S) eqn:Ev.
  - destruct (Selection.inverted S); reflexivity.
  - destruct (node_of_non_void S Ev) as [n En]. rewrite En.
    destruct (Selection.inverted S); reflexivity.
Qed.

Lemma combine_single_observable (S : Selection) :
  Selection.void S = false ->
  exists r, Object.combine [[S]] = ret r /\ observably_equal r S.
Proof.
  intros Ev. rewrite combine_single, Ev.
  destruct (node_of_non_void S Ev) as [n En]. rewrite En.
  destruct (Selection.inverted S) eqn:Ei; eexists;
    (split; [reflexivity|]); repeat split; simpl; congruence.
Qed.

(** ** Compiling an object with the two selectors *)

Lemma computed_selection_bool (St Sf : Selection) :
  computed_selection (groups_bool St Sf) true =
  if Selection.void St then Selection.invert void_selection
  else match Selection.node St with
       | inr n =>
           if Selection.inverted St
           then Selection.invert (Selection.create n)
           else Selection.invert (Selection.invert (Selection.create n))
       | inl _ => void_selection
       end.
Proof.
  unfold computed_selection, Object.compute_selection.
  cbn [Dict.get groups_bool key_eqb bool_Hashable Bool.eqb
       Object.inverse_groups flat_map fst snd List.app List.length Nat.ltb
       Nat.leb].
  now rewrite combine_single.
Qed.

Lemma root_node_bipartite (St Sf : Selection) :
  root_node (mkObject [(true_selector, St); (false_selector, Sf)]) =
  if is_plain St then Selection.node St else raise inverted_root.
Proof.
  rewrite root_node_two. cbv zeta. rewrite computed_selection_bool.
  unfold is_plain.
  destruct (Selection.void St) eqn:Ev; [reflexivity|].
  destruct (node_of_non_void St Ev) as [n En]. rewrite En.
  destruct (Selection.inverted St); reflexivity.
Qed.

(** ** Arithmetic, [union] and [intersect] of objects *)

Lemma product_pairs {A} (l1 l2 : list A) (c : list A) :
  In c (product [l1; l2]) -> exists a b, c = [a; b].
Proof.
  cbn [product]. intros Hc.
  apply in_flat_map in Hc as (a & _ & Hc).
  apply in_map_iff in Hc as (c' & <- & Hc').
  apply in_flat_map in Hc' as (b & _ & Hb).
  destruct Hb as [<- | []]. eauto.
Qed.

Lemma product_singletons {A} (l : list A) (c : list A) :
  In c (product [l]) -> exists a, c = [a].
Proof.
  cbn [product]. intros Hc.
  apply in_flat_map in Hc as (a & _ & [<- | []]). eauto.
Qed.

Lemma compose_total {K K' : Type} `{Hashable K} `{HashableSpec K'}
      (operation : list K -> Result K') (objects : list (PyValue K))
      (objs : list (Object K)) :
  Object.assert_objects objects = ret objs ->
  (forall c, In c (product (map Object.selectors objs)) ->
             exists k, operation c = ret k) ->
  exists result, Object.compose operation objects = ret result.
Proof.
  intros Ho Hop. pose proof (compose_keys operation objects Ho) as Hk.
  destruct (mapM_total operation _ Hop) as (ks & Eks & _).
  rewrite Eks in Hk. destruct Hk as (result & Hr & _). eauto.
Qed.

Lemma arithmetic_total (o1 o2 : Object Selector) :
  (exists r, Object.__add__ o1 (PyObject o2) = ret r) /\
  (exists r, Object.__mul__ o1 (PyObject o2) = ret r) /\
  (exists r, Object.__sub__ o1 (PyObject o2) = ret r) /\
  (exists r, Object.__neg__ o1 = ret r).
Proof.
  repeat split.
  - apply compose_total with (objs := [o1; o2]); [reflexivity|].
    intros c Hc. apply product_pairs in Hc as (a & b & ->).
    simpl. eauto.
  - apply compose_total with (objs := [o1; o2]); [reflexivity|].
    intros c Hc. apply product_pairs in Hc as (a & b & ->).
    simpl. eauto.
  - apply compose_total with (objs := [o1; o2]); [reflexivity|].
    intros c Hc. apply product_pairs in Hc as (a & b & ->).
    simpl. eauto.
  - apply compose_total with (objs := [o1]); [reflexivity|].
    intros c Hc. apply product_singletons in Hc as (a & ->).
    simpl. eauto.
Qed.

(** C9.  [compose] raises the assertion error as soon as one of its
    operands is not an [Object], at any position, whatever the operation
    is and before the operation is applied to any selector, also when the
    operation itself would fail.  So do [+], [*] and [-] of an [Object]
    with a right operand that is not an [Object], and with an [Object] as
    right operand they return an object; the operand of the unary negation
    is the [Object] itself, and the negation returns an object. *)
Theorem arithmetic_requires_objects :
  (forall (K K' : Type) (HK : Hashable K) (HK' : Hashable K')
          (operation : list K -> Result K') (objects : list (PyValue K)),
      Exists (fun v => is_object v = false) objects ->
      Object.compose operation objects = raise AssertionError) /\
  (forall self other,
      is_object other = false ->
      Object.__add__ self other = raise AssertionError /\
      Object.__mul__ self other = raise AssertionError /\
      Object.__sub__ self other = raise AssertionError) /\
  (forall self other,
      is_object other = true ->
      (exists r, Object.__add__ self other = ret r) /\
      (exists r, Object.__mul__ self other = ret r) /\
      (exists r, Object.__sub__ self other = ret r)) /\
  (forall self, exists r, Object.__neg__ self = ret r).
Proof.
  assert (Hc : forall (K K' : Type) (HK : Hashable K) (HK' : Hashable K')
          (operation : list K -> Result K') (objects : list (PyValue K)),
      Exists (fun v => is_object v = false) objects ->
      Object.compose operation objects = raise AssertionError).
  { intros K K' HK HK' operation objects Hex. unfold Object.compose.
    now rewrite (assert_objects_fails Hex). }
  split; [exact Hc|]. split; [| split].
  - intros self other Hother.
    assert (Hex : Exists (fun v => is_object v = false)
                         [PyObject self; other]).
    { right. now left. }
    repeat split; apply Hc; exact Hex.
  - intros self [o | repr] Hother; [| discriminate].
    destruct (arithmetic_total self o) as (Ha & Hm & Hs & _).
    repeat split; assumption.
  - intros self. exact (proj2 (proj2 (proj2 (arithmetic_total self self)))).
Qed.

Lemma arithmetic_requires_objects_witness :
  Object.__add__ (Object.create cube_selection) (PyOther "1")
    = raise AssertionError /\
  Object.compose (fun _ : list Selector => raise (A := Selector) TypeError)
                 [PyOther "1"; PyObject cube]
    = raise AssertionError.
Proof.
  split.
  - apply (proj1 (proj2 arithmetic_requires_objects)). reflexivity.
  - apply (proj1 arithmetic_requires_objects). now left.
Defined.




(** ** Errors of [compile_scad] *)

Lemma root_node_swapped (St Sf : Selection) :
  root_node (mkObject [(false_selector, Sf); (true_selector, St)]) =
  if is_plain St then Selection.node St else raise inverted_root.
Proof.
  assert (Hroot :
    root_node (mkObject [(false_selector, Sf); (true_selector, St)]) =
    let selection :=
      computed_selection [(false, [[Sf]]); (true, [[St]])] true in
    if Selection.inverted selection then raise inverted_root
    else if Selection.void selection then raise void_root
    else Selection.node selection).
  { unfold root_node.
    erewrite (compose_result (K := Selector) (K' := bool));
      [| reflexivity | reflexivity].
    reflexivity. }
  rewrite Hroot. cbv zeta.
  assert (Hsel : computed_selection [(false, [[Sf]]); (true, [[St]])] true =
                 computed_selection (groups_bool St Sf) true).
  { unfold computed_selection, Object.compute_selection. reflexivity. }
  rewrite Hsel, computed_selection_bool. unfold is_plain.
  destruct (Selection.void St) eqn:Ev; [reflexivity|].
  destruct (node_of_non_void St Ev) as [n En]. rewrite En.
  destruct (Selection.inverted St); reflexivity.
Qed.

Lemma compile_of_root {K} `{Hashable K} `{Truthy K} (object : Object K)
      (St : Selection) :
  root_node object =
    (if is_plain St then Selection.node St else raise inverted_root) ->
  compile_scad object =
    (if is_plain St then n <- Selection.node St ;; emit n
     else raise inverted_root) /\
  compile_scad object <> raise void_root.
Proof.
  intros Hr. unfold compile_scad. rewrite Hr.
  destruct (is_plain St) eqn:Ep.
  - split; [reflexivity|].
    destruct (node_of_non_void St (is_plain_non_void St Ep)) as [n ->].
    cbn [bind ret].
    destruct (emit_renders n) as [[lines ->] | ->]; discriminate.
  - split; [reflexivity | discriminate].
Qed.

(** X10.  For an object with the two selectors as keys, in either
    order, [compile_scad] looks at the selection of [true_selector] only.
    If that selection is neither void nor inverted its node is the root
    that is emitted; otherwise the error of an inverted root is raised,
    also when the selection is void: the error of a void root is never
    raised for such an object. *)
Theorem compile_bipartite (St Sf : Selection) :
  let result :=
    if is_plain St then n <- Selection.node St ;; emit n
    else raise inverted_root in
  compile_scad (mkObject [(true_selector, St); (false_selector, Sf)])
    = result /\
  compile_scad (mkObject [(false_selector, Sf); (true_selector, St)])
    = result /\
  result <> raise void_root.
Proof.
  cbv zeta.
  destruct (compile_of_root _ St (root_node_bipartite St Sf)) as [H1 H1'].
  destruct (compile_of_root _ St (root_node_swapped St Sf)) as [H2 _].
  split; [exact H1|]. split; [exact H2|]. now rewrite <- H1.
Qed.

Lemma tally_constant {K V} `{HashableSpec K} (b : K) (tuples : list (K * V)) :
  (forall kv, In kv tuples -> fst kv = b) ->
  forall l, tally_loop tuples [(b, l)] = [(b, l ++ map snd tuples)].
Proof.
  induction tuples as [| [k v] tuples IH]; intros Hb l.
  - simpl. now rewrite app_nil_r.
  - assert (k = b) by (apply (Hb (k, v)); now left). subst k.
    cbn [tally_loop Dict.get Dict.set map snd]. rewrite key_eqb_refl.
    rewrite IH by (intros; apply Hb; now right).
    now rewrite <- app_assoc.
Qed.

Lemma product_single {A} (l : list A) :
  product [l] = map (fun a => [a]) l.
Proof.
  cbn [product]. induction l as [| a l IH]; [reflexivity|].
  cbn [flat_map map List.app]. now f_equal.
Qed.

Lemma root_node_uniform {K} `{Hashable K} `{Truthy K} (object : Object K)
      (b : bool) :
  (forall k, In k (Object.selectors object) -> __bool__ k = b) ->
  root_node object = raise void_root.
Proof.
  intros Hb. unfold root_node.
  set (operation := fun xs : list K =>
                      match xs with
                      | [x] => ret (__bool__ x)
                      | _ => raise TypeError
                      end).
  assert (Hit : Object.iter_selections operation [object] =
                ret (map (fun k => (b, [Object.get_selection object k]))
                         (Object.selectors object))).
  { unfold Object.iter_selections. cbn [map]. rewrite product_single.
    rewrite (mapM_map _ (fun c => (b, map (fun os => Object.get_selection
                                                        (fst os) (snd os))
                                          (List.combine [object] c)))).
    - rewrite map_map. reflexivity.
    - intros c Hc. apply in_map_iff in Hc as (k & <- & Hk).
      unfold operation. now rewrite (Hb k Hk). }
  rewrite (compose_result (K := K) (K' := bool) operation
             [PyObject object] eq_refl Hit).
  cbn [bind ret]. unfold Object.get_selection at 1. cbn [_selections].
  destruct (Object.selectors object) as [| k0 keys] eqn:Ek.
  - reflexivity.
  - cbn [map _tally tally_loop Dict.get Dict.set].
    rewrite tally_constant
      by (intros kv Hkv; apply in_map_iff in Hkv as (k & <- & _);
          reflexivity).
    cbn [Dict.keys map fst Dict.get].
    destruct b.
    + cbn [key_eqb bool_Hashable Bool.eqb].
      unfold computed_selection, Object.compute_selection.
      cbn [Dict.get key_eqb bool_Hashable Bool.eqb Object.inverse_groups
           flat_map fst snd List.app List.length Nat.ltb Nat.leb].
      reflexivity.
    + reflexivity.
Qed.

(** X11.  If all selectors of an object are falsy, or all are truthy,
    [compile_scad] raises the error of a void root, whatever the selections
    are: in the first case no selection is selected, in the second the
    selection is composed as the complement of an empty union. *)
Theorem compile_uniform_object {K} `{Hashable K} `{Truthy K}
        (object : Object K) (b : bool) :
  (forall k, In k (Object.selectors object) -> __bool__ k = b) ->
  compile_scad object = raise void_root.
Proof.
  intros Hb. unfold compile_scad. now rewrite (root_node_uniform object Hb).
Qed.

Lemma compile_uniform_object_witness :
  compile_scad (mkObject [(true_selector, cube_selection)]) = raise void_root.
Proof.
  apply (@compile_uniform_object Selector _ _
           (mkObject [(true_selector, cube_selection)]) true).
  intros k [<- | []]. reflexivity.
Defined.

(** ** Negation, and the union and the intersection of one object *)

Ltac flags_of A :=
  let Ev := fresh "Ev" in
  let Ei := fresh "Ei" in
  let n := fresh "n" in
  let En := fresh "En" in
  destruct (Selection.void A) eqn:Ev;
  [ pose proof (void_has_no_node A Ev) as En
  | destruct (node_of_non_void A Ev) as [n En] ];
  destruct (Selection.inverted A) eqn:Ei.

Lemma negation_object (A : Selection) :
  Object.__neg__ (Object.create A) =
  ret (mkObject
         [(false_selector,
           computed_selection
             [(false_selector, [[A]]);
              (true_selector, [[Selection.invert A]])] false_selector);
          (true_selector,
           computed_selection
             [(false_selector, [[A]]);
              (true_selector, [[Selection.invert A]])] true_selector)]).
Proof.
  unfold Object.__neg__.
  erewrite (compose_result (K := Selector) (K' := Selector));
    [| reflexivity | reflexivity].
  reflexivity.
Qed.

Lemma negation_selections (A : Selection) :
  computed_selection
    [(false_selector, [[A]]); (true_selector, [[Selection.invert A]])]
    false_selector =
  (if Selection.void A then Selection.invert void_selection
   else match Selection.node A with
        | inr n =>
            if Selection.inverted A
            then Selection.invert (Selection.create n)
            else Selection.invert (Selection.invert (Selection.create n))
        | inl _ => void_selection
        end) /\
  computed_selection
    [(false_selector, [[A]]); (true_selector, [[Selection.invert A]])]
    true_selector =
  (if Selection.void A then Selection.invert void_selection
   else match Selection.node A with
        | inr n =>
            if Selection.inverted A
            then Selection.invert (Selection.invert (Selection.create n))
            else Selection.invert (Selection.create n)
        | inl _ => void_selection
        end).
Proof.
  unfold computed_selection, Object.compute_selection.
  cbn [Dict.get key_eqb Selector_Hashable Selector.eqb
       Object.inverse_groups flat_map fst snd List.app List.length Nat.ltb
       Nat.leb].
  rewrite !combine_single. cbn [Selection.void Selection.invert
    Selection.node Selection.inverted].
  split; [reflexivity|].
  destruct (Selection.void A); [reflexivity|].
  destruct (Selection.node A); [reflexivity|].
  now destruct (Selection.inverted A).
Qed.

Lemma compile_plain_congruence (S S' : Selection) :
  is_plain S = is_plain S' ->
  (is_plain S' = true -> Selection.node S = Selection.node S') ->
  (if is_plain S then n <- Selection.node S ;; emit n
   else raise inverted_root) =
  (if is_plain S' then n <- Selection.node S' ;; emit n
   else raise inverted_root).
Proof.
  intros Ep En. rewrite Ep. destruct (is_plain S'); [| reflexivity].
  now rewrite En.
Qed.

(** X12.  The negation of [create A] is an object with the selectors in
    the order [false_selector], [true_selector].  If [A] is not void, its
    selection for [false_selector] answers the queries as [A] does and its
    selection for [true_selector] as [invert A] does; for every [A],
    [compile_scad] gives the same result for the negation as for
    [create (invert A)]. *)
Theorem negation_complements (A : Selection) :
  exists r sf st,
    Object.__neg__ (Object.create A) = ret r /\
    _selections r = [(false_selector, sf); (true_selector, st)] /\
    (Selection.void A = false ->
     observably_equal sf A /\ observably_equal st (Selection.invert A)) /\
    compile_scad r = compile_scad (Object.create (Selection.invert A)).
Proof.
  do 3 eexists. split; [apply negation_object|]. split; [reflexivity|].
  destruct (negation_selections A) as [Hf Ht]. rewrite Hf, Ht. split.
  - intros Ev. rewrite Ev. destruct (node_of_non_void A Ev) as [n En].
    rewrite En. destruct (Selection.inverted A) eqn:Ei;
      repeat split; simpl; rewrite ?Ev, ?Ei, ?En; reflexivity.
  - rewrite (create_two (Selection.invert A)).
    rewrite (proj1 (compile_of_root _ _ (root_node_swapped _ _))).
    rewrite (proj1 (compile_of_root _ _ (root_node_bipartite _ _))).
    apply compile_plain_congruence.
    + unfold is_plain. simpl. flags_of A; rewrite ?En; reflexivity.
    + unfold is_plain. simpl. flags_of A; rewrite ?En; simpl;
        intros; congruence.
Qed.

Lemma negation_complements_witness :
  exists r,
    Object.__neg__ cube = ret r /\
    Selection.inverted (Object.get_selection r true_selector) = true.
Proof.
  destruct (negation_complements cube_selection)
    as (r & sf & st & Hr & Hs & Hobs & _).
  exists r. split; [exact Hr|].
  destruct (Hobs eq_refl) as (_ & _ & Hi & _).
  unfold Object.get_selection. rewrite Hs. simpl. exact Hi.
Defined.

Lemma union_single_object (A : Selection) :
  union [PyObject (Object.create A)] =
  ret (mkObject
         [(true_selector,
           computed_selection (groups_add void_selection A) true_selector);
          (false_selector,
           computed_selection (groups_add void_selection A) false_selector)]).
Proof. unfold union. cbn [reduce]. now rewrite add_create. Qed.

Lemma intersect_single_object (A : Selection) :
  intersect [PyObject (Object.create A)] =
  ret (mkObject
         [(false_selector,
           computed_selection
             [(false_selector,
               [[Selection.invert void_selection; A];
                [Selection.invert void_selection; Selection.invert A];
                [Selection.invert void_selection; Selection.invert A]]);
              (true_selector, [[Selection.invert void_selection; A]])]
             false_selector);
          (true_selector,
           computed_selection
             [(false_selector,
               [[Selection.invert void_selection; A];
                [Selection.invert void_selection; Selection.invert A];
                [Selection.invert void_selection; Selection.invert A]]);
              (true_selector, [[Selection.invert void_selection; A]])]
             true_selector)]).
Proof.
  unfold intersect.
  assert (Hinit : Object.__neg__ (Object.create void_selection) =
                  ret (mkObject
                         [(false_selector, Selection.invert void_selection);
                          (true_selector, Selection.invert void_selection)]))
    by reflexivity.
  rewrite Hinit. cbn [bind ret reduce]. unfold Object.__mul__.
  erewrite (compose_result (K := Selector) (K' := Selector));
    [| reflexivity | reflexivity].
  reflexivity.
Qed.

Ltac evaluate_groups Ev Ei En :=
  unfold computed_selection, Object.compute_selection;
  cbn [Dict.get key_eqb Selector_Hashable Selector.eqb
       Object.inverse_groups flat_map fst snd List.app List.length Nat.ltb
       Nat.leb groups_add groups_mul];
  unfold Object.combine; cbn [mapM bind ret];
  unfold Selection.intersect at 1;
  cbn [Selection.collect Selection.inverted Selection.void Selection.node
       Selection.invert negb];
  rewrite ?Ei, ?Ev, ?En; cbn [negb bind ret raise];
  rewrite ?Ei, ?Ev, ?En; reflexivity.

Lemma union_single_true (A : Selection) :
  computed_selection (groups_add void_selection A) true_selector =
  if Selection.void A
  then Selection.invert (Selection.invert void_selection)
  else match Selection.node A with
       | inr n =>
           if Selection.inverted A
           then Selection.invert (Selection.invert (Selection.invert
                                                      (Selection.create n)))
           else Selection.invert (Selection.invert (Selection.create n))
       | inl _ => void_selection
       end.
Proof. flags_of A; rewrite ?En; evaluate_groups Ev Ei En. Qed.

Lemma intersect_single_true (A : Selection) :
  computed_selection
    [(false_selector,
      [[Selection.invert void_selection; A];
       [Selection.invert void_selection; Selection.invert A];
       [Selection.invert void_selection; Selection.invert A]]);
     (true_selector, [[Selection.invert void_selection; A]])]
    true_selector =
  if Selection.void A then Selection.invert void_selection
  else match Selection.node A with
       | inr n =>
           if Selection.inverted A
           then Selection.invert (Selection.create n)
           else Selection.invert (Selection.invert (Selection.create n))
       | inl _ => void_selection
       end.
Proof. flags_of A; rewrite ?En; evaluate_groups Ev Ei En. Qed.

Lemma plain_of_flags (A s : Selection) :
  s = (if Selection.void A
       then Selection.invert (Selection.invert void_selection)
       else match Selection.node A with
            | inr n =>
                if Selection.inverted A
                then Selection.invert
                       (Selection.invert
                          (Selection.invert (Selection.create n)))
                else Selection.invert (Selection.invert (Selection.create n))
            | inl _ => void_selection
            end) \/
  s = (if Selection.void A then Selection.invert void_selection
       else match Selection.node A with
            | inr n =>
                if Selection.inverted A
                then Selection.invert (Selection.create n)
                else Selection.invert (Selection.invert (Selection.create n))
            | inl _ => void_selection
            end) ->
  is_plain s = is_plain A /\
  (is_plain A = true -> Selection.node s = Selection.node A).
Proof.
  unfold is_plain.
  intros [-> | ->]; flags_of A; rewrite ?En; simpl;
    (split; [reflexivity | intros; try discriminate; congruence]).
Qed.

(** X13.  The union and the intersection of the single object [create A]
    are objects for which [compile_scad] gives the same result as for
    [create A] itself, whatever the selection [A] is. *)
Theorem union_of_one_object (A : Selection) :
  exists u i,
    union [PyObject (Object.create A)] = ret u /\
    intersect [PyObject (Object.create A)] = ret i /\
    compile_scad u = compile_scad (Object.create A) /\
    compile_scad i = compile_scad (Object.create A).
Proof.
  do 2 eexists. split; [apply union_single_object|].
  split; [apply intersect_single_object|].
  rewrite (create_two A).
  rewrite (proj1 (compile_of_root _ _ (root_node_bipartite A _))).
  split.
  - rewrite (proj1 (compile_of_root _ _ (root_node_bipartite _ _))).
    destruct (plain_of_flags A (or_introl (union_single_true A)))
      as [Hp Hn].
    now apply compile_plain_congruence.
  - rewrite (proj1 (compile_of_root _ _ (root_node_swapped _ _))).
    destruct (plain_of_flags A (or_intror (intersect_single_true A)))
      as [Hp Hn].
    now apply compile_plain_congruence.
Qed.

(** ** Objects with the two selectors *)

Ltac compose_bipartite :=
  eexists; split;
  [ eapply (compose_result (K := Selector) (K' := Selector)); reflexivity
  | do 2 eexists; first [ left; reflexivity | right; reflexivity ] ].

Lemma bipartite_arithmetic (o1 o2 : Object Selector) :
  bipartite o1 -> bipartite o2 ->
  (exists r, Object.__add__ o1 (PyObject o2) = ret r /\
             bipartite r) /\
  (exists r, Object.__mul__ o1 (PyObject o2) = ret r /\
             bipartite r) /\
  (exists r, Object.__sub__ o1 (PyObject o2) = ret r /\
             bipartite r) /\
  (exists r, Object.__neg__ o1 = ret r /\ bipartite r).
Proof.
  destruct o1 as [d1], o2 as [d2].
  intros (a1 & b1 & [E1 | E1]) (a2 & b2 & [E2 | E2]);
    simpl in E1, E2; subst d1 d2;
    unfold Object.__add__, Object.__mul__, Object.__sub__, Object.__neg__,
           bipartite;
    repeat split; compose_bipartite.
Qed.

Lemma bipartite_reduce (function : Object Selector -> PyValue Selector ->
                                   Result (Object Selector))
      (objects : list (Object Selector)) :
  (forall o1 o2, bipartite o1 -> bipartite o2 ->
                 exists r, function o1 (PyObject o2) = ret r /\
                           bipartite r) ->
  Forall bipartite objects ->
  forall initial,
    bipartite initial ->
    exists r, reduce function (map (@PyObject Selector) objects) initial
              = ret r /\ bipartite r.
Proof.
  intros Hf. induction 1 as [| o objects Ho Hrest IH]; intros initial Hi.
  - exists initial. auto.
  - cbn [map reduce]. destruct (Hf initial o Hi Ho) as (acc & -> & Hacc).
    cbn [bind ret]. now apply IH.
Qed.

(** X14.  Objects whose selectors are exactly the two selector
    singletons, as [create] makes them, stay so: the sum, the product, the
    difference and the negation of such objects, and the [union] and the
    [intersect] of a sequence of them, are again such objects. *)
Theorem bipartite_objects_closed (objects : list (Object Selector)) :
  Forall bipartite objects ->
  (forall o1 o2,
      In o1 objects -> In o2 objects ->
      (exists r, Object.__add__ o1 (PyObject o2) = ret r /\
                 bipartite r) /\
      (exists r, Object.__mul__ o1 (PyObject o2) = ret r /\
                 bipartite r) /\
      (exists r, Object.__sub__ o1 (PyObject o2) = ret r /\
                 bipartite r) /\
      (exists r, Object.__neg__ o1 = ret r /\ bipartite r)) /\
  (exists r, union (map (@PyObject Selector) objects) = ret r /\
             bipartite r) /\
  (exists r, intersect (map (@PyObject Selector) objects) = ret r /\
             bipartite r) /\
  (forall A, bipartite (Object.create A)).
Proof.
  intros Hall.
  assert (Hcreate : forall A, bipartite (Object.create A)).
  { intros A. exists A, (Selection.invert A). now left. }
  split; [| split; [| split; [| exact Hcreate]]].
  - intros o1 o2 H1 H2. rewrite Forall_forall in Hall.
    apply bipartite_arithmetic; auto.
  - unfold union. apply bipartite_reduce; auto.
    intros o1 o2 H1 H2. now apply bipartite_arithmetic.
  - unfold intersect.
    destruct (bipartite_arithmetic (Hcreate void_selection)
                                   (Hcreate void_selection))
      as (_ & _ & _ & initial & -> & Hinit).
    cbn [bind ret]. apply bipartite_reduce; auto.
    intros o1 o2 H1 H2. now apply bipartite_arithmetic.
Qed.

Lemma bipartite_objects_closed_witness :
  exists r, union [PyObject cube; PyObject cube] = ret r /\ bipartite r.
Proof.
  assert (Hcube : bipartite cube).
  { exists cube_selection, (Selection.invert cube_selection).
    left. reflexivity. }
  assert (Hall : Forall bipartite [cube; cube])
    by (repeat constructor; exact Hcube).
  exact (proj1 (proj2 (bipartite_objects_closed Hall))).
Defined.

(** ** [Object._transform] *)

Section TransformFacts.
Context {K : Type} `{HashableSpec K}.

Lemma transform_transformed (text : string) (s : Selection) :
  Selection.transform text s = ret (transformed text s).
Proof.
  unfold transformed, Selection.transform.
  destruct (Selection.void s) eqn:Ev; [reflexivity|].
  destruct (node_of_non_void s Ev) as [n ->]. simpl.
  now destruct (Selection.inverted s).
Qed.

Lemma get_map_values (f : Selection -> Selection) (k : K)
      (d : list (K * Selection)) :
  Dict.get k (map (fun kv => (fst kv, f (snd kv))) d) =
  option_map f (Dict.get k d).
Proof.
  induction d as [| [k' v] d IH]; simpl; [reflexivity|].
  now destruct (key_eqb k k').
Qed.

Lemma transform_entries (self : Object K) (text : string) :
  NoDup (Object.selectors self) ->
  Object._transform self text =
  ret (mkObject (map (fun kv => (fst kv, transformed text (snd kv)))
                     (_selections self))).
Proof.
  intros Hnd. unfold Object._transform.
  rewrite (mapM_map _ (fun kv => (fst kv, transformed text (snd kv)))).
  - cbn [bind ret]. rewrite of_list_NoDup; [reflexivity|].
    unfold Dict.keys. rewrite map_map. simpl. exact Hnd.
  - intros kv _. now rewrite transform_transformed.
Qed.

End TransformFacts.

(** X15.  [Object._transform], on which [move], [scale] and [rotate]
    rest, never fails on an object with distinct selectors; it keeps the
    selectors and their order, and the selection of every selector of the
    result, present or missing, is the transformed selection of that
    selector in the object. *)
Theorem transform_object {K : Type} `{HashableSpec K}
        (self : Object K) (text : string) :
  NoDup (Object.selectors self) ->
  exists result,
    Object._transform self text = ret result /\
    Object.selectors result = Object.selectors self /\
    forall selector,
      Selection.transform text (Object.get_selection self selector) =
      ret (Object.get_selection result selector).
Proof.
  intros Hnd. eexists. split; [exact (transform_entries self text Hnd)|].
  split.
  - unfold Object.selectors, Dict.keys. cbn [_selections].
    now rewrite map_map.
  - intros k. unfold Object.get_selection. cbn [_selections].
    rewrite get_map_values.
    destruct (Dict.get k (_selections self)) as [s |]; cbn [option_map].
    + apply transform_transformed.
    + reflexivity.
Qed.

Lemma transform_object_witness :
  exists result,
    Object._transform cube "scale([2, 2, 2])" = ret result /\
    Object.selectors result = [true_selector; false_selector].
Proof.
  destruct (@transform_object Selector _ _ cube "scale([2, 2, 2])")
    as (result & Hr & Hk & _).
  - repeat constructor; simpl; intuition discriminate.
  - exists result. split; [exact Hr | exact Hk].
Defined.

(** ** Modules stand for repeated structures only *)

Lemma occurrences_unfold (x n : Node) :
  occurrences x n =
  (if key_eqb x n then 1 else 0) + inner_occurrences x n.
Proof.
  unfold inner_occurrences.
  destruct n as [text | text nodes]; simpl; [reflexivity|].
  f_equal. induction nodes as [| c l IH]; simpl; [reflexivity|].
  now rewrite IH.
Qed.

Lemma occurrences_children (x : Node) (l : list Node) :
  list_sum (map (occurrences x) l) =
  count x l + list_sum (map (inner_occurrences x) l).
Proof.
  unfold count. induction l as [| c l IH]; simpl; [reflexivity|].
  rewrite IH, (occurrences_unfold x c).
  destruct (key_eqb x c); simpl; lia.
Qed.

Lemma occurs_in_spec (c p : Node) : occurs_in c p = true <-> subterm p c.
Proof.
  unfold occurs_in. rewrite set_mem_In.
  exact (proj1 (proj2 (proj2 (walk_result c))) p).
Qed.

Lemma edges_partition (f : Node -> bool) (x : Node) (L : list Node) :
  edges x L =
  edges x (filter f L) + edges x (filter (fun p => negb (f p)) L).
Proof.
  unfold edges. induction L as [| p L IH]; simpl; [reflexivity|].
  destruct (f p); simpl; lia.
Qed.

Lemma edges_self (x n : Node) (L : list Node) :
  NoDup L ->
  edges x (filter (key_eqb n) L) <= count x (Node.child_nodes n).
Proof.
  unfold edges. induction 1 as [| p L Hp Hnd IH]; simpl; [lia|].
  destruct (key_eqb n p) eqn:E; [| exact IH].
  apply (proj1 (key_eqb_eq n p)) in E. subst p.
  assert (Hnone : filter (key_eqb n) L = []).
  { clear IH Hnd. induction L as [| q L IH]; simpl; [reflexivity|].
    destruct (key_eqb n q) eqn:E.
    - apply (proj1 (key_eqb_eq n q)) in E. subst q.
      exfalso. apply Hp. now left.
    - apply IH. intros Hin. apply Hp. now right. }
  rewrite Hnone. simpl. lia.
Qed.

Lemma edges_children (x : Node) (cs : list Node) :
  Forall (fun c => forall L, NoDup L ->
                   (forall p, In p L -> subterm p c) ->
                   edges x L <= inner_occurrences x c) cs ->
  forall L, NoDup L ->
            (forall p, In p L -> exists c, In c cs /\ subterm p c) ->
            edges x L <= list_sum (map (inner_occurrences x) cs).
Proof.
  induction 1 as [| c cs Hc Hcs IH]; intros L Hnd Hsub.
  - destruct L as [| p L]; [unfold edges; simpl; lia|].
    destruct (Hsub p (or_introl eq_refl)) as (c & [] & _).
  - rewrite (edges_partition (occurs_in c) x L). simpl.
    apply Nat.add_le_mono.
    + apply Hc; [now apply NoDup_filter|].
      intros p Hp. apply filter_In in Hp as [_ Hp].
      now apply occurs_in_spec.
    + apply IH; [now apply NoDup_filter|].
      intros p Hp. apply filter_In in Hp as [Hin Hp].
      destruct (Hsub p Hin) as (d & [<- | Hd] & Hpd).
      * apply occurs_in_spec in Hpd. rewrite Hpd in Hp. discriminate.
      * exists d. split; assumption.
Qed.

Lemma edges_le_occurrences (x n : Node) :
  forall L, NoDup L -> (forall p, In p L -> subterm p n) ->
            edges x L <= inner_occurrences x n.
Proof.
  induction n as [text | text nodes IH] using Node_induction;
    intros L Hnd Hsub.
  - assert (E : edges x L = 0).
    { unfold edges. clear Hnd. induction L as [| p L IHL]; [reflexivity|].
      simpl. rewrite IHL by (intros q Hq; apply Hsub; now right).
      pose proof (Hsub p (or_introl eq_refl)) as Hp.
      inversion Hp. reflexivity. }
    lia.
  - rewrite (edges_partition (key_eqb (CompositeNode text nodes)) x L).
    unfold inner_occurrences at 1. cbn [Node.child_nodes].
    rewrite occurrences_children.
    apply Nat.add_le_mono.
    + exact (edges_self x (CompositeNode text nodes) Hnd).
    + apply (@edges_children x nodes IH); [now apply NoDup_filter|].
      intros p Hp. apply filter_In in Hp as [Hin Hp].
      pose proof (Hsub p Hin) as Hs.
      inversion Hs as [E | t l c Hc Hpc E].
      * subst p. rewrite key_eqb_refl in Hp. discriminate.
      * exists c. split; assumption.
Qed.

Lemma calls_le_occurrences (x root : Node) :
  calls x [root] (nodes_list (walk_nodes root walk_start)) <=
  occurrences x root.
Proof.
  destruct (walk_result root) as (Hnd & _ & Hin & _).
  unfold calls. rewrite count_single, occurrences_unfold.
  apply Nat.add_le_mono_l.
  apply edges_le_occurrences; [assumption|].
  intros p Hp. now apply Hin.
Qed.

Lemma size_subterm (x y : Node) : subterm x y -> size x <= size y.
Proof.
  induction 1 as [| text nodes c Hc Hs IH]; [lia|].
  pose proof (size_child text nodes c Hc). lia.
Qed.

Lemma occurrences_larger (x n : Node) : size n < size x -> occurrences x n = 0.
Proof.
  induction n as [text | text nodes IH] using Node_induction; intros Hlt.
  - rewrite occurrences_unfold. unfold inner_occurrences. simpl.
    rewrite key_eqb_neq; [reflexivity|]. intros ->. lia.
  - rewrite occurrences_unfold.
    rewrite key_eqb_neq by (intros ->; lia).
    unfold inner_occurrences. cbn [Node.child_nodes].
    assert (E : forall c, In c nodes -> occurrences x c = 0).
    { intros c Hc. rewrite Forall_forall in IH. apply (IH c Hc).
      pose proof (size_child text nodes c Hc). lia. }
    clear IH Hlt. induction nodes as [| c l IHl]; [reflexivity|].
    simpl. rewrite (E c (or_introl eq_refl)).
    simpl in IHl |- *. apply IHl. intros d Hd. apply E. now right.
Qed.

Lemma occurrences_root (root : Node) : occurrences root root = 1.
Proof.
  rewrite occurrences_unfold, key_eqb_refl.
  unfold inner_occurrences.
  assert (E : forall c, In c (Node.child_nodes root) ->
                        occurrences root c = 0).
  { intros c Hc. apply occurrences_larger.
    now apply size_child_nodes. }
  induction (Node.child_nodes root) as [| c l IH]; [reflexivity|].
  simpl. rewrite (E c (or_introl eq_refl)).
  simpl in IH |- *. apply IH. intros d Hd. apply E. now right.
Qed.

Lemma module_node_reused (root x : Node) :
  In x (map _node (snd (snd (plan root)))) ->
  2 <= calls x [root] (nodes_list (walk_nodes root walk_start)).
Proof.
  intros Hin. apply in_map_iff in Hin as (m & <- & Hm).
  destruct (plan_module_nodes root m Hm) as [_ Hre].
  destruct (plan_spec root) as (Hst & _).
  cbv zeta in Hst. rewrite Hst in Hre.
  apply set_mem_In in Hre.
  now apply (proj2 (proj2 (proj2 (walk_result root)))).
Qed.

(** X16.  [compile_scad] makes a module only of a structure that stands
    at two or more positions of the tree of the root; in particular the
    root itself is never made a module, and it is its own replacement. *)
Theorem modules_stand_for_repeated_structures (root : Node) :
  (forall x, In x (map _node (snd (snd (plan root)))) ->
             2 <= occurrences x root) /\
  ~ In root (map _node (snd (snd (plan root)))) /\
  Dict.get root (fst (snd (plan root))) = Some root.
Proof.
  assert (Hmod : forall x, In x (map _node (snd (snd (plan root)))) ->
                           2 <= occurrences x root).
  { intros x Hx. pose proof (module_node_reused root x Hx).
    pose proof (calls_le_occurrences x root). lia. }
  assert (Hroot : ~ In root (map _node (snd (snd (plan root))))).
  { intros Hin. apply Hmod in Hin. rewrite occurrences_root in Hin. lia. }
  repeat split; [exact Hmod | exact Hroot |].
  destruct (plan_spec root) as (Hst & _ & Hmap & Hself & _).
  cbv zeta in *. apply Hself; [constructor|].
  destruct (set_mem root (reused_nodes (fst (plan root)))) eqn:E;
    [| reflexivity].
  exfalso. apply Hroot. rewrite Hmap. apply filter_In. split; [| exact E].
  apply -> in_rev. rewrite Hst.
  apply (proj1 (proj2 (proj2 (walk_result root)))). constructor.
Qed.

Lemma modules_stand_for_repeated_structures_witness :
  2 <= occurrences moved_cube shared_example.
Proof.
  apply (proj1 (modules_stand_for_repeated_structures shared_example)).
  vm_compute. now left.
Defined.

(** ** Failure of the rendering *)

Lemma mapM_ret_inv {A B} (f : A -> Result B) (l : list A) (bs : list B) :
  mapM f l = ret bs -> forall a, In a l -> exists b, f a = ret b.
Proof.
  revert bs. induction l as [| a l IH]; intros bs E x Hx; [destruct Hx|].
  simpl in E. destruct (f a) as [e | b] eqn:Ea; [discriminate|].
  simpl in E. destruct (mapM f l) as [e | bs'] eqn:El; [discriminate|].
  destruct Hx as [<- | Hx]; [eauto|]. exact (IH bs' eq_refl x Hx).
Qed.

Lemma iter_lines_children (node_replacements : list (Node * Node))
      (fuel : nat) (text : string) (nodes : list Node) (lines : list string) :
  iter_lines fuel node_replacements (CompositeNode text nodes) = ret lines ->
  nodes <> [] /\
  forall c, In c nodes ->
            exists replacement body,
              Dict.get c node_replacements = Some replacement /\
              iter_lines (pred fuel) node_replacements replacement = ret body.
Proof.
  destruct fuel as [| fuel]; [discriminate|]. cbn [iter_lines pred].
  set (iter_node_lines := fun node : Node =>
    match Dict.get node node_replacements with
    | None => raise KeyError
    | Some replacement =>
        lines <- iter_lines fuel node_replacements replacement ;;
        ret (indent lines)
    end).
  assert (Hone : forall c b, iter_node_lines c = ret b ->
    exists replacement body,
      Dict.get c node_replacements = Some replacement /\
      iter_lines fuel node_replacements replacement = ret body).
  { intros c b. unfold iter_node_lines.
    destruct (Dict.get c node_replacements) as [r |]; [| discriminate].
    destruct (iter_lines fuel node_replacements r) as [e | body] eqn:E;
      [discriminate|]. eauto. }
  destruct nodes as [| first rest]; [discriminate|].
  intros E. split; [discriminate|].
  destruct rest as [| second rest].
  - intros c [<- | []].
    destruct (iter_node_lines first) as [e | b] eqn:Ec;
      [| exact (Hone first b Ec)].
    exfalso. unfold iter_node_lines in Ec. rewrite Ec in E. discriminate.
  - destruct (mapM iter_node_lines (first :: second :: rest))
      as [e | body] eqn:Em.
    + exfalso. discriminate E.
    + intros c Hc. destruct (mapM_ret_inv _ _ Em c Hc) as [b Hb].
      exact (Hone c b Hb).
Qed.

Lemma rendered_well_formed (root : Node)
      (node_replacements : list (Node * Node)) (modules : list _Module)
      (bound : nat) :
  (forall x, subterm x root ->
             Dict.get x node_replacements = Some x \/
             exists m, In m modules /\ _node m = x /\
                       Dict.get x node_replacements =
                       Some (_Module.reference m)) ->
  (forall m, In m modules ->
             exists body,
               iter_lines bound node_replacements (_node m) = ret body) ->
  forall y, subterm y root ->
            forall fuel lines,
              iter_lines fuel node_replacements y = ret lines ->
              well_formed y = true.
Proof.
  intros Hplan Hmods.
  induction y as [text | text nodes IH] using Node_induction;
    intros Hy fuel lines E; [reflexivity|].
  destruct (@iter_lines_children _ _ _ _ _ E) as [Hne Hchildren].
  apply well_formed_composite. split; [assumption|].
  apply Forall_forall. intros c Hc.
  rewrite Forall_forall in IH.
  assert (Hsub : subterm c root).
  { apply (subterm_trans (y := CompositeNode text nodes)); [| assumption].
    exact (subterm_child text nodes Hc (subterm_refl c)). }
  destruct (Hchildren c Hc) as (r & body & Hr & Hbody).
  destruct (Hplan c Hsub) as [Hself | (m & Hm & Hnode & Href)].
  - rewrite Hself in Hr. injection Hr as <-.
    exact (IH c Hc Hsub _ _ Hbody).
  - destruct (Hmods m Hm) as [b Hb]. rewrite Hnode in Hb.
    exact (IH c Hc Hsub _ _ Hb).
Qed.

Lemma emit_well_formed (root : Node) (lines : list string) :
  emit root = ret lines -> well_formed root = true.
Proof.
  unfold emit.
  destruct (plan_spec root) as (Hst & _ & _ & Hself & Hmod).
  cbv zeta in Hself, Hmod.
  destruct (snd (plan root)) as [node_replacements modules] eqn:Eplan.
  cbn [fst snd] in Hself, Hmod.
  destruct (iter_lines (S (height root)) node_replacements root)
    as [e | main] eqn:Emain; [discriminate|].
  cbn [bind].
  destruct (mapM _ modules) as [e | blocks] eqn:Eblocks; [discriminate|].
  intros _.
  apply (@rendered_well_formed root node_replacements modules
           (S (height root))) with (fuel := S (height root)) (lines := main);
    [| | constructor | exact Emain].
  - intros x Hx.
    destruct (set_mem x (reused_nodes (fst (plan root)))) eqn:E.
    + right. exact (Hmod x Hx E).
    + left. exact (Hself x Hx E).
  - intros m Hm. destruct (mapM_ret_inv _ _ Eblocks m Hm) as [b Hb].
    unfold _Module.iter_lines in Hb.
    destruct (iter_lines (S (height root)) node_replacements (_node m))
      as [e | body]; [discriminate|]. eauto.
Qed.

(** X17.  The rendering of [compile_scad] fails exactly when the root
    holds a composite without children, wherever it stands, also inside a
    module: it then fails with the [ValueError] of
    [first, *rest = self._nodes], and otherwise it returns the lines. *)
Theorem rendering_fails_on_childless_composite (root : Node) :
  ((exists lines, emit root = ret lines) <-> well_formed root = true) /\
  (emit root = raise ValueError <-> well_formed root = false).
Proof.
  split; split.
  - intros [lines E]. exact (emit_well_formed root E).
  - apply emit_succeeds.
  - intros E. destruct (well_formed root) eqn:Hwf; [| reflexivity].
    destruct (emit_succeeds root Hwf) as [lines E'].
    rewrite E in E'. discriminate.
  - intros Hwf. destruct (emit_renders root) as [[lines E] | E];
      [| exact E].
    apply emit_well_formed in E. rewrite E in Hwf. discriminate.
Qed.

Lemma rendering_fails_on_childless_composite_witness :
  emit (CompositeNode "union()"
          [CompositeNode "hull()" []; CompositeNode "hull()" []]) =
  raise ValueError.
Proof.
  apply (proj2 (rendering_fails_on_childless_composite
                  (CompositeNode "union()"
                     [CompositeNode "hull()" [];
                      CompositeNode "hull()" []]))).
  reflexivity.
Defined.

(** ** Order of the traversal *)

Lemma walk_root_last (root : Node) :
  exists l, nodes_list (walk_nodes root walk_start) = l ++ [root].
Proof.
  rewrite walk_nodes_unfold. cbn [walk_start nodes_set set_mem existsb].
  cbv zeta. cbn [nodes_list]. eauto.
Qed.

Lemma walk_set_list (root x : Node) :
  In x (nodes_set (walk_nodes root walk_start)) <->
  In x (nodes_list (walk_nodes root walk_start)).
Proof.
  destruct (walk_nodes_ok root (walk_start_pre (size root))) as [new Hok].
  rewrite (ok_set Hok), (ok_list Hok). simpl. tauto.
Qed.

(** X18.  [walk_nodes] lists the structures of the root in post-order:
    the list ends with the root, every structure comes after all the
    structures that occur inside it, [nodes_set] holds the listed
    structures, and every reused structure is listed. *)
Theorem traversal_is_post_order (root : Node) :
  let st := walk_nodes root walk_start in
  (exists l, nodes_list st = l ++ [root]) /\
  (forall l1 y l2 x,
      nodes_list st = l1 ++ y :: l2 -> proper_subterm x y -> In x l1) /\
  (forall x, In x (nodes_set st) <-> In x (nodes_list st)) /\
  (forall x, In x (reused_nodes st) -> In x (nodes_list st)).
Proof.
  cbv zeta. repeat split.
  - apply walk_root_last.
  - intros l1 y l2 x E Hx.
    destruct (walk_result root) as (_ & Hord & _).
    cbv zeta in Hord. rewrite E in Hord.
    exact (@ordered_before l1 l2 x y Hord Hx).
  - apply walk_set_list.
  - apply walk_set_list.
  - apply walk_reused_visited.
Qed.

(** ** Rotations of points and patterns *)

Lemma rotate_step (pt : Z * Z) (n : nat) :
  tetris.rotate pt (Z.of_nat (S n)) =
  tetris.rotate (tetris.rotate pt (Z.of_nat n)) 1.
Proof.
  unfold tetris.rotate. rewrite !Nat2Z.id. reflexivity.
Qed.

Lemma rotate_add (pt : Z * Z) (a b : nat) :
  tetris.rotate (tetris.rotate pt (Z.of_nat a)) (Z.of_nat b) =
  tetris.rotate pt (Z.of_nat (a + b)).
Proof.
  unfold tetris.rotate. rewrite !Nat2Z.id, Nat.add_comm.
  now rewrite Nat.iter_add.
Qed.

Lemma rotate_full_turn (pt : Z * Z) : tetris.rotate pt 4 = pt.
Proof.
  destruct pt as [x y]. unfold tetris.rotate. simpl.
  now rewrite !Z.opp_involutive.
Qed.

Lemma rotate_whole_turns (pt : Z * Z) (q r : nat) :
  tetris.rotate pt (Z.of_nat (4 * q + r)) = tetris.rotate pt (Z.of_nat r).
Proof.
  induction q as [| q IH]; [reflexivity|].
  replace (4 * S q + r) with (4 + (4 * q + r)) by lia.
  rewrite <- rotate_add. change (Z.of_nat 4) with 4%Z.
  now rewrite rotate_full_turn.
Qed.

Lemma rotate_closed_form (pt : Z * Z) (a : Z) :
  tetris.rotate pt a =
  if (a <=? 0)%Z then pt else quarter_turned pt (a mod 4).
Proof.
  destruct (a <=? 0)%Z eqn:Ea.
  - apply Z.leb_le in Ea. unfold tetris.rotate.
    replace (Z.to_nat a) with 0 by lia. reflexivity.
  - apply Z.leb_gt in Ea.
    rewrite <- (Z2Nat.id a) by lia.
    set (n := Z.to_nat a).
    rewrite (Nat.div_mod_eq n 4) at 1. rewrite rotate_whole_turns.
    change 4%Z with (Z.of_nat 4). rewrite <- Nat2Z.inj_mod.
    pose proof (Nat.mod_upper_bound n 4 ltac:(lia)) as Hr.
    destruct pt as [x y].
    destruct (n mod 4) as [| [| [| [| r]]]]; try lia;
      unfold tetris.rotate; simpl; try reflexivity.
    now rewrite Z.opp_involutive.
Qed.

(** X19.  [rotate] turns a point by quarters.  A direction that is not
    positive leaves the point as it is; a positive direction [a] gives the
    point turned by [a mod 4] quarters, that is [(x, y)], [(-y, x)],
    [(-x, -y)] or [(y, -x)].  For directions [a] and [b] that are not
    negative, turning by [a] and then by [b] quarters is turning by [a + b]
    quarters, and four more quarters change nothing. *)
Theorem rotate_composes (pt : Z * Z) (a b : Z) :
  tetris.rotate pt a =
    (if (a <=? 0)%Z then pt else quarter_turned pt (a mod 4)) /\
  ((0 <= a)%Z -> (0 <= b)%Z ->
   tetris.rotate (tetris.rotate pt a) b = tetris.rotate pt (a + b)) /\
  ((0 <= a)%Z -> tetris.rotate pt (a + 4) = tetris.rotate pt a).
Proof.
  split; [apply rotate_closed_form|]. split.
  - intros Ha Hb. rewrite <- (Z2Nat.id a Ha), <- (Z2Nat.id b Hb).
    rewrite rotate_add. now rewrite Nat2Z.inj_add.
  - intros Ha. rewrite <- (Z2Nat.id a Ha). change 4%Z with (Z.of_nat 4).
    rewrite <- Nat2Z.inj_add, <- rotate_add.
    apply rotate_full_turn.
Qed.

Lemma rotate_composes_witness :
  tetris.rotate (3, 2)%Z 5 = (-2, 3)%Z /\
  tetris.rotate (tetris.rotate (3, 2)%Z 1) 2 = tetris.rotate (3, 2)%Z (1 + 2).
Proof.
  split.
  - exact (proj1 (rotate_composes (3, 2)%Z 5 0)).
  - apply (proj1 (proj2 (rotate_composes (3, 2)%Z 1 2))); lia.
Defined.

Lemma traverse_map {A B} (f : A -> tetris.Outcome B) (g : A -> B)
      (l : list A) :
  (forall a, In a l -> f a = inr (g a)) ->
  tetris.traverse f l = inr (map g l).
Proof.
  induction l as [| a l IH]; intros Hf; simpl; [reflexivity|].
  rewrite (Hf a (or_introl eq_refl)). simpl.
  rewrite IH by (intros; apply Hf; now right). reflexivity.
Qed.

Lemma nth_error_range (n k : Z) :
  (0 <= k < n)%Z -> nth_error (tetris.range n) (Z.to_nat k) = Some k.
Proof.
  intros Hk. unfold tetris.range. rewrite nth_error_map.
  rewrite (nth_error_nth' _ 0) by (rewrite length_seq; lia).
  rewrite seq_nth by lia. simpl. f_equal. lia.
Qed.

Lemma range_length (n : Z) : (0 <= n)%Z -> tetris.len (tetris.range n) = n.
Proof.
  intros Hn. unfold tetris.len, tetris.range.
  rewrite length_map, length_seq. lia.
Qed.

Lemma pattern_size_rectangular (pattern : list (list tetris.Tile))
      (size_x size_y : Z) :
  rectangular pattern size_x size_y ->
  tetris.pattern_size pattern = inr (size_x, size_y).
Proof.
  intros (Hx & Hy & Hlen & Hrows).
  destruct pattern as [| first rest];
    [unfold tetris.len in Hlen; simpl in Hlen; lia|].
  unfold tetris.pattern_size.
  assert (Hfirst : tetris.len first = size_x)
    by (inversion Hrows; assumption).
  rewrite Hfirst, Hlen.
  replace (forallb _ (first :: rest)) with true; [reflexivity|].
  symmetry. apply forallb_forall. intros row Hrow.
  rewrite Forall_forall in Hrows. apply Z.eqb_eq. now apply Hrows.
Qed.

Lemma in_bounds_spec (x y size_x size_y : Z) :
  (0 <=? x)%Z && (x <? size_x)%Z && ((0 <=? y)%Z && (y <? size_y)%Z) = true
  <-> (0 <= x < size_x)%Z /\ (0 <= y < size_y)%Z.
Proof.
  rewrite !andb_true_iff, !Z.leb_le, !Z.ltb_lt. tauto.
Qed.

Lemma get_tile_total (pattern : list (list tetris.Tile))
      (size_x size_y : Z) (x y : Z) :
  rectangular pattern size_x size_y -> readable pattern ->
  tetris.get_tile pattern x y = inr (tile pattern x y).
Proof.
  intros Hrect Hread.
  assert (E : exists b, tetris.get_tile pattern x y = inr b).
  { unfold tetris.get_tile.
    rewrite (pattern_size_rectangular Hrect). cbn [tetris.and_then].
    destruct ((0 <=? x)%Z && (x <? size_x)%Z &&
              ((0 <=? y)%Z && (y <? size_y)%Z)) eqn:Hin; [| eauto].
    apply in_bounds_spec in Hin as [Hx Hy].
    destruct Hrect as (_ & _ & Hlen & Hrows).
    unfold tetris.len in Hlen.
    destruct (nth_error pattern (Z.to_nat y)) as [row |] eqn:Erow.
    2:{ apply nth_error_None in Erow. lia. }
    pose proof (nth_error_In _ _ Erow) as Hrow.
    rewrite Forall_forall in Hrows. pose proof (Hrows row Hrow) as Hl.
    unfold tetris.len in Hl.
    destruct (nth_error row (Z.to_nat x)) as [t |] eqn:Et.
    2:{ apply nth_error_None in Et. lia. }
    unfold readable in Hread. rewrite Forall_forall in Hread.
    pose proof (Hread row Hrow) as Hr. rewrite Forall_forall in Hr.
    destruct (Hr t (nth_error_In _ _ Et)) as [v ->]. simpl. eauto. }
  destruct E as [b E]. unfold tile. now rewrite E.
Qed.

Lemma tile_outside (pattern : list (list tetris.Tile))
      (size_x size_y : Z) (x y : Z) :
  rectangular pattern size_x size_y ->
  ~ ((0 <= x < size_x)%Z /\ (0 <= y < size_y)%Z) ->
  tile pattern x y = false.
Proof.
  intros Hrect Hout. unfold tile, tetris.get_tile.
  rewrite (pattern_size_rectangular Hrect). cbn [tetris.and_then].
  destruct ((0 <=? x)%Z && (x <? size_x)%Z &&
            ((0 <=? y)%Z && (y <? size_y)%Z)) eqn:Hin; [| reflexivity].
  apply in_bounds_spec in Hin. contradiction.
Qed.

(** The pattern that one pass of the loop builds. *)
Lemma quarter_turn_rows (pattern : list (list tetris.Tile))
      (size_x size_y : Z) :
  rectangular pattern size_x size_y -> readable pattern ->
  tetris.quarter_turn pattern =
  inr (map (fun iy =>
              map (fun ix =>
                     tetris.BoolTile (tile pattern iy (size_y - ix - 1)))
                  (tetris.range size_y))
           (tetris.range size_x)).
Proof.
  intros Hrect Hread. unfold tetris.quarter_turn.
  rewrite (pattern_size_rectangular Hrect). cbn [tetris.and_then].
  apply traverse_map. intros iy _.
  apply traverse_map. intros ix _.
  now rewrite (get_tile_total _ _ Hrect Hread).
Qed.

Lemma quarter_turn_spec (pattern : list (list tetris.Tile))
      (size_x size_y : Z) :
  rectangular pattern size_x size_y -> readable pattern ->
  exists turned,
    tetris.quarter_turn pattern = inr turned /\
    rectangular turned size_y size_x /\
    readable turned /\
    forall x y, tile turned x y = tile pattern y (size_y - 1 - x).
Proof.
  intros Hrect Hread. eexists.
  split; [exact (quarter_turn_rows Hrect Hread)|].
  pose proof Hrect as (Hx & Hy & _).
  set (turned := map _ (tetris.range size_x)).
  assert (Hturned : rectangular turned size_y size_x).
  { repeat split; try assumption.
    - unfold turned, tetris.len. rewrite length_map.
      apply range_length. lia.
    - apply Forall_forall. intros row Hrow. unfold turned in Hrow.
      apply in_map_iff in Hrow as (iy & <- & _).
      unfold tetris.len. rewrite length_map. apply range_length. lia. }
  assert (Hreadable : readable turned).
  { apply Forall_forall. intros row Hrow. unfold turned in Hrow.
    apply in_map_iff in Hrow as (iy & <- & _).
    apply Forall_forall. intros t Ht.
    apply in_map_iff in Ht as (ix & <- & _). simpl. eauto. }
  split; [assumption|]. split; [assumption|].
  intros x y.
  destruct ((0 <=? x)%Z && (x <? size_y)%Z &&
            ((0 <=? y)%Z && (y <? size_x)%Z)) eqn:Hin.
  2:{ assert (Hout : ~ ((0 <= x < size_y)%Z /\ (0 <= y < size_x)%Z)).
      { intros H. apply in_bounds_spec in H. congruence. }
      rewrite (@tile_outside turned size_y size_x x y Hturned Hout).
      symmetry. apply (@tile_outside pattern size_x size_y); [assumption|].
      lia. }
  apply in_bounds_spec in Hin.
  unfold tile at 1. unfold tetris.get_tile.
  rewrite (pattern_size_rectangular Hturned). cbn [tetris.and_then].
  rewrite (proj2 (in_bounds_spec x y size_y size_x)) by lia.
  unfold turned. rewrite nth_error_map, nth_error_range by lia.
  cbn [option_map]. rewrite nth_error_map, nth_error_range by lia.
  cbn [option_map tetris.int tetris.and_then].
  replace (size_y - x - 1)%Z with (size_y - 1 - x)%Z by lia.
  now destruct (tile pattern y (size_y - 1 - x)).
Qed.

Lemma s_piece_rectangular : rectangular s_piece 3 2.
Proof.
  repeat split; try lia. repeat constructor.
Qed.

Lemma s_piece_readable : readable s_piece.
Proof.
  repeat constructor; simpl; eauto.
Qed.

(** X20.  One quarter turn of a rectangular pattern of readable tiles
    succeeds and swaps the two sizes, and the tile of the pattern at a
    point is the tile of the turned pattern at the point that [rotate]
    turns it to, shifted back by the height less one; outside the
    pattern both are [False]. *)
Theorem rotate_pattern_follows_rotate
        (pattern : list (list tetris.Tile)) (size_x size_y : Z) :
  rectangular pattern size_x size_y -> readable pattern ->
  exists turned,
    tetris.rotate_pattern pattern 1 = inr turned /\
    tetris.pattern_size turned = inr (size_y, size_x) /\
    (forall x y,
        tetris.get_tile turned
          (fst (tetris.rotate (x, y) 1) + (size_y - 1))
          (snd (tetris.rotate (x, y) 1)) =
        tetris.get_tile pattern x y) /\
    (forall x y,
        ~ ((0 <= x < size_x)%Z /\ (0 <= y < size_y)%Z) ->
        tetris.get_tile pattern x y = inr false).
Proof.
  intros Hrect Hread.
  destruct (quarter_turn_spec Hrect Hread)
    as (turned & Hturn & Hrect' & Hread' & Htile).
  exists turned. split; [| split; [| split]].
  - unfold tetris.rotate_pattern. simpl. now rewrite Hturn.
  - exact (pattern_size_rectangular Hrect').
  - intros x y.
    change (tetris.rotate (x, y) 1) with ((- y)%Z, x). cbn [fst snd].
    rewrite (get_tile_total _ _ Hrect' Hread'),
            (get_tile_total _ _ Hrect Hread), Htile.
    do 2 f_equal. lia.
  - intros x y Hout.
    rewrite (get_tile_total x y Hrect Hread).
    now rewrite (@tile_outside pattern size_x size_y x y Hrect Hout).
Qed.

Lemma rotate_pattern_follows_rotate_witness :
  exists turned,
    tetris.rotate_pattern s_piece 1 = inr turned /\
    tetris.pattern_size turned = inr (2, 3)%Z.
Proof.
  destruct (rotate_pattern_follows_rotate
              s_piece_rectangular s_piece_readable)
    as (turned & Hturn & Hsize & _).
  exists turned. split; [exact Hturn | exact Hsize].
Defined.

Lemma repeat_turn_add (a b : nat) :
  forall pattern,
    tetris.repeat_turn (a + b) pattern =
    tetris.and_then (tetris.repeat_turn a pattern) (tetris.repeat_turn b).
Proof.
  induction a as [| a IH]; intros pattern; simpl; [reflexivity|].
  destruct (tetris.quarter_turn pattern) as [e | turned]; simpl;
    [reflexivity | apply IH].
Qed.

Lemma full_turn_spec (pattern : list (list tetris.Tile))
      (size_x size_y : Z) :
  rectangular pattern size_x size_y -> readable pattern ->
  exists turned,
    tetris.repeat_turn 4 pattern = inr turned /\
    rectangular turned size_x size_y /\
    readable turned /\
    forall x y, tile turned x y = tile pattern x y.
Proof.
  intros Hrect Hread.
  destruct (quarter_turn_spec Hrect Hread) as (p1 & E1 & R1 & D1 & T1).
  destruct (quarter_turn_spec R1 D1) as (p2 & E2 & R2 & D2 & T2).
  destruct (quarter_turn_spec R2 D2) as (p3 & E3 & R3 & D3 & T3).
  destruct (quarter_turn_spec R3 D3) as (p4 & E4 & R4 & D4 & T4).
  exists p4. split; [| split; [assumption | split; [assumption |]]].
  - simpl. rewrite E1. simpl. rewrite E2. simpl. rewrite E3. simpl.
    now rewrite E4.
  - intros x y. rewrite T4, T3, T2, T1. f_equal; lia.
Qed.

(** X21.  Four quarter turns of a rectangular pattern of readable tiles
    succeed and give a pattern of the same sizes in which [get_tile]
    finds the same tile at every point. *)
Theorem rotate_pattern_full_turn
        (pattern : list (list tetris.Tile)) (size_x size_y : Z) :
  rectangular pattern size_x size_y -> readable pattern ->
  exists turned,
    tetris.rotate_pattern pattern 4 = inr turned /\
    tetris.pattern_size turned = inr (size_x, size_y) /\
    forall x y,
      tetris.get_tile turned x y = tetris.get_tile pattern x y.
Proof.
  intros Hrect Hread.
  destruct (full_turn_spec Hrect Hread)
    as (turned & Hturn & Hrect' & Hread' & Htile).
  exists turned. split; [exact Hturn | split].
  - exact (pattern_size_rectangular Hrect').
  - intros x y.
    now rewrite (get_tile_total _ _ Hrect' Hread'),
                (get_tile_total _ _ Hrect Hread), Htile.
Qed.

Lemma rotate_pattern_full_turn_witness :
  exists turned,
    tetris.rotate_pattern s_piece 4 = inr turned /\
    tetris.get_tile turned 2 1 = tetris.get_tile s_piece 2 1.
Proof.
  destruct (rotate_pattern_full_turn s_piece_rectangular s_piece_readable)
    as (turned & Hturn & _ & Htile).
  exists turned. split; [exact Hturn | exact (Htile 2%Z 1%Z)].
Defined.

(** X22.  Turning a pattern by [a] and then by [b] quarters is turning
    it by [a + b] quarters, failures included. *)
Theorem rotate_pattern_composes
        (pattern : list (list tetris.Tile)) (a b : Z) :
  (0 <= a)%Z -> (0 <= b)%Z ->
  tetris.rotate_pattern pattern (a + b) =
  tetris.and_then (tetris.rotate_pattern pattern a)
                  (fun turned => tetris.rotate_pattern turned b).
Proof.
  intros Ha Hb. unfold tetris.rotate_pattern.
  rewrite Z2Nat.inj_add by assumption. apply repeat_turn_add.
Qed.

Lemma rotate_pattern_composes_witness :
  tetris.rotate_pattern s_piece (1 + 2) =
  tetris.and_then (tetris.rotate_pattern s_piece 1)
                  (fun turned => tetris.rotate_pattern turned 2).
Proof.
  apply rotate_pattern_composes; lia.
Defined.

Lemma pattern_size_without_columns (pattern : list (list tetris.Tile)) :
  pattern <> [] -> Forall (fun row => row = []) pattern ->
  tetris.pattern_size pattern = inr (0%Z, tetris.len pattern).
Proof.
  intros Hne Hrows. destruct pattern as [| first rest]; [congruence|].
  unfold tetris.pattern_size.
  replace (forallb _ (first :: rest)) with true.
  - inversion Hrows; subst. reflexivity.
  - symmetry. apply forallb_forall. intros row Hrow.
    rewrite Forall_forall in Hrows.
    rewrite (Hrows row Hrow), (Hrows first (or_introl eq_refl)).
    reflexivity.
Qed.

(** X23.  A pattern whose rows are all empty turns into the pattern
    without rows, and [rotate_pattern] fails with [IndexError] when it is
    asked for more than one quarter turn of it, as it does for any
    positive number of turns of the pattern without rows. *)
Theorem rotate_pattern_without_columns
        (pattern : list (list tetris.Tile)) (direction : Z) :
  pattern <> [] -> Forall (fun row => row = []) pattern ->
  (1 <= direction)%Z ->
  tetris.rotate_pattern pattern 1 = inr [] /\
  tetris.rotate_pattern [] direction = inl tetris.IndexError /\
  tetris.rotate_pattern pattern (1 + direction) = inl tetris.IndexError.
Proof.
  intros Hne Hrows Hd.
  assert (Hturn : tetris.quarter_turn pattern = inr []).
  { unfold tetris.quarter_turn.
    now rewrite (pattern_size_without_columns Hne Hrows). }
  assert (Hnone : tetris.rotate_pattern [] direction =
                  inl tetris.IndexError).
  { unfold tetris.rotate_pattern.
    destruct (Z.to_nat direction) as [| n] eqn:E; [lia | reflexivity]. }
  split; [| split; [exact Hnone |]].
  - unfold tetris.rotate_pattern. simpl. now rewrite Hturn.
  - unfold tetris.rotate_pattern in *.
    rewrite Z2Nat.inj_add by lia. rewrite repeat_turn_add.
    simpl. rewrite Hturn. simpl. exact Hnone.
Qed.

Lemma rotate_pattern_without_columns_witness :
  tetris.rotate_pattern [[]; []] (1 + 1) = inl tetris.IndexError.
Proof.
  apply (@rotate_pattern_without_columns [[]; []] 1).
  - discriminate.
  - repeat constructor.
  - lia.
Defined.

(** ** Composition of partitions of the space *)

Lemma product_spec {A} (ls : list (list A)) :
  forall c, In c (product ls) <-> Forall2 (fun l a => In a l) ls c.
Proof.
  induction ls as [| xs rest IH]; intros c; cbn [product].
  - split.
    + intros [<- | []]. constructor.
    + intros Hc. inversion Hc. now left.
  - rewrite in_flat_map. split.
    + intros (x & Hx & Hc). apply in_map_iff in Hc as (c' & <- & Hc').
      constructor; [assumption | now apply IH].
    + intros Hc. inversion Hc as [| l a ls' c' Ha Hrest]; subst.
      exists a. split; [assumption|]. apply in_map. now apply IH.
Qed.

Lemma mapM_Forall2 {A B} (f : A -> Result B) (l : list A) :
  forall bs, mapM f l = ret bs -> Forall2 (fun a b => f a = ret b) l bs.
Proof.
  induction l as [| a l IH]; intros bs E; simpl in E.
  - injection E as <-. constructor.
  - destruct (f a) as [e | b] eqn:Ea; [discriminate|]. simpl in E.
    destruct (mapM f l) as [e | bs'] eqn:El; [discriminate|].
    injection E as <-. constructor; [assumption | now apply IH].
Qed.

Lemma Forall2_In_l {A B} (R : A -> B -> Prop) (l : list A) (m : list B) :
  Forall2 R l m -> forall a, In a l -> exists b, In b m /\ R a b.
Proof.
  induction 1 as [| a b l m Hab _ IH]; intros x Hx; [destruct Hx|].
  destruct Hx as [<- | Hx].
  - exists b. split; [now left | assumption].
  - destruct (IH x Hx) as (y & Hy & Hxy). exists y. split; [now right|].
    assumption.
Qed.

Lemma Forall2_In_r {A B} (R : A -> B -> Prop) (l : list A) (m : list B) :
  Forall2 R l m -> forall b, In b m -> exists a, In a l /\ R a b.
Proof.
  induction 1 as [| a b l m Hab _ IH]; intros y Hy; [destruct Hy|].
  destruct Hy as [<- | Hy].
  - exists a. split; [now left | assumption].
  - destruct (IH y Hy) as (x & Hx & Hxy). exists x. split; [now right|].
    assumption.
Qed.

Section TupleFacts.
Context {K K' : Type} `{Hashable K} `{HashableSpec K'}.

Lemma iter_selections_tuples (operation : list K -> Result K')
      (objs : list (Object K)) (tuples : list (K' * list Selection)) :
  Object.iter_selections operation objs = ret tuples ->
  forall k' g,
    In (k', g) tuples <->
    exists ks, Forall2 (fun o k => In k (Object.selectors o)) objs ks /\
               operation ks = ret k' /\ g = group objs ks.
Proof.
  intros E. unfold Object.iter_selections in E.
  apply mapM_Forall2 in E. intros k' g. split.
  - intros Hin. destruct (Forall2_In_r E _ Hin) as (ks & Hks & Hf).
    exists ks. apply product_spec in Hks.
    split; [| destruct (operation ks) as [e | k0]; [discriminate|];
              injection Hf as <- <-; auto].
    clear - Hks. revert ks Hks.
    induction objs as [| o objs IH]; intros ks Hks; inversion Hks; subst;
      constructor; auto.
  - intros (ks & Hks & Hop & ->).
    assert (Hprod : In ks (product (map Object.selectors objs))).
    { apply product_spec. clear - Hks.
      induction Hks; constructor; auto. }
    destruct (Forall2_In_l E _ Hprod) as (t & Ht & Hf).
    rewrite Hop in Hf. injection Hf as <-. exact Ht.
Qed.

Lemma values_of_In {V} (k : K') (v : V) (tuples : list (K' * V)) :
  In v (values_of k tuples) <-> In (k, v) tuples.
Proof.
  unfold values_of. rewrite in_map_iff. split.
  - intros ([k0 v0] & <- & Hin). apply filter_In in Hin as [Hin E].
    apply (proj1 (key_eqb_eq k0 k)) in E. simpl in E. now subst.
  - intros Hin. exists (k, v). split; [reflexivity|].
    apply filter_In. split; [assumption | apply key_eqb_refl].
Qed.

Lemma tally_get {V} (k : K') (tuples : list (K' * V)) :
  Dict.get k (_tally tuples) =
  match values_of k tuples with
  | [] => None
  | v :: vs => Some (v :: vs)
  end.
Proof. unfold _tally. now rewrite tally_loop_get. Qed.

Lemma get_of_In {V} (k : K') (v : V) (d : list (K' * V)) :
  NoDup (Dict.keys d) -> In (k, v) d -> Dict.get k d = Some v.
Proof.
  induction d as [| [k0 v0] d IH]; intros Hnd Hin; [destruct Hin|].
  simpl in Hnd. inversion Hnd as [| ? ? Hk0 Hnd']; subst.
  simpl. destruct Hin as [[= -> ->] | Hin].
  - now rewrite key_eqb_refl.
  - rewrite key_eqb_neq; [now apply IH|].
    intros ->. apply Hk0. unfold Dict.keys. apply in_map_iff.
    exists (k0, v). auto.
Qed.

Lemma In_of_get {V} (k : K') (v : V) (d : list (K' * V)) :
  Dict.get k d = Some v -> In (k, v) d.
Proof.
  induction d as [| [k0 v0] d IH]; simpl; [discriminate|].
  destruct (key_eqb k k0) eqn:E.
  - apply (proj1 (key_eqb_eq k k0)) in E. subst.
    intros [= ->]. now left.
  - intros Hg. right. now apply IH.
Qed.

Lemma tally_keys_In {V} (k : K') (tuples : list (K' * V)) :
  In k (Dict.keys (_tally tuples)) <-> exists v, In (k, v) tuples.
Proof.
  split.
  - intros Hk. destruct (get_In _ _ Hk) as [vs Hvs].
    rewrite tally_get in Hvs.
    destruct (values_of k tuples) as [| v vs'] eqn:E; [discriminate|].
    exists v. apply values_of_In. rewrite E. now left.
  - intros [v Hv]. apply values_of_In in Hv.
    destruct (Dict.get k (_tally tuples)) as [vs |] eqn:E.
    + apply In_of_get in E. unfold Dict.keys. apply in_map_iff.
      exists (k, vs). auto.
    + rewrite tally_get in E.
      destruct (values_of k tuples); [destruct Hv | discriminate].
Qed.

Lemma inverse_groups_In (tuples : list (K' * list Selection)) (k : K')
      (g : list Selection) :
  In g (Object.inverse_groups (_tally tuples) k) <->
  exists k0, k0 <> k /\ In (k0, g) tuples.
Proof.
  unfold Object.inverse_groups. rewrite in_flat_map. split.
  - intros ([k0 gs] & Hin & Hg). cbn [fst snd] in Hg.
    destruct (key_eqb k0 k) eqn:E; [destruct Hg|].
    exists k0. split.
    + intros ->. rewrite key_eqb_refl in E. discriminate.
    + apply get_of_In in Hin; [| apply tally_NoDup].
      rewrite tally_get in Hin.
      destruct (values_of k0 tuples) as [| v vs] eqn:Ev; [discriminate|].
      injection Hin as <-. apply values_of_In. now rewrite Ev.
  - intros (k0 & Hne & Hin). apply values_of_In in Hin.
    exists (k0, values_of k0 tuples). split.
    + apply In_of_get. rewrite tally_get.
      destruct (values_of k0 tuples); [destruct Hin | reflexivity].
    + cbn [fst snd]. now rewrite (key_eqb_neq Hne).
Qed.

End TupleFacts.

Lemma intersect_sound (L : list Selection) :
  existsb nothing L = false ->
  existsb (fun x => negb (whole_space x)) L = true ->
  exists s, Selection.intersect L = ret s /\ Selection.void s = false.
Proof.
  intros Hno Hsome. rewrite intersect_polarity, Hno.
  destruct (assemble_shape (nodes_of (filter is_cut L))
                           (nodes_of (filter is_plain L)))
    as (s & Hs & Hshape).
  exists s. split; [assumption|].
  destruct Hshape as [(_ & Hc & Hp) | [(n & -> & _) | (n & -> & _)]];
    [| reflexivity | reflexivity].
  exfalso.
  apply (nodes_of_nil_iff is_cut L is_cut_non_void) in Hc.
  apply (nodes_of_nil_iff is_plain L is_plain_non_void) in Hp.
  pose proof (polarity_cases L Hno Hp Hc) as Hall.
  apply existsb_exists in Hsome as (x & Hx & Hw).
  rewrite forallb_forall in Hall. rewrite (Hall x Hx) in Hw. discriminate.
Qed.

Lemma solid_sound (L : list Selection) :
  L <> [] -> (forall s, In s L -> Selection.void s = false) ->
  existsb nothing L = false /\
  existsb (fun x => negb (whole_space x)) L = true.
Proof.
  intros Hne Hsolid. split.
  - apply not_true_is_false. intros E.
    apply existsb_exists in E as (x & Hx & E).
    unfold nothing in E. rewrite (Hsolid x Hx), andb_false_r in E.
    discriminate.
  - destruct L as [| x L]; [congruence|]. cbn [existsb].
    unfold whole_space at 1.
    now rewrite (Hsolid x (or_introl eq_refl)), andb_false_r.
Qed.

Section PartitionFacts.
Variable Point : Type.
Variable primitive : string -> Point -> bool.
Variable operator : string -> list (Point -> bool) -> Point -> bool.
Hypothesis operators : boolean_operators operator.

Lemma selects_intersections (groups : list (list Selection)) :
  (forall g, In g groups ->
             existsb nothing g = false /\
             existsb (fun x => negb (whole_space x)) g = true) ->
  exists gs,
    mapM Selection.intersect groups = ret gs /\
    List.length gs = List.length groups /\
    (forall s, In s gs -> Selection.void s = false) /\
    forall p,
      existsb (fun s => selects primitive operator s p) gs =
      existsb (forallb (fun s => selects primitive operator s p)) groups.
Proof.
  induction groups as [| g groups IH]; intros Hsolid.
  - exists []. repeat split; try reflexivity. intros s [].
  - destruct (Hsolid g (or_introl eq_refl)) as [Hno Hsome].
    destruct (intersect_sound _ Hno Hsome) as (s & Hs & Hv).
    destruct IH as (gs & Hgs & Hlen & Hvoid & Hsel).
    { intros g' Hg'. apply Hsolid. now right. }
    exists (s :: gs). split; [| split; [| split]].
    + cbn [mapM]. rewrite Hs. cbn [bind ret]. rewrite Hgs. reflexivity.
    + simpl. now rewrite Hlen.
    + intros x [<- | Hx]; [assumption | now apply Hvoid].
    + intros p. cbn [existsb]. rewrite Hsel.
      now rewrite (selects_intersect primitive operators g p Hsome Hs).
Qed.

Lemma selects_combine (groups : list (list Selection)) :
  groups <> [] ->
  (forall g, In g groups ->
             existsb nothing g = false /\
             existsb (fun x => negb (whole_space x)) g = true) ->
  exists c,
    Object.combine groups = ret c /\ Selection.void c = false /\
    forall p,
      selects primitive operator c p =
      existsb (forallb (fun s => selects primitive operator s p)) groups.
Proof.
  intros Hne Hsolid. unfold Object.combine.
  destruct (selects_intersections groups Hsolid)
    as (gs & Hgs & Hlen & Hvoid & Hsel).
  rewrite Hgs. cbn [bind ret]. unfold Selection.union.
  assert (Hne' : map Selection.invert gs <> []).
  { destruct gs; [| discriminate].
    destruct groups; [congruence | discriminate]. }
  assert (Hvoid' : forall s, In s (map Selection.invert gs) ->
                             Selection.void s = false).
  { intros s Hs. apply in_map_iff in Hs as (x & <- & Hx).
    exact (Hvoid x Hx). }
  destruct (solid_sound Hne' Hvoid') as [Hno Hsome].
  destruct (intersect_sound _ Hno Hsome) as (r & Hr & Hv).
  rewrite Hr. cbn [bind ret]. eexists. split; [reflexivity|].
  split; [exact Hv|].
  intros p. rewrite selects_invert.
  rewrite (selects_intersect primitive operators _ p Hsome Hr).
  rewrite forallb_over_map, <- Hsel. apply selects_some.
Qed.

End PartitionFacts.

Section ComposePartitions.
Variable Point : Type.
Variable primitive : string -> Point -> bool.
Variable operator : string -> list (Point -> bool) -> Point -> bool.
Hypothesis operators : boolean_operators operator.
Context {K K' : Type} `{Hashable K} `{HashableSpec K'}.

Lemma group_labels (objs : list (Object K)) (ks : list K) (p : Point) :
  Forall2 (fun o k => In k (Object.selectors o)) objs ks ->
  forallb (fun s => selects primitive operator s p) (group objs ks) = true <->
  Forall2 (fun o k => labels primitive operator o p k) objs ks.
Proof.
  induction 1 as [| o k objs ks Hk _ IH]; cbn [group List.combine map forallb].
  - split; [constructor | reflexivity].
  - cbn [fst snd]. rewrite andb_true_iff. fold (group objs ks). rewrite IH.
    split.
    + intros [Hs Hrest]. constructor; [split |]; assumption.
    + intros Hall. inversion Hall as [| ? ? ? ? [_ Hs] Hrest]; subst. auto.
Qed.

Lemma group_solid (objs : list (Object K)) (ks : list K) :
  Forall (partitions primitive operator) objs ->
  Forall2 (fun o k => In k (Object.selectors o)) objs ks ->
  forall s, In s (group objs ks) -> Selection.void s = false.
Proof.
  intros Hparts Hks. induction Hks as [| o k objs ks Hk _ IH];
    intros s Hs; [destruct Hs|].
  inversion Hparts as [| ? ? (_ & Hvoid & _) Hrest]; subst.
  destruct Hs as [<- | Hs]; [now apply Hvoid | now apply IH].
Qed.

Lemma group_non_empty (objs : list (Object K)) (ks : list K) :
  objs <> [] ->
  Forall2 (fun o k => In k (Object.selectors o)) objs ks ->
  group objs ks <> [].
Proof.
  intros Hne Hks. destruct Hks; [congruence | discriminate].
Qed.

Lemma labelling (objs : list (Object K)) (p : Point) :
  Forall (partitions primitive operator) objs ->
  exists ks0,
    Forall2 (fun o k => labels primitive operator o p k) objs ks0 /\
    forall ks,
      Forall2 (fun o k => labels primitive operator o p k) objs ks ->
      ks = ks0.
Proof.
  induction 1 as [| o objs (_ & _ & Ho) _ (ks0 & Hks0 & Huniq)].
  - exists []. split; [constructor|]. intros ks Hks. now inversion Hks.
  - destruct (Ho p) as (k0 & Hk0 & Hone).
    exists (k0 :: ks0). split; [now constructor|].
    intros ks Hks. inversion Hks as [| ? k ? ks' Hk Hrest]; subst.
    now rewrite (Hone k Hk), (Huniq ks' Hrest).
Qed.

Lemma labels_selectors (objs : list (Object K)) (ks : list K) (p : Point) :
  Forall2 (fun o k => labels primitive operator o p k) objs ks ->
  Forall2 (fun o k => In k (Object.selectors o)) objs ks.
Proof.
  induction 1 as [| o k objs ks [Hk _] _ IH]; constructor; assumption.
Qed.

Lemma iter_selections_defined (operation : list K -> Result K')
      (objs : list (Object K)) (tuples : list (K' * list Selection))
      (ks : list K) :
  Object.iter_selections operation objs = ret tuples ->
  Forall2 (fun o k => In k (Object.selectors o)) objs ks ->
  exists k', operation ks = ret k'.
Proof.
  intros E Hks. unfold Object.iter_selections in E.
  apply mapM_Forall2 in E.
  assert (Hprod : In ks (product (map Object.selectors objs))).
  { apply product_spec. clear - Hks. induction Hks; constructor; auto. }
  destruct (Forall2_In_l E _ Hprod) as (t & _ & Hf).
  destruct (operation ks) as [e | k']; [discriminate | eauto].
Qed.

Lemma other_key (l : list K') (k : K') :
  NoDup l -> 2 <= List.length l -> exists k0, In k0 l /\ k0 <> k.
Proof.
  intros Hnd Hlen.
  destruct l as [| a [| b l]]; [simpl in Hlen; lia | simpl in Hlen; lia |].
  destruct (key_eq_dec a k) as [-> | Hne].
  - exists b. split; [right; now left|].
    intros ->. inversion Hnd as [| ? ? Hin _]. apply Hin. now left.
  - exists a. split; [now left | assumption].
Qed.

Lemma computed_selection_labels (operation : list K -> Result K')
      (objs : list (Object K)) (tuples : list (K' * list Selection))
      (k' : K') :
  objs <> [] ->
  Forall (partitions primitive operator) objs ->
  Object.iter_selections operation objs = ret tuples ->
  2 <= List.length (Dict.keys (_tally tuples)) ->
  In k' (Dict.keys (_tally tuples)) ->
  Selection.void (computed_selection (_tally tuples) k') = false /\
  forall p,
    selects primitive operator (computed_selection (_tally tuples) k') p
    = true <->
    exists ks,
      Forall2 (fun o k => labels primitive operator o p k) objs ks /\
      operation ks = ret k'.
Proof.
  intros Hne Hparts Et Hlen Hk'.
  pose proof (iter_selections_tuples _ _ Et) as Htuples.
  assert (Hsolid : forall k0 g,
             In (k0, g) tuples ->
             existsb nothing g = false /\
             existsb (fun x => negb (whole_space x)) g = true).
  { intros k0 g Hin. apply Htuples in Hin as (ks & Hks & _ & ->).
    apply solid_sound; [now apply group_non_empty | now apply group_solid]. }
  assert (Hget : Dict.get k' (_tally tuples) = Some (values_of k' tuples) /\
                 values_of k' tuples <> []).
  { apply tally_keys_In in Hk' as [v Hv]. apply values_of_In in Hv.
    rewrite tally_get.
    destruct (values_of k' tuples) as [| v0 vs]; [destruct Hv|].
    split; [reflexivity | discriminate]. }
  destruct Hget as [Hget Hvals].
  unfold computed_selection, Object.compute_selection. rewrite Hget.
  cbv zeta.
  destruct (List.length (Object.inverse_groups (_tally tuples) k') <?
            List.length (values_of k' tuples))%nat.
  - destruct (selects_combine primitive operators
                (groups := Object.inverse_groups (_tally tuples) k'))
      as (c & Hc & Hv & Hsel).
    + destruct (other_key k' (tally_NoDup tuples) Hlen) as (k0 & Hk0 & Hne0).
      apply tally_keys_In in Hk0 as [g Hg].
      intros E.
      assert (Hin : In g (Object.inverse_groups (_tally tuples) k'))
        by (apply inverse_groups_In; eauto).
      rewrite E in Hin. destruct Hin.
    + intros g Hg. apply inverse_groups_In in Hg as (k0 & _ & Hin).
      exact (Hsolid k0 g Hin).
    + rewrite Hc. cbn [bind ret]. split; [exact Hv|].
      intros p. rewrite selects_invert, Hsel, negb_true_iff.
      destruct (labelling p Hparts) as (ks0 & Hks0 & Huniq).
      destruct (iter_selections_defined _ Et (labels_selectors Hks0))
        as [k0 Hop0].
      split.
      * intros Hnone. exists ks0. split; [assumption|].
        destruct (key_eq_dec k0 k') as [-> | Hne0]; [assumption|].
        exfalso.
        assert (Hex : existsb
                        (forallb (fun s => selects primitive operator s p))
                        (Object.inverse_groups (_tally tuples) k') = true).
        { apply existsb_exists. exists (group objs ks0). split.
          - apply inverse_groups_In. exists k0. split; [assumption|].
            apply Htuples. exists ks0.
            split; [exact (labels_selectors Hks0) | auto].
          - apply group_labels;
              [exact (labels_selectors Hks0) | assumption]. }
        congruence.
      * intros (ks & Hks & Hop). apply not_true_is_false. intros Hex.
        apply existsb_exists in Hex as (g & Hg & Hall).
        apply inverse_groups_In in Hg as (k1 & Hne1 & Hin).
        apply Htuples in Hin as (ks1 & Hks1 & Hop1 & ->).
        apply group_labels in Hall; [| assumption].
        rewrite (Huniq ks1 Hall) in Hop1. rewrite (Huniq ks Hks) in Hop.
        rewrite Hop in Hop1. injection Hop1 as <-. now apply Hne1.
  - destruct (selects_combine primitive operators
                (groups := values_of k' tuples)) as (c & Hc & Hv & Hsel).
    + assumption.
    + intros g Hg. apply values_of_In in Hg. exact (Hsolid k' g Hg).
    + rewrite Hc. split; [exact Hv|].
      intros p. rewrite Hsel, existsb_exists. split.
      * intros (g & Hg & Hall). apply values_of_In in Hg.
        apply Htuples in Hg as (ks & Hks & Hop & ->).
        exists ks. split; [now apply group_labels | assumption].
      * intros (ks & Hks & Hop). exists (group objs ks). split.
        -- apply values_of_In. apply Htuples. exists ks.
           split; [exact (labels_selectors Hks) | auto].
        -- apply group_labels; [exact (labels_selectors Hks) | assumption].
Qed.

Lemma compose_partition (operation : list K -> Result K')
      (objects : list (PyValue K)) (objs : list (Object K))
      (result : Object K') :
  Object.assert_objects objects = ret objs ->
  Forall (partitions primitive operator) objs ->
  Object.compose operation objects = ret result ->
  2 <= List.length (Object.selectors result) ->
  partitions primitive operator result /\
  forall p k',
    labels primitive operator result p k' <->
    exists ks,
      Forall2 (fun o k => labels primitive operator o p k) objs ks /\
      operation ks = ret k'.
Proof.
  intros Hassert Hparts Hcompose Hlen.
  destruct (Object.iter_selections operation objs) as [e | tuples] eqn:Et.
  { unfold Object.compose in Hcompose. rewrite Hassert in Hcompose.
    cbn [bind ret] in Hcompose. rewrite Et in Hcompose. discriminate. }
  rewrite (compose_result _ _ Hassert Et) in Hcompose.
  injection Hcompose as <-.
  assert (Hkeys : Object.selectors
                    (mkObject
                       (map (fun i => (i, computed_selection (_tally tuples) i))
                            (Dict.keys (_tally tuples)))) =
                  Dict.keys (_tally tuples)).
  { unfold Object.selectors. cbn [_selections]. unfold Dict.keys at 1.
    rewrite map_map. cbn [fst]. apply map_id. }
  rewrite Hkeys in Hlen.
  assert (Hsel : forall k', In k' (Dict.keys (_tally tuples)) ->
             Object.get_selection
               (mkObject
                  (map (fun i => (i, computed_selection (_tally tuples) i))
                       (Dict.keys (_tally tuples)))) k' =
             computed_selection (_tally tuples) k').
  { intros k' Hk'. unfold Object.get_selection. cbn [_selections].
    now rewrite (get_map _ _ _ Hk'). }
  assert (Hne : objs <> []).
  { intros ->. cbn in Et.
    destruct (operation []) as [e | k0]; [discriminate|].
    cbn in Et. injection Et as <-. cbn in Hlen. lia. }
  assert (Hlabels : forall p k',
    labels primitive operator
      (mkObject (map (fun i => (i, computed_selection (_tally tuples) i))
                     (Dict.keys (_tally tuples)))) p k' <->
    exists ks,
      Forall2 (fun o k => labels primitive operator o p k) objs ks /\
      operation ks = ret k').
  { intros p k'. unfold labels at 1. rewrite Hkeys. split.
    - intros [Hk' Hs]. rewrite (Hsel k' Hk') in Hs.
      now apply (@computed_selection_labels operation objs tuples k'
                   Hne Hparts Et Hlen Hk').
    - intros (ks & Hks & Hop).
      assert (Hk' : In k' (Dict.keys (_tally tuples))).
      { apply tally_keys_In. exists (group objs ks).
        apply (iter_selections_tuples _ _ Et). exists ks.
        split; [exact (labels_selectors Hks) | auto]. }
      split; [assumption|]. rewrite (Hsel k' Hk').
      apply (@computed_selection_labels operation objs tuples k'
               Hne Hparts Et Hlen Hk'). eauto. }
  split; [| exact Hlabels].
  split; [rewrite Hkeys; apply tally_NoDup|]. split.
  - rewrite Hkeys. intros k' Hk'. rewrite (Hsel k' Hk').
    now apply (@computed_selection_labels operation objs tuples k'
                 Hne Hparts Et Hlen Hk').
  - intros p. destruct (labelling p Hparts) as (ks0 & Hks0 & Huniq).
    destruct (iter_selections_defined _ Et (labels_selectors Hks0))
      as [k0 Hop0].
    exists k0. split.
    + apply Hlabels. eauto.
    + intros k' Hk'. apply Hlabels in Hk' as (ks & Hks & Hop).
      rewrite (Huniq ks Hks), Hop0 in Hop. now injection Hop.
Qed.

End ComposePartitions.

(** X24.  [Object.compose] composes partitions of the space.  If the
    selections of every object are not void and select every point exactly
    once, and the composed object has at least two selectors, then its
    selections are again not void and select every point exactly once: the
    selector of a point is the value of the operation on the selectors that
    the point has in the objects, whichever of its two normal forms
    [compute_selection] chooses.  The operators [union()],
    [intersection()] and [difference()] are read with their Boolean
    meaning. *)
Theorem compose_labels_regions
        (Point : Type) (primitive : string -> Point -> bool)
        (operator : string -> list (Point -> bool) -> Point -> bool)
        {K K' : Type} `{Hashable K} `{HashableSpec K'}
        (operation : list K -> Result K')
        (objects : list (PyValue K)) (objs : list (Object K))
        (result : Object K') :
  boolean_operators operator ->
  Object.assert_objects objects = ret objs ->
  Forall (partitions primitive operator) objs ->
  Object.compose operation objects = ret result ->
  2 <= List.length (Object.selectors result) ->
  partitions primitive operator result /\
  forall p k',
    labels primitive operator result p k' <->
    exists ks,
      Forall2 (fun o k => labels primitive operator o p k) objs ks /\
      operation ks = ret k'.
Proof. intros Hop. now apply compose_partition. Qed.

Lemma standard_operator_boolean (Point : Type) :
  boolean_operators (@standard_operator Point).
Proof. repeat split. Qed.

(** ** Object arithmetic on regions *)

Section SplitFacts.
Variable Point : Type.
Variable primitive : string -> Point -> bool.
Variable operator : string -> list (Point -> bool) -> Point -> bool.
Hypothesis operators : boolean_operators operator.

Lemma bipartite_selectors (o : Object Selector) :
  bipartite o ->
  In true_selector (Object.selectors o) /\
  In false_selector (Object.selectors o) /\
  List.length (Object.selectors o) = 2.
Proof.
  intros (s1 & s2 & [E | E]); unfold Object.selectors; rewrite E; simpl;
    auto.
Qed.

Lemma region_label (o : Object Selector) (p : Point) (k : Selector) :
  splits primitive operator o ->
  labels primitive operator o p k ->
  region primitive operator o p = Selector.__bool__ k.
Proof.
  intros [Hbi (_ & _ & Hone)] Hk. unfold region.
  destruct k; [exact (proj2 Hk)|]. cbn [Selector.__bool__].
  apply not_true_is_false. intros Ht.
  destruct (Hone p) as (k0 & _ & Huniq).
  assert (Htrue : labels primitive operator o p true_selector).
  { split; [apply (bipartite_selectors Hbi) | assumption]. }
  pose proof (Huniq _ Htrue) as E1. pose proof (Huniq _ Hk) as E2.
  congruence.
Qed.

Lemma splits_label (o : Object Selector) (p : Point) :
  splits primitive operator o ->
  exists k, labels primitive operator o p k.
Proof.
  intros [_ (_ & _ & Hone)]. destruct (Hone p) as (k & Hk & _). eauto.
Qed.

Lemma region_binary (f : bool -> bool -> bool)
      (op : Selector -> Selector -> Selector)
      (operation : list Selector -> Result Selector)
      (o1 o2 r : Object Selector) :
  (forall a b, operation [a; b] = ret (op a b)) ->
  (forall a b, Selector.__bool__ (op a b) =
               f (Selector.__bool__ a) (Selector.__bool__ b)) ->
  splits primitive operator o1 -> splits primitive operator o2 ->
  Object.compose operation [PyObject o1; PyObject o2] = ret r ->
  bipartite r ->
  splits primitive operator r /\
  forall p, region primitive operator r p =
            f (region primitive operator o1 p)
              (region primitive operator o2 p).
Proof.
  intros Hoperation Hop H1 H2 Hr Hbi.
  destruct (@compose_partition Point primitive operator operators
              Selector Selector _ _ _ operation
              [PyObject o1; PyObject o2] [o1; o2] r eq_refl)
    as [Hpart Hlabels]; [| assumption | |].
  { constructor; [apply H1|]. constructor; [apply H2 | constructor]. }
  { rewrite (proj2 (proj2 (bipartite_selectors Hbi))). lia. }
  assert (Hsplits : splits primitive operator r) by (split; assumption).
  split; [assumption|]. intros p.
  destruct (splits_label p H1) as [k1 Hk1].
  destruct (splits_label p H2) as [k2 Hk2].
  rewrite (region_label H1 Hk1), (region_label H2 Hk2), <- Hop.
  apply (region_label Hsplits). apply Hlabels.
  exists [k1; k2]. split; [| apply Hoperation].
  constructor; [assumption|]. constructor; [assumption | constructor].
Qed.

Lemma region_unary (o r : Object Selector) :
  splits primitive operator o ->
  Object.__neg__ o = ret r ->
  bipartite r ->
  splits primitive operator r /\
  forall p, region primitive operator r p =
            negb (region primitive operator o p).
Proof.
  intros Ho Hr Hbi.
  destruct (@compose_partition Point primitive operator operators
              Selector Selector _ _ _ operator__neg__
              [PyObject o] [o] r eq_refl)
    as [Hpart Hlabels]; [| assumption | |].
  { constructor; [apply Ho | constructor]. }
  { rewrite (proj2 (proj2 (bipartite_selectors Hbi))). lia. }
  assert (Hsplits : splits primitive operator r) by (split; assumption).
  split; [assumption|]. intros p.
  destruct (splits_label p Ho) as [k Hk].
  rewrite (region_label Ho Hk).
  assert (E : negb (Selector.__bool__ k) =
              Selector.__bool__ (Selector.__neg__ k)) by now destruct k.
  rewrite E. apply (region_label Hsplits). apply Hlabels.
  exists [k]. split; [| reflexivity].
  constructor; [assumption | constructor].
Qed.

Lemma create_splits (A : Selection) :
  Selection.void A = false ->
  splits primitive operator (Object.create A) /\
  forall p, region primitive operator (Object.create A) p =
            selects primitive operator A p.
Proof.
  intros Hv. split; [| reflexivity]. split.
  - exists A, (Selection.invert A). now left.
  - split; [| split].
    + repeat constructor; simpl; intuition discriminate.
    + intros k [<- | [<- | []]]; exact Hv.
    + intros p.
      assert (Hf : selects primitive operator
                     (Object.get_selection (Object.create A) false_selector)
                     p = negb (selects primitive operator A p))
        by apply selects_invert.
      assert (Ht : selects primitive operator
                     (Object.get_selection (Object.create A) true_selector)
                     p = selects primitive operator A p) by reflexivity.
      destruct (selects primitive operator A p) eqn:Es.
      * exists true_selector. split.
        -- split; [now left | assumption].
        -- intros k' [_ Hk']. destruct k'; [reflexivity|].
           rewrite Hf in Hk'. discriminate.
      * exists false_selector. split.
        -- split; [right; now left | assumption].
        -- intros k' [_ Hk']. destruct k'; [| reflexivity].
           rewrite Ht in Hk'. discriminate.
Qed.

Lemma root_region (o : Object Selector) (n : Node) (p : Point) :
  bipartite o -> root_node o = ret n ->
  inside primitive operator n p = region primitive operator o p.
Proof.
  intros (s1 & s2 & [E | E]) Hroot; destruct o as [d]; cbn in E; subst d.
  - rewrite root_node_bipartite in Hroot.
    unfold region, Object.get_selection. cbn.
    unfold is_plain in Hroot. unfold selects.
    destruct (Selection.void s1); [discriminate|].
    destruct (Selection.inverted s1); [discriminate|].
    cbn in Hroot. now rewrite Hroot.
  - rewrite root_node_swapped in Hroot.
    unfold region, Object.get_selection. cbn.
    unfold is_plain in Hroot. unfold selects.
    destruct (Selection.void s2); [discriminate|].
    destruct (Selection.inverted s2); [discriminate|].
    cbn in Hroot. now rewrite Hroot.
Qed.

End SplitFacts.

Lemma cube_partitions : partitions below_three standard_operator cube.
Proof.
  exact (proj2 (proj1 (@create_splits nat below_three standard_operator
                         cube_selection eq_refl))).
Qed.

Lemma compose_labels_regions_witness :
  exists result,
    Object.compose operator__add__ [PyObject cube; PyObject cube] =
    ret result /\
    partitions below_three standard_operator result.
Proof.
  destruct (Object.compose operator__add__ [PyObject cube; PyObject cube])
    as [e | result] eqn:E; [vm_compute in E; discriminate|].
  exists result. split; [reflexivity|].
  assert (Hlen : 2 <= List.length (Object.selectors result)).
  { vm_compute in E. injection E as <-. vm_compute. lia. }
  apply (proj1 (@compose_labels_regions nat below_three standard_operator
                  Selector Selector _ _ _ operator__add__
                  [PyObject cube; PyObject cube] [cube; cube] result
                  (standard_operator_boolean nat) eq_refl
                  (Forall_cons _ cube_partitions
                     (Forall_cons _ cube_partitions (Forall_nil _)))
                  E Hlen)).
Defined.

(** X25.  On objects that split the space into a region and its
    complement, with the two selector singletons as keys and no void
    selection, the arithmetic of objects is the Boolean algebra of the
    regions: [+] is the union, [*] the intersection, binary [-] the
    difference and unary [-] the complement, and every result splits the
    space again.  [create] of a selection that is not void is such an
    object, with the region of the selection; and a root that
    [compile_scad] finds for an object with the two selectors denotes the
    region of the object. *)
Theorem object_arithmetic_is_boolean
        (Point : Type) (primitive : string -> Point -> bool)
        (operator : string -> list (Point -> bool) -> Point -> bool)
        (o1 o2 : Object Selector) :
  boolean_operators operator ->
  splits primitive operator o1 -> splits primitive operator o2 ->
  (exists r, Object.__add__ o1 (PyObject o2) = ret r /\
             splits primitive operator r /\
             forall p, region primitive operator r p =
                       region primitive operator o1 p ||
                       region primitive operator o2 p) /\
  (exists r, Object.__mul__ o1 (PyObject o2) = ret r /\
             splits primitive operator r /\
             forall p, region primitive operator r p =
                       region primitive operator o1 p &&
                       region primitive operator o2 p) /\
  (exists r, Object.__sub__ o1 (PyObject o2) = ret r /\
             splits primitive operator r /\
             forall p, region primitive operator r p =
                       region primitive operator o1 p &&
                       negb (region primitive operator o2 p)) /\
  (exists r, Object.__neg__ o1 = ret r /\
             splits primitive operator r /\
             forall p, region primitive operator r p =
                       negb (region primitive operator o1 p)) /\
  (forall A, Selection.void A = false ->
             splits primitive operator (Object.create A) /\
             forall p, region primitive operator (Object.create A) p =
                       selects primitive operator A p) /\
  (forall n p, root_node o1 = ret n ->
               inside primitive operator n p =
               region primitive operator o1 p).
Proof.
  intros Hop H1 H2.
  destruct (bipartite_arithmetic (proj1 H1) (proj1 H2))
    as ((ra & Ha & Hba) & (rm & Hm & Hbm) & (rs & Hs & Hbs) &
        (rn & Hn & Hbn)).
  split; [| split; [| split; [| split; [| split]]]].
  - exists ra. split; [assumption|].
    apply (region_binary Hop orb Selector.__add__ operator__add__);
      try assumption; try reflexivity. now intros [] [].
  - exists rm. split; [assumption|].
    apply (region_binary Hop andb Selector.__mul__ operator__mul__);
      try assumption; try reflexivity. now intros [] [].
  - exists rs. split; [assumption|].
    apply (region_binary Hop (fun a b => a && negb b) Selector.__sub__
             operator__sub__);
      try assumption; try reflexivity. now intros [] [].
  - exists rn. split; [assumption|]. now apply (region_unary Hop).
  - intros A HA. now apply create_splits.
  - intros n p Hroot. apply root_region; [apply H1 | assumption].
Qed.

Lemma object_arithmetic_is_boolean_witness :
  exists r,
    Object.__add__ cube (PyObject cube) = ret r /\
    forall p, region below_three standard_operator r p = Nat.ltb p 3.
Proof.
  assert (Hs : splits below_three standard_operator cube).
  { exact (proj1 (@create_splits nat below_three standard_operator
                    cube_selection eq_refl)). }
  destruct (@object_arithmetic_is_boolean nat below_three standard_operator
              cube cube (standard_operator_boolean nat) Hs Hs)
    as ((r & Hr & _ & Hregion) & _).
  exists r. split; [exact Hr|].
  intros p. rewrite Hregion. apply orb_diag.
Defined.

(** ** [union] and [intersect] of a sequence on regions *)

Section SequenceFacts.
Variable Point : Type.
Variable primitive : string -> Point -> bool.
Variable operator : string -> list (Point -> bool) -> Point -> bool.
Hypothesis operators : boolean_operators operator.

Lemma splits_selections (o : Object Selector) :
  splits primitive operator o ->
  Selection.void (Object.get_selection o true_selector) = false /\
  Selection.void (Object.get_selection o false_selector) = false /\
  forall p,
    selects primitive operator (Object.get_selection o false_selector) p =
    negb (region primitive operator o p).
Proof.
  intros Ho. pose proof Ho as [Hbi (_ & Hvoid & Hone)].
  destruct (bipartite_selectors Hbi) as (Ht & Hf & _).
  split; [now apply Hvoid|]. split; [now apply Hvoid|].
  intros p. destruct (splits_label p Ho) as [k Hk].
  rewrite (region_label Ho Hk).
  destruct k; cbn [Selector.__bool__ negb].
  - apply not_true_is_false. intros E.
    destruct (Hone p) as (k0 & _ & Huniq).
    assert (Hfalse : labels primitive operator o p false_selector)
      by (split; assumption).
    pose proof (Huniq _ Hfalse). pose proof (Huniq _ Hk). congruence.
  - exact (proj2 Hk).
Qed.

Lemma splits_of (o : Object Selector) :
  bipartite o ->
  Selection.void (Object.get_selection o true_selector) = false ->
  Selection.void (Object.get_selection o false_selector) = false ->
  (forall p,
      selects primitive operator (Object.get_selection o false_selector) p =
      negb (region primitive operator o p)) ->
  splits primitive operator o.
Proof.
  intros Hbi Ht Hf Hcompl. split; [assumption|].
  destruct (bipartite_selectors Hbi) as (Hint & Hinf & Hlen).
  split; [| split].
  - destruct Hbi as (s1 & s2 & [E | E]); unfold Object.selectors;
      rewrite E; repeat constructor; simpl; intuition discriminate.
  - intros [] _; assumption.
  - intros p. specialize (Hcompl p). unfold region in Hcompl.
    destruct (selects primitive operator
                (Object.get_selection o true_selector) p) eqn:Es.
    + exists true_selector. split; [split; assumption|].
      intros [] [_ Hk]; [reflexivity|]. rewrite Hcompl in Hk. discriminate.
    + exists false_selector. split; [split; assumption|].
      intros [] [_ Hk]; [| reflexivity]. rewrite Es in Hk. discriminate.
Qed.

Lemma combine_beside_whole_space (S : Selection) :
  Selection.void S = false ->
  exists c,
    Object.combine [[Selection.invert void_selection; S]] = ret c /\
    Selection.void c = false /\
    forall p, selects primitive operator c p =
              selects primitive operator S p.
Proof.
  intros Hv.
  destruct (selects_combine primitive operators
              (groups := [[Selection.invert void_selection; S]]))
    as (c & Hc & Hvc & Hsel); [discriminate | |].
  - intros g [<- | []]. cbn [existsb]. unfold nothing, whole_space.
    rewrite Hv. cbn. now rewrite !andb_false_r.
  - exists c. split; [assumption|]. split; [assumption|].
    intros p. rewrite Hsel. cbn [existsb forallb].
    now rewrite orb_false_r, andb_true_r.
Qed.

End SequenceFacts.

Lemma union_first_step (o : Object Selector) (c : Selection) :
  bipartite o ->
  Object.combine [[Selection.invert void_selection;
                   Object.get_selection o false_selector]] = ret c ->
  Object.__add__ (Object.create void_selection) (PyObject o) =
  ret (mkObject [(true_selector, Selection.invert c); (false_selector, c)]).
Proof.
  intros (s1 & s2 & [E | E]) Hc; destruct o as [d]; cbn in E; subst d;
    cbn [Object.get_selection _selections Dict.get key_eqb Selector_Hashable
         Selector.eqb] in Hc.
  - assert (Hsum :
      Object.__add__ (Object.create void_selection)
        (PyObject (mkObject [(true_selector, s1); (false_selector, s2)])) =
      ret (mkObject
             (map (fun i =>
                     (i, computed_selection
                           [(true_selector,
                             [[void_selection; s1]; [void_selection; s2];
                              [Selection.invert void_selection; s1]]);
                            (false_selector,
                             [[Selection.invert void_selection; s2]])] i))
                  [true_selector; false_selector]))).
    { unfold Object.__add__.
      erewrite (compose_result (K := Selector) (K' := Selector));
        [| reflexivity | reflexivity].
      reflexivity. }
    rewrite Hsum. cbn [map].
    unfold computed_selection, Object.compute_selection.
    cbn [Dict.get key_eqb Selector_Hashable Selector.eqb
         Object.inverse_groups flat_map fst snd List.app List.length
         Nat.ltb Nat.leb].
    rewrite Hc. reflexivity.
  - assert (Hsum :
      Object.__add__ (Object.create void_selection)
        (PyObject (mkObject [(false_selector, s1); (true_selector, s2)])) =
      ret (mkObject
             (map (fun i =>
                     (i, computed_selection
                           [(true_selector,
                             [[void_selection; s1]; [void_selection; s2];
                              [Selection.invert void_selection; s2]]);
                            (false_selector,
                             [[Selection.invert void_selection; s1]])] i))
                  [true_selector; false_selector]))).
    { unfold Object.__add__.
      erewrite (compose_result (K := Selector) (K' := Selector));
        [| reflexivity | reflexivity].
      reflexivity. }
    rewrite Hsum. cbn [map].
    unfold computed_selection, Object.compute_selection.
    cbn [Dict.get key_eqb Selector_Hashable Selector.eqb
         Object.inverse_groups flat_map fst snd List.app List.length
         Nat.ltb Nat.leb].
    rewrite Hc. reflexivity.
Qed.

Lemma intersect_initial :
  Object.__neg__ (Object.create void_selection) =
  ret (mkObject [(false_selector, Selection.invert void_selection);
                 (true_selector, Selection.invert void_selection)]).
Proof. reflexivity. Qed.

Lemma intersect_first_step (o : Object Selector) (c : Selection) :
  bipartite o ->
  Object.combine [[Selection.invert void_selection;
                   Object.get_selection o true_selector]] = ret c ->
  Object.__mul__
    (mkObject [(false_selector, Selection.invert void_selection);
                         (true_selector, Selection.invert void_selection)])
    (PyObject o) =
  ret (mkObject [(false_selector, Selection.invert c); (true_selector, c)]).
Proof.
  intros (s1 & s2 & [E | E]) Hc; destruct o as [d]; cbn in E; subst d;
    cbn [Object.get_selection _selections Dict.get key_eqb Selector_Hashable
         Selector.eqb] in Hc.
  - assert (Hproduct :
      Object.__mul__
        (mkObject [(false_selector, Selection.invert void_selection);
                      (true_selector, Selection.invert void_selection)])
        (PyObject (mkObject [(true_selector, s1); (false_selector, s2)])) =
      ret (mkObject
             (map (fun i =>
                     (i, computed_selection
                           [(false_selector,
                             [[Selection.invert void_selection; s1];
                              [Selection.invert void_selection; s2];
                              [Selection.invert void_selection; s2]]);
                            (true_selector,
                             [[Selection.invert void_selection; s1]])] i))
                  [false_selector; true_selector]))).
    { unfold Object.__mul__.
      erewrite (compose_result (K := Selector) (K' := Selector));
        [| reflexivity | reflexivity].
      reflexivity. }
    rewrite Hproduct. cbn [map].
    unfold computed_selection, Object.compute_selection.
    cbn [Dict.get key_eqb Selector_Hashable Selector.eqb
         Object.inverse_groups flat_map fst snd List.app List.length
         Nat.ltb Nat.leb].
    rewrite Hc. reflexivity.
  - assert (Hproduct :
      Object.__mul__
        (mkObject [(false_selector, Selection.invert void_selection);
                      (true_selector, Selection.invert void_selection)])
        (PyObject (mkObject [(false_selector, s1); (true_selector, s2)])) =
      ret (mkObject
             (map (fun i =>
                     (i, computed_selection
                           [(false_selector,
                             [[Selection.invert void_selection; s1];
                              [Selection.invert void_selection; s2];
                              [Selection.invert void_selection; s1]]);
                            (true_selector,
                             [[Selection.invert void_selection; s2]])] i))
                  [false_selector; true_selector]))).
    { unfold Object.__mul__.
      erewrite (compose_result (K := Selector) (K' := Selector));
        [| reflexivity | reflexivity].
      reflexivity. }
    rewrite Hproduct. cbn [map].
    unfold computed_selection, Object.compute_selection.
    cbn [Dict.get key_eqb Selector_Hashable Selector.eqb
         Object.inverse_groups flat_map fst snd List.app List.length
         Nat.ltb Nat.leb].
    rewrite Hc. reflexivity.
Qed.

Section SequenceRegions.
Variable Point : Type.
Variable primitive : string -> Point -> bool.
Variable operator : string -> list (Point -> bool) -> Point -> bool.
Hypothesis operators : boolean_operators operator.

Lemma sum_regions (o1 o2 : Object Selector) :
  splits primitive operator o1 -> splits primitive operator o2 ->
  exists r, Object.__add__ o1 (PyObject o2) = ret r /\
            splits primitive operator r /\
            forall p, region primitive operator r p =
                      region primitive operator o1 p ||
                      region primitive operator o2 p.
Proof.
  intros H1 H2.
  destruct (bipartite_arithmetic (proj1 H1) (proj1 H2))
    as ((r & Hr & Hbi) & _).
  exists r. split; [assumption|].
  apply (region_binary operators orb Selector.__add__ operator__add__);
    try assumption; try reflexivity. now intros [] [].
Qed.

Lemma product_regions (o1 o2 : Object Selector) :
  splits primitive operator o1 -> splits primitive operator o2 ->
  exists r, Object.__mul__ o1 (PyObject o2) = ret r /\
            splits primitive operator r /\
            forall p, region primitive operator r p =
                      region primitive operator o1 p &&
                      region primitive operator o2 p.
Proof.
  intros H1 H2.
  destruct (bipartite_arithmetic (proj1 H1) (proj1 H2))
    as (_ & (r & Hr & Hbi) & _).
  exists r. split; [assumption|].
  apply (region_binary operators andb Selector.__mul__ operator__mul__);
    try assumption; try reflexivity. now intros [] [].
Qed.

Lemma reduce_sum (objects : list (Object Selector)) :
  Forall (splits primitive operator) objects ->
  forall initial,
    splits primitive operator initial ->
    exists r,
      reduce Object.__add__ (map (@PyObject Selector) objects) initial
      = ret r /\
      splits primitive operator r /\
      forall p, region primitive operator r p =
                region primitive operator initial p ||
                existsb (fun o => region primitive operator o p) objects.
Proof.
  induction 1 as [| o objects Ho _ IH]; intros initial Hi.
  - exists initial. split; [reflexivity|]. split; [assumption|].
    intros p. cbn [existsb]. now rewrite orb_false_r.
  - cbn [map reduce].
    destruct (sum_regions Hi Ho) as (acc & -> & Hacc & Hregion).
    cbn [bind ret]. destruct (IH acc Hacc) as (r & Hr & Hsplits & Hr').
    exists r. split; [assumption|]. split; [assumption|].
    intros p. rewrite Hr', Hregion. cbn [existsb]. now rewrite orb_assoc.
Qed.

Lemma reduce_product (objects : list (Object Selector)) :
  Forall (splits primitive operator) objects ->
  forall initial,
    splits primitive operator initial ->
    exists r,
      reduce Object.__mul__ (map (@PyObject Selector) objects) initial
      = ret r /\
      splits primitive operator r /\
      forall p, region primitive operator r p =
                region primitive operator initial p &&
                forallb (fun o => region primitive operator o p) objects.
Proof.
  induction 1 as [| o objects Ho _ IH]; intros initial Hi.
  - exists initial. split; [reflexivity|]. split; [assumption|].
    intros p. cbn [forallb]. now rewrite andb_true_r.
  - cbn [map reduce].
    destruct (product_regions Hi Ho) as (acc & -> & Hacc & Hregion).
    cbn [bind ret]. destruct (IH acc Hacc) as (r & Hr & Hsplits & Hr').
    exists r. split; [assumption|]. split; [assumption|].
    intros p. rewrite Hr', Hregion. cbn [forallb]. now rewrite andb_assoc.
Qed.

Lemma first_accumulator (k1 k2 : Selector) (c : Selection) (f : bool) :
  (k1 = true_selector /\ k2 = false_selector /\ f = true \/
   k1 = false_selector /\ k2 = true_selector /\ f = false) ->
  Selection.void c = false ->
  let acc := mkObject [(k1, Selection.invert c); (k2, c)] in
  splits primitive operator acc /\
  forall p, region primitive operator acc p =
            if f then negb (selects primitive operator c p)
            else selects primitive operator c p.
Proof.
  intros Hk Hv. cbv zeta.
  destruct Hk as [(-> & -> & ->) | (-> & -> & ->)].
  - split; [| intros p; apply selects_invert].
    apply splits_of.
    + exists (Selection.invert c), c. now left.
    + exact Hv.
    + exact Hv.
    + intros p. unfold region. cbn [Object.get_selection _selections
        Dict.get key_eqb Selector_Hashable Selector.eqb].
      rewrite selects_invert. now rewrite negb_involutive.
  - split; [| reflexivity].
    apply splits_of.
    + exists (Selection.invert c), c. now right.
    + exact Hv.
    + exact Hv.
    + intros p. unfold region. cbn [Object.get_selection _selections
        Dict.get key_eqb Selector_Hashable Selector.eqb].
      apply selects_invert.
Qed.

Lemma sequence_regions (objects : list (Object Selector)) :
  Forall (splits primitive operator) objects ->
  (exists u,
      union (map (@PyObject Selector) objects) = ret u /\
      (forall p, region primitive operator u p =
                 existsb (fun o => region primitive operator o p) objects) /\
      (objects <> [] -> splits primitive operator u)) /\
  (exists i,
      intersect (map (@PyObject Selector) objects) = ret i /\
      (forall p, region primitive operator i p =
                 forallb (fun o => region primitive operator o p) objects) /\
      (objects <> [] -> splits primitive operator i)).
Proof.
  intros Hall. destruct Hall as [| o objects Ho Hrest].
  - split.
    + eexists. split; [reflexivity|]. split; [reflexivity | congruence].
    + eexists. split; [reflexivity|]. split; [reflexivity | congruence].
  - destruct (splits_selections Ho) as (Hvt & Hvf & Hcompl).
    split.
    + destruct (combine_beside_whole_space primitive operators _ Hvf)
        as (c & Hc & Hv & Hsel).
      unfold union. cbn [map reduce].
      rewrite (union_first_step (proj1 Ho) Hc). cbn [bind ret].
      destruct (@first_accumulator true_selector false_selector c true)
        as [Hacc Hregion]; [left; auto | assumption |].
      cbv zeta in Hacc, Hregion.
      destruct (reduce_sum Hrest Hacc) as (r & Hr & Hsplits & Hr').
      exists r. split; [assumption|]. split; [| auto].
      intros p. rewrite Hr', Hregion, Hsel, Hcompl. cbn [existsb].
      now rewrite negb_involutive.
    + destruct (combine_beside_whole_space primitive operators _ Hvt)
        as (c & Hc & Hv & Hsel).
      unfold intersect. rewrite intersect_initial. cbn [bind ret map reduce].
      rewrite (intersect_first_step (proj1 Ho) Hc). cbn [bind ret].
      destruct (@first_accumulator false_selector true_selector c false)
        as [Hacc Hregion]; [right; auto | assumption |].
      cbv zeta in Hacc, Hregion.
      destruct (reduce_product Hrest Hacc) as (r & Hr & Hsplits & Hr').
      exists r. split; [assumption|]. split; [| auto].
      intros p. rewrite Hr', Hregion, Hsel. reflexivity.
Qed.

End SequenceRegions.

(** X26.  On a sequence of objects that split the space, [union] and
    [intersect] never fail; the region of the union holds the points of
    the region of some object and the region of the intersection the
    points of the regions of all objects, also for the empty sequence; and
    if the sequence is not empty the result splits the space again. *)
Theorem union_and_intersect_on_regions
        (Point : Type) (primitive : string -> Point -> bool)
        (operator : string -> list (Point -> bool) -> Point -> bool)
        (objects : list (Object Selector)) :
  boolean_operators operator ->
  Forall (splits primitive operator) objects ->
  (exists u,
      union (map (@PyObject Selector) objects) = ret u /\
      (forall p, region primitive operator u p =
                 existsb (fun o => region primitive operator o p) objects) /\
      (objects <> [] -> splits primitive operator u)) /\
  (exists i,
      intersect (map (@PyObject Selector) objects) = ret i /\
      (forall p, region primitive operator i p =
                 forallb (fun o => region primitive operator o p) objects) /\
      (objects <> [] -> splits primitive operator i)).
Proof. intros Hop. now apply sequence_regions. Qed.

Lemma union_and_intersect_on_regions_witness :
  exists u,
    union [PyObject cube; PyObject cube] = ret u /\
    forall p, region below_three standard_operator u p = Nat.ltb p 3.
Proof.
  assert (Hs : splits below_three standard_operator cube).
  { exact (proj1 (@create_splits nat below_three standard_operator
                    cube_selection eq_refl)). }
  destruct (@union_and_intersect_on_regions nat below_three
              standard_operator [cube; cube] (standard_operator_boolean nat)
              (Forall_cons _ Hs (Forall_cons _ Hs (Forall_nil _))))
    as ((u & Hu & Hregion & _) & _).
  exists u. split; [exact Hu|].
  intros p. rewrite Hregion. cbn [existsb].
  rewrite orb_false_r. apply orb_diag.
Defined.

(** ** Transformations on regions *)

Section TransformRegions.
Variable Point : Type.
Variable primitive : string -> Point -> bool.
Variable operator : string -> list (Point -> bool) -> Point -> bool.
Variable text : string.
Variable g : Point -> Point.
Hypothesis transformation : forall r p, operator text [r] p = r (g p).

Lemma selects_transformed (s : Selection) (p : Point) :
  selects primitive operator (transformed text s) p =
  selects primitive operator s (g p).
Proof.
  unfold transformed, Selection.transform.
  destruct (Selection.void s) eqn:Ev.
  - cbn [ret]. unfold selects. now rewrite (void_has_no_node s Ev).
  - destruct (node_of_non_void s Ev) as [n En]. rewrite En. cbn [bind ret].
    unfold selects. rewrite En.
    destruct (Selection.inverted s); cbn; now rewrite transformation.
Qed.

Lemma void_transformed (s : Selection) :
  Selection.void (transformed text s) = Selection.void s.
Proof.
  unfold transformed, Selection.transform.
  destruct (Selection.void s) eqn:Ev; [cbn [ret]; assumption|].
  destruct (node_of_non_void s Ev) as [n En]. rewrite En. cbn [bind ret].
  now destruct (Selection.inverted s).
Qed.

Lemma get_selection_transformed {K} `{HashableSpec K}
      (d : list (K * Selection)) (k : K) :
  Object.get_selection
    (mkObject (map (fun kv => (fst kv, transformed text (snd kv))) d)) k =
  transformed text (Object.get_selection (mkObject d) k).
Proof.
  unfold Object.get_selection. cbn [_selections].
  rewrite get_map_values.
  now destruct (Dict.get k d).
Qed.

Lemma transform_splits (o : Object Selector) :
  splits primitive operator o ->
  exists r,
    Object._transform o text = ret r /\
    splits primitive operator r /\
    forall p, region primitive operator r p =
              region primitive operator o (g p).
Proof.
  intros [Hbi (Hnd & Hvoid & Hone)].
  eexists. split; [exact (transform_entries o text Hnd)|].
  destruct o as [d]. cbn [_selections].
  assert (Hkeys : Object.selectors
                    (mkObject (map (fun kv => (fst kv,
                                               transformed text (snd kv))) d))
                  = Object.selectors (mkObject d)).
  { unfold Object.selectors, Dict.keys. cbn [_selections].
    now rewrite map_map. }
  assert (Hlabels : forall p k,
    labels primitive operator
      (mkObject (map (fun kv => (fst kv, transformed text (snd kv))) d)) p k
    <-> labels primitive operator (mkObject d) (g p) k).
  { intros p k. unfold labels.
    now rewrite Hkeys, get_selection_transformed, selects_transformed. }
  split; [split |].
  - destruct Hbi as (s1 & s2 & [E | E]); cbn [_selections] in E; subst d;
      exists (transformed text s1), (transformed text s2);
      [left | right]; reflexivity.
  - split; [now rewrite Hkeys|]. split.
    + intros k Hk. rewrite Hkeys in Hk.
      rewrite get_selection_transformed, void_transformed.
      now apply Hvoid.
    + intros p. destruct (Hone (g p)) as (k & Hk & Huniq).
      exists k. split; [now apply Hlabels|].
      intros k' Hk'. apply Huniq. now apply Hlabels.
  - intros p. unfold region.
    now rewrite get_selection_transformed, selects_transformed.
Qed.

End TransformRegions.

(** X27.  If the operator of a transformation stands for a map of the
    space, so that its region holds a point exactly if the region of its
    child holds the image of the point, then [Selection.transform] turns a
    selection into one that selects a point exactly if the selection
    selects its image, also for void and inverted selections, and
    [Object._transform] turns an object that splits the space into one
    that splits the space again, with the region moved in this way. *)
Theorem transform_moves_regions
        (Point : Type) (primitive : string -> Point -> bool)
        (operator : string -> list (Point -> bool) -> Point -> bool)
        (text : string) (g : Point -> Point) :
  (forall r p, operator text [r] p = r (g p)) ->
  (forall s,
      exists s', Selection.transform text s = ret s' /\
                 forall p, selects primitive operator s' p =
                           selects primitive operator s (g p)) /\
  (forall o,
      splits primitive operator o ->
      exists r,
        Object._transform o text = ret r /\
        splits primitive operator r /\
        forall p, region primitive operator r p =
                  region primitive operator o (g p)).
Proof.
  intros Hg. split.
  - intros s. exists (transformed text s).
    split; [apply transform_transformed|].
    intros p.
    now apply (@selects_transformed Point primitive operator text g Hg).
  - intros o Ho.
    now apply (@transform_splits Point primitive operator text g Hg).
Qed.

Lemma transform_moves_regions_witness :
  exists r,
    Object._transform cube "translate([-1, 0, 0])" = ret r /\
    forall p, region below_three shifting_operator r p = Nat.ltb (p + 1) 3.
Proof.
  assert (Hs : splits below_three shifting_operator cube).
  { exact (proj1 (@create_splits nat below_three shifting_operator
                    cube_selection eq_refl)). }
  destruct (proj2 (@transform_moves_regions nat below_three
                     shifting_operator "translate([-1, 0, 0])"
                     (fun p => p + 1) (fun r p => eq_refl)) cube Hs)
    as (r & Hr & _ & Hregion).
  exists r. split; [exact Hr|]. intros p. now rewrite Hregion.
Defined.

(** ** Compiling a tree without repeated structures *)

Lemma lines_of_composite (text : string) (nodes : list Node) :
  lines_of (CompositeNode text nodes) =
  match nodes with
  | [_] => text :: concat (map (fun c => indent (lines_of c)) nodes)
  | _ => [(text ++ " {")%string] ++
         concat (map (fun c => indent (lines_of c)) nodes) ++ ["}"]
  end.
Proof.
  cbn [lines_of].
  assert (E : (fix all (l : list Node) : list (list string) :=
                 match l with
                 | [] => []
                 | c :: l' => indent (lines_of c) :: all l'
                 end) nodes = map (fun c => indent (lines_of c)) nodes).
  { induction nodes as [| c l IH]; [reflexivity|]. now rewrite IH. }
  now rewrite E.
Qed.

Lemma iter_lines_plain (node_replacements : list (Node * Node)) (x : Node) :
  (forall y, subterm y x -> Dict.get y node_replacements = Some y) ->
  well_formed x = true ->
  forall fuel, height x < fuel ->
               iter_lines fuel node_replacements x = ret (lines_of x).
Proof.
  induction x as [text | text nodes IH] using Node_induction;
    intros Hself Hwf fuel Hfuel.
  - destruct fuel as [| fuel]; [lia | reflexivity].
  - destruct fuel as [| fuel]; [lia|].
    apply well_formed_composite in Hwf as [Hne Hall].
    assert (Hchild : forall c, In c nodes ->
      match Dict.get c node_replacements with
      | None => raise KeyError
      | Some replacement =>
          lines <- iter_lines fuel node_replacements replacement ;;
          ret (indent lines)
      end = ret (indent (lines_of c))).
    { intros c Hc.
      rewrite (Hself c (subterm_child text nodes Hc (subterm_refl c))).
      rewrite Forall_forall in IH. rewrite (IH c Hc).
      - reflexivity.
      - intros y Hy. apply Hself. exact (subterm_child text nodes Hc Hy).
      - unfold all_well_formed in Hall. rewrite Forall_forall in Hall.
        now apply Hall.
      - pose proof (height_child text nodes c Hc). lia. }
    rewrite lines_of_composite. cbn [iter_lines].
    destruct nodes as [| first rest]; [congruence|].
    destruct rest as [| second rest].
    + rewrite (Hchild first (or_introl eq_refl)). cbn [bind ret map concat].
      now rewrite app_nil_r.
    + rewrite (mapM_map _ (fun c => indent (lines_of c)) _ Hchild).
      reflexivity.
Qed.

Lemma no_repetition_no_modules (root : Node) :
  (forall x, occurrences x root <= 1) ->
  snd (snd (plan root)) = [] /\
  forall x, subterm x root -> Dict.get x (fst (snd (plan root))) = Some x.
Proof.
  intros Honce.
  assert (Hnone : snd (snd (plan root)) = []).
  { destruct (snd (snd (plan root))) as [| m modules] eqn:E;
      [reflexivity|].
    exfalso.
    assert (Hin : In (_node m) (map _node (snd (snd (plan root)))))
      by (rewrite E; now left).
    pose proof (module_node_reused root _ Hin).
    pose proof (calls_le_occurrences (_node m) root).
    pose proof (Honce (_node m)). lia. }
  split; [assumption|].
  destruct (plan_spec root) as (_ & _ & _ & Hself & Hmod).
  cbv zeta in Hself, Hmod. intros x Hx.
  destruct (set_mem x (reused_nodes (fst (plan root)))) eqn:E;
    [| now apply Hself].
  destruct (Hmod x Hx E) as (m & Hm & _). rewrite Hnone in Hm. destruct Hm.
Qed.

(** X28.  If no structure stands at two positions of a well formed tree,
    [compile_scad] declares no module and returns the lines of the tree
    written out in full. *)
Theorem compile_without_repetition (root : Node) :
  well_formed root = true ->
  (forall x, occurrences x root <= 1) ->
  snd (snd (plan root)) = [] /\
  emit root = ret (lines_of root) /\
  compile_scad (Object.create (Selection.create root)) =
  ret (lines_of root).
Proof.
  intros Hwf Honce.
  destruct (no_repetition_no_modules root Honce) as [Hnone Hself].
  assert (Hemit : emit root = ret (lines_of root)).
  { unfold emit.
    destruct (snd (plan root)) as [node_replacements modules] eqn:Eplan.
    cbn [fst snd] in Hnone, Hself. subst modules.
    rewrite (iter_lines_plain _ Hself Hwf) by lia.
    cbn [bind ret mapM concat]. now rewrite app_nil_r. }
  split; [assumption|]. split; [assumption|].
  rewrite (@compile_scad_root Selector _ _
             (Object.create (Selection.create root)) root);
    [assumption|].
  now apply root_node_plain.
Qed.

Lemma moved_cube_once (x : Node) : occurrences x moved_cube <= 1.
Proof.
  rewrite occurrences_unfold. unfold inner_occurrences.
  cbn [moved_cube Node.child_nodes map list_sum].
  rewrite (occurrences_unfold x cube_node). unfold inner_occurrences.
  cbn [cube_node Node.create Node.child_nodes map list_sum].
  fold cube_node. fold moved_cube.
  destruct (key_eqb x moved_cube) eqn:E1;
    destruct (key_eqb x cube_node) eqn:E2; simpl; try lia.
  apply (proj1 (key_eqb_eq _ _)) in E1, E2. subst x. discriminate E2.
Qed.

Lemma compile_without_repetition_witness :
  compile_scad (Object.create (Selection.create moved_cube)) =
  ret ["translate([1, 0, 0])"; indented 1 "cube();"].
Proof.
  exact (proj2 (proj2 (@compile_without_repetition moved_cube eq_refl
                         moved_cube_once))).
Defined.

(** ** The bounds check of [get_tile] *)

Lemma int_not_index_error (t : tetris.Tile) :
  tetris.and_then (tetris.int t) (fun v => inr (negb (Z.eqb v 0))) <>
  inl tetris.IndexError.
Proof.
  destruct t as [c | b]; cbn [tetris.int]; [| discriminate].
  destruct ((48 <=? nat_of_ascii c)%nat && (nat_of_ascii c <=? 57)%nat);
    discriminate.
Qed.

(** X29.  [get_tile] raises [IndexError] for the pattern without rows
    only: on any other pattern the comparison with the sizes keeps both
    indices inside the rows.  Where [pattern_size] succeeds, a point
    outside the sizes gives [False]. *)
Theorem get_tile_stays_inside (pattern : list (list tetris.Tile))
        (x y : Z) :
  (tetris.get_tile pattern x y = inl tetris.IndexError <-> pattern = []) /\
  (forall size_x size_y,
      tetris.pattern_size pattern = inr (size_x, size_y) ->
      ~ ((0 <= x < size_x)%Z /\ (0 <= y < size_y)%Z) ->
      tetris.get_tile pattern x y = inr false).
Proof.
  split.
  - split; [| intros ->; reflexivity].
    destruct pattern as [| first rest]; [reflexivity|].
    intros E. exfalso. revert E.
    unfold tetris.get_tile, tetris.pattern_size.
    destruct (forallb (fun i => (tetris.len i =? tetris.len first)%Z)
                      (first :: rest)) eqn:Hall; [| discriminate].
    cbn [tetris.and_then].
    destruct ((0 <=? x)%Z && (x <? tetris.len first)%Z &&
              ((0 <=? y)%Z && (y <? tetris.len (first :: rest))%Z))
      eqn:Hin; [| discriminate].
    apply in_bounds_spec in Hin as [Hx Hy].
    rewrite forallb_forall in Hall. unfold tetris.len in *.
    destruct (nth_error (first :: rest) (Z.to_nat y)) as [row |] eqn:Erow.
    2:{ apply nth_error_None in Erow. lia. }
    pose proof (Hall row (nth_error_In _ _ Erow)) as Hrow.
    apply Z.eqb_eq in Hrow.
    destruct (nth_error row (Z.to_nat x)) as [t |] eqn:Et.
    2:{ apply nth_error_None in Et. lia. }
    apply int_not_index_error.
  - intros size_x size_y Hsize Hout. unfold tetris.get_tile.
    rewrite Hsize. cbn [tetris.and_then].
    destruct ((0 <=? x)%Z && (x <? size_x)%Z &&
              ((0 <=? y)%Z && (y <? size_y)%Z)) eqn:Hin; [| reflexivity].
    apply in_bounds_spec in Hin. contradiction.
Qed.

Lemma get_tile_stays_inside_witness :
  tetris.get_tile s_piece 3 0 = inr false.
Proof.
  apply (proj2 (get_tile_stays_inside s_piece 3 0) 3%Z 2%Z eq_refl).
  lia.
Defined.

(** * The compiled text *)

(** ** The text of the compiled program *)

Lemma written_composite (modules : list _Module) (text : string)
      (nodes : list Node) :
  written modules (CompositeNode text nodes) =
  CompositeNode text (map (written_child modules) nodes).
Proof.
  reflexivity.
Qed.

Lemma module_of_module (root : Node) (m : _Module) :
  In m (modules_of root) -> module_of (modules_of root) (_node m) = Some m.
Proof.
  intros Hm. unfold module_of.
  destruct (find (fun m' => Node.__eq__ (_node m') (_node m))
                 (modules_of root)) as [m' |] eqn:E.
  - apply find_some in E as [Hm' E]. apply Node_eq_true in E.
    f_equal.
    exact (NoDup_map_eq _node _ m' m (plan_modules_NoDup root) Hm' Hm E).
  - pose proof (find_none _ _ E m Hm) as H. cbv beta in H.
    now rewrite Node_eq_refl in H.
Qed.

Lemma module_of_none (modules : list _Module) (x : Node) :
  ~ In x (map _node modules) -> module_of modules x = None.
Proof.
  intros Hx. unfold module_of.
  destruct (find (fun m' => Node.__eq__ (_node m') x) modules)
    as [m' |] eqn:E; [| reflexivity].
  apply find_some in E as [Hm' E]. apply Node_eq_true in E.
  exfalso. apply Hx. rewrite <- E. now apply in_map.
Qed.

Lemma module_of_some (modules : list _Module) (x : Node) (m : _Module) :
  module_of modules x = Some m -> In m modules /\ _node m = x.
Proof.
  unfold module_of. intros E. apply find_some in E as [Hm E].
  apply Node_eq_true in E. auto.
Qed.

Lemma replacement_cases (root c : Node) :
  subterm c root ->
  (Dict.get c (fst (snd (plan root))) = Some c /\
   ~ In c (map _node (modules_of root)) /\
   written_child (modules_of root) c = written (modules_of root) c) \/
  (exists m, In m (modules_of root) /\ _node m = c /\
             Dict.get c (fst (snd (plan root))) =
               Some (_Module.reference m) /\
             written_child (modules_of root) c = _Module.reference m).
Proof.
  intros Hs.
  destruct (plan_spec root) as (_ & _ & Hnodes & Hself & Hmod).
  cbv zeta in Hnodes, Hself, Hmod.
  destruct (set_mem c (reused_nodes (fst (plan root)))) eqn:E.
  - right. destruct (Hmod c Hs E) as (m & Hm & Ec & Hg).
    exists m. repeat split; try assumption.
    unfold written_child. subst c.
    now rewrite (module_of_module root m Hm).
  - left. split; [now apply Hself|].
    assert (Hc : ~ In c (map _node (modules_of root))).
    { unfold modules_of. rewrite Hnodes, filter_In. intros [_ H].
      congruence. }
    split; [assumption|].
    unfold written_child. now rewrite (module_of_none _ _ Hc).
Qed.

Lemma iter_lines_written (root x : Node) :
  subterm x root ->
  well_formed x = true ->
  forall fuel,
    height x < fuel ->
    iter_lines fuel (fst (snd (plan root))) x =
    ret (lines_of (written (modules_of root) x)).
Proof.
  induction x as [text | text nodes IH] using Node_induction;
    intros Hs Hwf fuel Hfuel.
  - destruct fuel as [| fuel]; [lia | reflexivity].
  - destruct fuel as [| fuel]; [lia|].
    apply well_formed_composite in Hwf as [Hne Hall].
    assert (Hchild : forall c, In c nodes ->
      match Dict.get c (fst (snd (plan root))) with
      | None => raise KeyError
      | Some replacement =>
          lines <- iter_lines fuel (fst (snd (plan root))) replacement ;;
          ret (indent lines)
      end = ret (indent (lines_of (written_child (modules_of root) c)))).
    { intros c Hc.
      assert (Hsc : subterm c root).
      { apply subterm_trans with (y := CompositeNode text nodes);
          [| assumption].
        exact (subterm_child text nodes Hc (subterm_refl c)). }
      pose proof (height_child text nodes c Hc) as Hh.
      destruct (replacement_cases Hsc)
        as [(Hg & _ & ->) | (m & Hm & E & Hg & ->)]; rewrite Hg.
      - rewrite Forall_forall in IH. rewrite (IH c Hc Hsc).
        + reflexivity.
        + unfold all_well_formed in Hall. rewrite Forall_forall in Hall.
          now apply Hall.
        + lia.
      - destruct fuel as [| fuel]; [lia | reflexivity]. }
    rewrite written_composite, lines_of_composite. cbn [iter_lines].
    destruct nodes as [| first rest]; [congruence|].
    destruct rest as [| second rest].
    + rewrite (Hchild first (or_introl eq_refl)). cbn [bind ret map concat].
      now rewrite app_nil_r.
    + rewrite (mapM_map _ (fun c => indent (lines_of
                 (written_child (modules_of root) c))) _ Hchild).
      cbn [bind ret]. now rewrite map_map.
Qed.

Lemma emit_text (root : Node) :
  well_formed root = true ->
  emit root = ret (program_text (modules_of root) root).
Proof.
  intros Hwf.
  pose proof (@iter_lines_written root root (subterm_refl root) Hwf
                (S (height root)) (Nat.lt_succ_diag_r _)) as Hmain.
  assert (Hblocks : forall m, In m (modules_of root) ->
    (lines <- _Module.iter_lines (S (height root)) m
                (fst (snd (plan root))) ;;
     ret ("" :: lines)) = ret (declaration (modules_of root) m)).
  { intros m Hm. destruct (plan_module_nodes root m Hm) as [Hs _].
    unfold _Module.iter_lines.
    rewrite (@iter_lines_written root (_node m) Hs
               (well_formed_subterm Hs Hwf)).
    - reflexivity.
    - pose proof (height_subterm Hs). lia. }
  apply mapM_map in Hblocks.
  unfold emit, program_text. unfold modules_of in *.
  destruct (snd (plan root)) as [node_replacements modules].
  cbn [fst snd] in *. rewrite Hmain. cbn [bind ret].
  rewrite Hblocks. reflexivity.
Qed.

(** ** Calls in the compiled text *)

Lemma append_assoc (a b c : string) :
  ((a ++ b) ++ c = a ++ (b ++ c))%string.
Proof.
  induction a as [| x a IH]; [reflexivity|]. simpl. now rewrite IH.
Qed.

Lemma length_append (a b : string) :
  String.length (a ++ b)%string = (String.length a + String.length b)%nat.
Proof.
  induction a as [| x a IH]; [reflexivity|]. simpl. now rewrite IH.
Qed.

Lemma append_cancel_r (c a b : string) :
  (a ++ c)%string = (b ++ c)%string -> a = b.
Proof.
  revert b. induction a as [| x a IH]; intros [| y b] E.
  - reflexivity.
  - apply (f_equal String.length) in E. simpl in E.
    rewrite length_append in E. lia.
  - apply (f_equal String.length) in E. simpl in E.
    rewrite length_append in E. lia.
  - simpl in E. injection E as -> E. f_equal. now apply IH.
Qed.

Lemma existsb_concat {A} (f : A -> bool) (ls : list (list A)) :
  existsb f (concat ls) = existsb (existsb f) ls.
Proof.
  induction ls as [| l ls IH]; [reflexivity|].
  simpl. now rewrite existsb_app, IH.
Qed.

Lemma existsb_indent (name : string) (lines : list string) :
  existsb (is_call name) (indent lines) = existsb (is_call name) lines.
Proof.
  induction lines as [| l lines IH]; [reflexivity|].
  change (indent (l :: lines)) with ((tab ++ l)%string :: indent lines).
  cbn [existsb]. rewrite IH. reflexivity.
Qed.

Lemma reference_line (m : _Module) :
  lines_of (_Module.reference m) = [(_name m ++ "();")%string].
Proof.
  unfold _Module.reference, Node.create, _str_call. cbn [lines_of join].
  now rewrite append_assoc.
Qed.

Lemma is_call_module (j k : nat) :
  is_call (module_name k) (module_name j ++ "();")%string = true <-> j = k.
Proof.
  unfold is_call.
  change (unindent (module_name j ++ "();")%string)
    with (module_name j ++ "();")%string.
  rewrite String.eqb_eq. split.
  - intros E. apply append_cancel_r in E. now apply module_name_inj.
  - now intros ->.
Qed.

Lemma proper_subterm_subterm (x y : Node) : proper_subterm x y -> subterm x y.
Proof.
  intros (c & Hc & Hx). destruct y as [text | text nodes]; [destruct Hc|].
  exact (subterm_child text nodes Hc Hx).
Qed.

Lemma own_lines_not_calls (root : Node) (k : nat) (text : string)
      (nodes : list Node) :
  capture_free root ->
  subterm (CompositeNode text nodes) root ->
  existsb (is_call (module_name k))
          (lines_of (written (modules_of root) (CompositeNode text nodes))) =
  existsb (fun c => existsb (is_call (module_name k))
                      (lines_of (written_child (modules_of root) c))) nodes.
Proof.
  intros Hfree Hs. specialize (Hfree _ k Hs).
  rewrite written_composite, lines_of_composite.
  assert (E : existsb (is_call (module_name k))
                (concat (map (fun c => indent (lines_of c))
                   (map (written_child (modules_of root)) nodes))) =
              existsb (fun c => existsb (is_call (module_name k))
                        (lines_of (written_child (modules_of root) c))) nodes).
  { rewrite existsb_concat, map_map.
    induction nodes as [| c l IH]; [reflexivity|].
    cbn [map existsb]. rewrite existsb_indent. f_equal.
    clear -l. induction l as [| d l IH]; [reflexivity|].
    cbn [map existsb]. now rewrite existsb_indent, IH. }
  cbn [own_lines] in Hfree.
  destruct nodes as [| first [| second rest]].
  - cbn [map concat List.app existsb] in *. exact Hfree.
  - cbn [existsb] in Hfree. apply orb_false_iff in Hfree as [H1 _].
    rewrite <- E. cbn [map].
    set (body := concat _). cbn [existsb]. now rewrite H1.
  - cbn [existsb] in Hfree.
    apply orb_false_iff in Hfree as [H1 H2].
    apply orb_false_iff in H2 as [H2 _].
    rewrite <- E.
    set (body := concat _).
    cbn [map]. rewrite !existsb_app. cbn [existsb].
    rewrite H1, H2. cbn [orb]. now rewrite orb_false_r.
Qed.

Lemma call_in_written (root x : Node) (k : nat) :
  capture_free root ->
  subterm x root ->
  existsb (is_call (module_name k))
          (lines_of (written (modules_of root) x)) = true ->
  exists m, nth_error (modules_of root) k = Some m /\
            proper_subterm (_node m) x.
Proof.
  intros Hfree.
  induction x as [text | text nodes IH] using Node_induction; intros Hs Hcall.
  - specialize (Hfree _ k Hs). cbn [own_lines] in Hfree.
    cbn [written lines_of] in Hcall. congruence.
  - rewrite (own_lines_not_calls k Hfree Hs) in Hcall.
    apply existsb_exists in Hcall as (c & Hc & Hcall).
    assert (Hsc : subterm c root).
    { apply subterm_trans with (y := CompositeNode text nodes);
        [| assumption].
      exact (subterm_child text nodes Hc (subterm_refl c)). }
    destruct (replacement_cases Hsc)
      as [(_ & _ & E) | (m & Hm & Ec & _ & E)]; rewrite E in Hcall.
    + rewrite Forall_forall in IH.
      destruct (IH c Hc Hsc Hcall) as (m & Hm & Hp).
      exists m. split; [assumption|]. exists c. split; [assumption|].
      now apply proper_subterm_subterm.
    + rewrite reference_line in Hcall. cbn [existsb] in Hcall.
      rewrite orb_false_r in Hcall.
      destruct (In_nth_error _ _ Hm) as [j Hj].
      destruct (plan_spec root) as (_ & Hw & _). cbv zeta in Hw.
      rewrite (Hw j m Hj) in Hcall. apply is_call_module in Hcall.
      subst j. exists m. split; [assumption|].
      exists c. split; [assumption|]. rewrite Ec. constructor.
Qed.

Lemma call_in_declaration (root : Node) (j k : nat) (m : _Module) :
  capture_free root ->
  nth_error (modules_of root) j = Some m ->
  existsb (is_call (module_name k)) (declaration (modules_of root) m) = true ->
  (j < k)%nat /\
  exists mk, nth_error (modules_of root) k = Some mk /\
             proper_subterm (_node mk) (_node m).
Proof.
  intros Hfree Hj Hcall. unfold declaration in Hcall.
  cbn [existsb] in Hcall. rewrite existsb_indent in Hcall.
  change (is_call (module_name k) "") with false in Hcall.
  change (is_call (module_name k) (module_header (_name m))) with false
    in Hcall.
  cbn [orb] in Hcall.
  destruct (plan_module_nodes root m (nth_error_In _ _ Hj)) as [Hs _].
  destruct (call_in_written k Hfree Hs Hcall) as (mk & Hk & Hp).
  split; [| eauto].
  exact (module_order root j k Hj Hk Hp).
Qed.

Lemma declaration_place (modules : list _Module) (root : Node) (j : nat)
      (m : _Module) :
  well_named modules ->
  nth_error modules j = Some m ->
  exists before after,
    program_text modules root =
      before ++ declaration modules m ++ after /\
    forall k mk, (j < k)%nat -> nth_error modules k = Some mk ->
                 In (module_header (module_name k)) after.
Proof.
  intros Hw Hj. destruct (nth_error_split _ _ Hj) as (l1 & l2 & E & Hlen).
  exists (lines_of (written modules root) ++
          concat (map (declaration modules) l1)),
         (concat (map (declaration modules) l2)).
  split.
  - unfold program_text.
    set (f := declaration modules). set (w := written modules root).
    rewrite E, map_app, concat_app. cbn [map concat].
    now rewrite <- !app_assoc.
  - intros k mk Hlt Hk. rewrite <- (Hw k mk Hk).
    assert (Hin : In mk l2).
    { rewrite E in Hk. rewrite nth_error_app2 in Hk by lia.
      rewrite Hlen in Hk.
      destruct (k - j)%nat as [| d] eqn:Ed; [lia|].
      cbn [nth_error] in Hk. now apply nth_error_In in Hk. }
    apply in_concat. exists (declaration modules mk).
    split; [now apply in_map|]. right. left. reflexivity.
Qed.

(** ** The region of the compiled text *)

Lemma module_names_distinct (root : Node) (m m' : _Module) :
  In m (modules_of root) -> In m' (modules_of root) ->
  _name m = _name m' -> m = m'.
Proof.
  intros Hm Hm' E.
  destruct (In_nth_error _ _ Hm) as [j Hj].
  destruct (In_nth_error _ _ Hm') as [k Hk].
  destruct (plan_spec root) as (_ & Hw & _). cbv zeta in Hw.
  rewrite (Hw j m Hj), (Hw k m' Hk) in E. apply module_name_inj in E.
  subst k. unfold modules_of in *. congruence.
Qed.

Lemma str_call_inj (a b : string) : _str_call a [] = _str_call b [] -> a = b.
Proof. unfold _str_call. cbn [join]. apply append_cancel_r. Qed.

Lemma find_declaration (root : Node) (m : _Module) :
  In m (modules_of root) ->
  find (fun d => String.eqb (fst d) (_str_call (_name m) []))
       (declarations (modules_of root)) =
  Some (_str_call (_name m) [], written (modules_of root) (_node m)).
Proof.
  intros Hm.
  destruct (find _ (declarations (modules_of root))) as [d |] eqn:E.
  - apply find_some in E as [Hd E]. apply String.eqb_eq in E.
    unfold declarations in Hd. apply in_map_iff in Hd as (m' & <- & Hm').
    cbn [fst] in E. apply str_call_inj in E.
    now rewrite (@module_names_distinct root m' m Hm' Hm E).
  - pose proof (find_none _ _ E
      (_str_call (_name m) [], written (modules_of root) (_node m))) as H.
    cbn [fst] in H. rewrite String.eqb_refl in H.
    assert (false = true); [| discriminate]. symmetry. apply H.
    unfold declarations.
    exact (in_map (fun m0 => (_str_call (_name m0) [],
                              written (modules_of root) (_node m0))) _ _ Hm).
Qed.

Lemma find_no_declaration (root : Node) (text : string) :
  capture_free root ->
  subterm (PrimitiveNode text) root ->
  find (fun d => String.eqb (fst d) text) (declarations (modules_of root)) =
  None.
Proof.
  intros Hfree Hs.
  destruct (find _ (declarations (modules_of root))) as [d |] eqn:E;
    [| reflexivity].
  exfalso. apply find_some in E as [Hd E]. apply String.eqb_eq in E.
  unfold declarations in Hd. apply in_map_iff in Hd as (m & <- & Hm).
  cbn [fst] in E. destruct (In_nth_error _ _ Hm) as [j Hj].
  destruct (plan_spec root) as (_ & Hw & _). cbv zeta in Hw.
  rewrite (Hw j m Hj) in E.
  specialize (Hfree _ j Hs). cbn [own_lines existsb] in Hfree.
  rewrite orb_false_r in Hfree. rewrite <- E in Hfree.
  change (_str_call (module_name j) [])
    with (module_name j ++ "()")%string in Hfree.
  rewrite append_assoc in Hfree.
  change ("()" ++ ";")%string with "();" in Hfree.
  rewrite (proj2 (is_call_module j j) eq_refl) in Hfree. discriminate.
Qed.

Section ProgramFacts.
Variable Point : Type.
Variable primitive : string -> Point -> bool.
Variable operator : string -> list (Point -> bool) -> Point -> bool.

Lemma all_regions_map {A} (f : A -> option (Point -> bool))
      (g : A -> Point -> bool) (l : list A) :
  (forall a, In a l -> f a = Some (g a)) ->
  all_regions (map f l) = Some (map g l).
Proof.
  induction l as [| a l IH]; intros H; [reflexivity|].
  cbn [map all_regions]. rewrite (H a (or_introl eq_refl)).
  rewrite IH; [reflexivity|]. intros b Hb. apply H. now right.
Qed.

Lemma run_written (root x : Node) :
  capture_free root ->
  subterm x root ->
  forall fuel,
    (2 * height x < fuel)%nat ->
    run primitive operator fuel (declarations (modules_of root))
        (written (modules_of root) x) =
    Some (inside primitive operator x).
Proof.
  intros Hfree.
  induction x as [text | text nodes IH] using Node_induction;
    intros Hs fuel Hfuel.
  - destruct fuel as [| fuel]; [lia|]. cbn [written run].
    now rewrite (find_no_declaration Hfree Hs).
  - destruct fuel as [| fuel]; [lia|].
    rewrite written_composite. cbn [run]. rewrite map_map.
    rewrite (@all_regions_map _ _ (inside primitive operator)).
    + reflexivity.
    + intros c Hc.
      assert (Hsc : subterm c root).
      { apply subterm_trans with (y := CompositeNode text nodes);
          [| assumption].
        exact (subterm_child text nodes Hc (subterm_refl c)). }
      pose proof (height_child text nodes c Hc) as Hh.
      rewrite Forall_forall in IH.
      destruct (replacement_cases Hsc)
        as [(_ & _ & ->) | (m & Hm & E & _ & ->)].
      * apply (IH c Hc Hsc). lia.
      * destruct fuel as [| fuel]; [lia|].
        unfold _Module.reference, Node.create. cbn [run].
        rewrite (@find_declaration root m Hm). cbn [snd]. rewrite E.
        apply (IH c Hc Hsc). lia.
Qed.

Lemma compiled_region_inside (root : Node) (fuel : nat) :
  capture_free root ->
  (2 * height root < fuel)%nat ->
  compiled_region primitive operator fuel root =
  Some (inside primitive operator root).
Proof.
  intros Hfree Hfuel. unfold compiled_region.
  now apply run_written; [| constructor |].
Qed.

End ProgramFacts.

Lemma capture_free_self_union (n : Node) :
  capture_free n -> capture_free (CompositeNode "union()" [n; n]).
Proof.
  intros Hfree x k Hs. inversion Hs as [| text nodes c Hc Hx]; subst.
  - reflexivity.
  - destruct Hc as [<- | [<- | []]]; now apply Hfree.
Qed.

(** ** The union of an object with itself *)

Lemma captured_sum_has_no_region
      (Point : Type) (primitive : string -> Point -> bool)
      (operator : string -> list (Point -> bool) -> Point -> bool)
      (fuel : nat) :
  compiled_region primitive operator fuel
    (CompositeNode "union()" [captured_example; captured_example]) = None.
Proof.
  unfold compiled_region.
  set (body := CompositeNode "union()"
                 [PrimitiveNode "node_1()"; PrimitiveNode "node_2()";
                  PrimitiveNode "node_2()"]).
  assert (Ed : declarations (modules_of
                 (CompositeNode "union()"
                    [captured_example; captured_example])) =
               [("node_1()", body); ("node_2()", cube_node)])
    by (vm_compute; reflexivity).
  assert (Ew : written (modules_of
                 (CompositeNode "union()"
                    [captured_example; captured_example]))
                 (CompositeNode "union()"
                    [captured_example; captured_example]) =
               CompositeNode "union()"
                 [PrimitiveNode "node_1()"; PrimitiveNode "node_1()"])
    by (vm_compute; reflexivity).
  rewrite Ed, Ew. clear Ed Ew.
  set (declared := [("node_1()", body); ("node_2()", cube_node)]).
  assert (Hloop : forall f,
            run primitive operator f declared (PrimitiveNode "node_1()") =
              None /\
            run primitive operator f declared body = None).
  { induction f as [| f [IH1 IH2]]; [split; reflexivity|]. split.
    - cbn [run declared find fst snd String.eqb Ascii.eqb Bool.eqb].
      exact IH2.
    - unfold body at 1. cbn [run map]. rewrite IH1. reflexivity. }
  destruct fuel as [| f]; [reflexivity|].
  cbn [run map]. rewrite (proj1 (Hloop f)). reflexivity.
Qed.

(** C5 (as stated, refuted).  The selection of a union in which a
    primitive has the text [node_1()] is not void.  In the text compiled
    for its object, the statement [node_1();] is a call of the module of
    the cube, and the text has a region; in the text compiled for the sum
    of the object with itself, the union itself is the module [node_1],
    whose declaration calls [node_1]: the calls never end, and the text has
    no region. *)
Lemma self_union_captures_call :
  Selection.void (Selection.create captured_example) = false /\
  exists object,
    Object.__add__ (Object.create (Selection.create captured_example))
      (PyObject (Object.create (Selection.create captured_example))) =
      ret object /\
    compile_scad (Object.create (Selection.create captured_example)) =
      ret ["union() {"; indented 1 "node_1();"; indented 1 "node_1();";
           indented 1 "node_1();"; "}"; "";
           "module node_1()"; indented 1 "cube();"] /\
    compile_scad object =
      ret ["union() {"; indented 1 "node_1();"; indented 1 "node_1();";
           "}"; "";
           "module node_1()"; indented 1 "union() {";
           indented 2 "node_1();"; indented 2 "node_2();";
           indented 2 "node_2();"; indented 1 "}"; "";
           "module node_2()"; indented 1 "cube();"] /\
    compile_scad object =
      ret (program_text
             (modules_of (CompositeNode "union()"
                            [captured_example; captured_example]))
             (CompositeNode "union()"
                [captured_example; captured_example])) /\
    forall (Point : Type) (primitive : string -> Point -> bool)
           (operator : string -> list (Point -> bool) -> Point -> bool),
      (exists r, compiled_region primitive operator 3 captured_example =
                 Some r) /\
      (forall fuel,
          compiled_region primitive operator fuel
            (CompositeNode "union()" [captured_example; captured_example]) =
          None).
Proof.
  split; [reflexivity|]. eexists.
  split; [vm_compute; reflexivity|].
  split; [vm_compute; reflexivity|].
  split; [vm_compute; reflexivity|].
  split; [vm_compute; reflexivity|].
  intros Point primitive operator. split.
  - eexists. reflexivity.
  - intros fuel. apply captured_sum_has_no_region.
Qed.

(** C5 (amended).  For a non-void selection [A], [create A + create A] is
    an object.  If [A] is inverted, compiling it and compiling
    [create A] raise the same error.  If [A] is not inverted and has node
    [n], the root compiled for [create A] is [n] and the root compiled for
    the sum is [union() {n; n}]; when [n] is well formed, both texts are
    written, each the root with its repeated children replaced by calls,
    followed by the declarations of the modules.  When moreover no node of
    [n] writes a line that reads as the call of a module [node_k], then
    under every reading of the node texts in which [union()] joins the
    regions of its children, and with calls standing for the declared
    bodies, both texts have a region, the same one: the region of [n]. *)
Theorem self_union_idempotent (A : Selection) :
  Selection.void A = false ->
  exists object,
    Object.__add__ (Object.create A) (PyObject (Object.create A))
      = ret object /\
    ((Selection.inverted A = false /\
      exists n,
        Selection.node A = ret n /\
        Object.get_selection object true_selector =
          Selection.invert (Selection.invert
            (Selection.create (CompositeNode "union()" [n; n]))) /\
        compile_scad (Object.create A) = emit n /\
        compile_scad object = emit (CompositeNode "union()" [n; n]) /\
        (well_formed n = true ->
         compile_scad (Object.create A) =
           ret (program_text (modules_of n) n) /\
         compile_scad object =
           ret (program_text
                  (modules_of (CompositeNode "union()" [n; n]))
                  (CompositeNode "union()" [n; n]))) /\
        (capture_free n ->
         forall (Point : Type) (primitive : string -> Point -> bool)
                (operator : string -> list (Point -> bool) -> Point -> bool)
                (fuel : nat),
           union_joins operator ->
           (2 * height (CompositeNode "union()" [n; n]) < fuel)%nat ->
           exists r r',
             compiled_region primitive operator fuel n = Some r /\
             compiled_region primitive operator fuel
               (CompositeNode "union()" [n; n]) = Some r' /\
             forall p, r' p = r p /\ r p = inside primitive operator n p))
     \/
     (Selection.inverted A = true /\
      compile_scad (Object.create A) = raise inverted_root /\
      compile_scad object = raise inverted_root)).
Proof.
  intros Hv. destruct (node_of_non_void A Hv) as [n Hn].
  eexists. split; [apply add_create|].
  destruct (Selection.inverted A) eqn:Hi; [right | left];
    (split; [reflexivity|]).
  - split.
    + apply compile_scad_raise. rewrite create_two.
      now apply root_node_inverted.
    + apply compile_scad_raise. apply root_node_inverted;
        now rewrite (@add_self_true_inverted A n Hv Hi Hn).
  - exists n. split; [exact Hn|].
    assert (Hroot : root_node (Object.create A) = ret n).
    { rewrite create_two. now apply root_node_plain. }
    assert (Hroot' : root_node
              (mkObject
                 [(true_selector,
                   computed_selection (groups_add A A) true_selector);
                  (false_selector,
                   computed_selection (groups_add A A) false_selector)]) =
            ret (CompositeNode "union()" [n; n])).
    { apply root_node_plain;
        now rewrite (@add_self_true_plain A n Hv Hi Hn). }
    split.
    { unfold Object.get_selection. simpl.
      now rewrite (@add_self_true_plain A n Hv Hi Hn). }
    split; [exact (compile_scad_root _ Hroot)|].
    split; [exact (compile_scad_root _ Hroot')|].
    split.
    + intros Hwf.
      rewrite (compile_scad_root _ Hroot), (compile_scad_root _ Hroot').
      split; [now apply emit_text|]. apply emit_text.
      apply well_formed_composite. split; [discriminate|].
      repeat constructor; assumption.
    + intros Hfree Point primitive operator fuel Hu Hfuel.
      exists (inside primitive operator n),
             (inside primitive operator (CompositeNode "union()" [n; n])).
      split.
      { apply compiled_region_inside; [assumption|].
        pose proof (height_child "union()" [n; n] n (or_introl eq_refl)).
        lia. }
      split.
      { apply compiled_region_inside; [| assumption].
        now apply capture_free_self_union. }
      intros p. split; [| reflexivity].
      cbn [inside map]. rewrite Hu. cbn [existsb].
      now rewrite orb_false_r, orb_diag.
Qed.

Lemma cube_capture_free : capture_free cube_node.
Proof.
  intros x k Hs. inversion Hs; subst. reflexivity.
Qed.

Lemma self_union_idempotent_witness :
  exists object,
    Object.__add__ cube (PyObject cube) = ret object /\
    compile_scad object =
      ret ["union() {"; indented 1 "node_1();"; indented 1 "node_1();";
           "}"; ""; "module node_1()"; indented 1 "cube();"] /\
    exists r r',
      compiled_region below_three standard_operator 3 cube_node = Some r /\
      compiled_region below_three standard_operator 3
        (CompositeNode "union()" [cube_node; cube_node]) = Some r' /\
      forall p : nat, r' p = r p.
Proof.
  destruct (self_union_idempotent (cube_selection) eq_refl)
    as (object & Hadd & [(_ & n & Hn & _ & _ & _ & Hc & Hr) | (Hi & _)]).
  - exists object. split; [exact Hadd|].
    injection Hn as <-. split; [exact (proj2 (Hc eq_refl))|].
    destruct (Hr cube_capture_free nat below_three standard_operator 3)
      as (r & r' & E & E' & Hp).
    + exact (proj1 (standard_operator_boolean nat)).
    + simpl. lia.
    + exists r, r'. split; [exact E|]. split; [exact E'|].
      intros p. exact (proj1 (Hp p)).
  - discriminate Hi.
Defined.

(** ** Declarations and their calls in the text *)

Lemma compile_scad_text (root : Node) :
  well_formed root = true ->
  compile_scad (Object.create (Selection.create root)) =
  ret (program_text (modules_of root) root).
Proof.
  intros Hwf.
  rewrite (@compile_scad_root Selector _ _
             (Object.create (Selection.create root)) root).
  - now apply emit_text.
  - now apply root_node_plain.
Qed.

Lemma nested_example_capture_free : capture_free nested_example.
Proof.
  intros x k Hs. unfold nested_example, cube_node, Node.create in Hs.
  repeat match goal with
         | H : subterm _ (CompositeNode _ _) |- _ =>
             inversion H; subst; clear H
         | H : subterm _ (PrimitiveNode _) |- _ =>
             inversion H; subst; clear H
         | H : In _ (_ :: _) |- _ => destruct H as [<- | H]
         | H : In _ [] |- _ => destruct H
         end; reflexivity.
Qed.

(** C2 (as stated, refuted).  In the text compiled for the union of two
    equal intersections of a cube with itself, the declaration of
    [node_1] calls [node_2], whose declaration comes after it. *)
Lemma declaration_holds_forward_reference :
  exists out,
    compile_scad (Object.create (Selection.create nested_example)) = ret out /\
    out = ["union() {"; indented 1 "node_1();"; indented 1 "node_1();"; "}"; "";
           "module node_1()"; indented 1 "intersection() {";
           indented 2 "node_2();"; indented 2 "node_2();";
           indented 1 "}"; "";
           "module node_2()"; indented 1 "cube();"] /\
    forward_reference out.
Proof.
  eexists. split; [vm_compute; reflexivity|]. split; [reflexivity|].
  exists 0, 1.
  exists ["union() {"; indented 1 "node_1();"; indented 1 "node_1();"; "}"; ""].
  exists [indented 1 "intersection() {"; indented 2 "node_2();";
          indented 2 "node_2();"; indented 1 "}"].
  exists [""; "module node_2()"; indented 1 "cube();"].
  split; [reflexivity|]. split; [| split].
  - simpl. intros [H | [H | [H | [H | []]]]]; discriminate H.
  - reflexivity.
  - right. left. reflexivity.
Qed.

(** C2 (amended).  Modules are declared in the order in which
    [compile_scad] allocates them, parents first: if the node of one
    module occurs inside the node of another, the enclosing module has the
    smaller number.  The text of a well formed root is the root as it is
    written, followed by one declaration per module in the order of the
    numbers, so the declaration of a module with a larger number stands
    later in the text.  If no node of the root writes a line that reads as
    the call of a module [node_k], every call in the declaration of module
    [j] is the call of an allocated module [k] with [j < k], whose node
    occurs inside the node of module [j] and whose declaration stands later
    in the text, and every call in the lines of the root is the call of an
    allocated module. *)
Theorem modules_declared_top_down (root : Node) :
  let modules := snd (snd (plan root)) in
  (forall p q mp mq,
      nth_error modules p = Some mp ->
      nth_error modules q = Some mq ->
      proper_subterm (_node mq) (_node mp) ->
      p < q) /\
  (forall k m, nth_error modules k = Some m -> _name m = module_name k) /\
  (well_formed root = true ->
   emit root = ret (program_text modules root) /\
   compile_scad (Object.create (Selection.create root)) =
     ret (program_text modules root)) /\
  (forall j m,
      nth_error modules j = Some m ->
      exists before after,
        program_text modules root =
          before ++ declaration modules m ++ after /\
        (forall k mk, j < k -> nth_error modules k = Some mk ->
                      In (module_header (module_name k)) after) /\
        (capture_free root ->
         forall k,
           existsb (is_call (module_name k)) (declaration modules m) = true ->
           j < k /\
           In (module_header (module_name k)) after /\
           exists mk, nth_error modules k = Some mk /\
                      proper_subterm (_node mk) (_node m))) /\
  (capture_free root ->
   forall k,
     existsb (is_call (module_name k)) (lines_of (written modules root)) =
       true ->
     exists mk, nth_error modules k = Some mk /\
                proper_subterm (_node mk) root).
Proof.
  cbv zeta. fold (modules_of root).
  destruct (plan_spec root) as (_ & Hw & _). cbv zeta in Hw.
  fold (modules_of root) in Hw.
  split; [intros p q mp mq; apply module_order|].
  split; [exact Hw|].
  split; [intros Hwf; split;
          [now apply emit_text | now apply compile_scad_text]|].
  split.
  - intros j m Hj.
    destruct (@declaration_place (modules_of root) root j m Hw Hj)
      as (before & after & E & Hlater).
    exists before, after. split; [exact E|]. split; [exact Hlater|].
    intros Hfree k Hcall.
    destruct (@call_in_declaration root j k m Hfree Hj Hcall)
      as (Hlt & mk & Hk & Hp).
    split; [exact Hlt|]. split; [exact (Hlater k mk Hlt Hk)|]. eauto.
  - intros Hfree k Hcall.
    exact (@call_in_written root root k Hfree (subterm_refl root) Hcall).
Qed.

Lemma modules_declared_top_down_witness :
  0 < 1 /\
  emit nested_example =
    ret (program_text (snd (snd (plan nested_example))) nested_example) /\
  exists mk,
    nth_error (snd (snd (plan nested_example))) 1 = Some mk /\
    proper_subterm (_node mk)
      (CompositeNode "intersection()" [cube_node; cube_node]).
Proof.
  destruct (modules_declared_top_down nested_example)
    as (Horder & _ & Htext & Hplace & _).
  split; [| split].
  - apply (Horder 0 1
             (mk_Module "node_1"
                (CompositeNode "intersection()" [cube_node; cube_node]))
             (mk_Module "node_2" cube_node));
      [reflexivity | reflexivity |].
    exists cube_node. split; [simpl; auto | constructor].
  - exact (proj1 (Htext eq_refl)).
  - destruct (Hplace 0 (mk_Module "node_1"
                (CompositeNode "intersection()" [cube_node; cube_node]))
                eq_refl) as (before & after & _ & _ & Hcalls).
    destruct (Hcalls nested_example_capture_free 1 eq_refl)
      as (_ & _ & Hmk).
    exact Hmk.
Defined.

(** ** Deduplication in the text *)

Lemma one_module (root x : Node) :
  In x (map _node (modules_of root)) ->
  List.length (filter (fun m => Node.__eq__ (_node m) x) (modules_of root)) =
  1.
Proof.
  pose proof (plan_modules_NoDup root) as Hnd. fold (modules_of root) in Hnd.
  induction (modules_of root) as [| m l IH]; intros Hx; [destruct Hx|].
  cbn [map] in Hnd. inversion Hnd as [| ? ? Hm Hl]; subst.
  cbn [filter]. destruct (Node.__eq__ (_node m) x) eqn:E.
  - apply Node_eq_true in E. subst x. cbn [List.length]. f_equal.
    assert (Hnone : forall l', ~ In (_node m) (map _node l') ->
              filter (fun m' => Node.__eq__ (_node m') (_node m)) l' = []).
    { induction l' as [| a l' IH']; intros Hn; [reflexivity|].
      cbn [filter]. destruct (Node.__eq__ (_node a) (_node m)) eqn:Ea.
      - apply Node_eq_true in Ea. exfalso. apply Hn. left. assumption.
      - apply IH'. intros H. apply Hn. now right. }
    now rewrite (Hnone l Hm).
  - apply IH; [assumption|]. destruct Hx as [Hx | Hx]; [| assumption].
    cbn in Hx. subst x. now rewrite Node_eq_refl in E.
Qed.

(** C6 (as stated, refuted).  The cube stands at two positions of the
    union of a moved cube with a scaled copy of the moved cube, but the
    only module of the compiled text is the moved cube; the cube is written
    in its declaration. *)
Lemma repeated_structure_without_module :
  occurrences cube_node shared_example = 2 /\
  map _node (snd (snd (plan shared_example))) = [moved_cube] /\
  compile_scad (Object.create (Selection.create shared_example)) =
    ret ["union() {"; indented 1 "node_1();"; indented 1 "scale([2, 2, 2])";
         indented 2 "node_1();"; "}"; "";
         "module node_1()"; indented 1 "translate([1, 0, 0])";
         indented 2 "cube();"].
Proof.
  repeat split.
Qed.

(** C6 (amended).  [Node.__eq__] holds exactly between equal structures,
    and equal structures have equal hashes, whatever the hashes of strings
    and tuples are.  The traversal lists every structure that occurs in the
    root once; a structure gets a module exactly if [walk_nodes] is called
    on it at least twice, once for the root and once for every child
    reference held by a listed structure.  Such a structure has exactly one
    module, with a name of its own; its replacement is the reference to
    that module, which renders as the call of the module, and wherever it
    is written as a child, the call is written.  Every other structure of
    the root is its own replacement and is written in place.  The text
    compiled for a well formed root is the root as it is written, followed
    by one declaration for each module: a blank line, the header and the
    indented node of the module as it is written. *)
Theorem deduplication (root : Node) :
  (forall a b, Node.__eq__ a b = true <-> a = b) /\
  (forall hash_str hash_tuple a b,
      Node.__eq__ a b = true ->
      Node.__hash__ hash_str hash_tuple a =
      Node.__hash__ hash_str hash_tuple b) /\
  let st := fst (plan root) in
  let node_replacements := fst (snd (plan root)) in
  let modules := snd (snd (plan root)) in
  NoDup (nodes_list st) /\
  (forall x, In x (nodes_list st) <-> subterm x root) /\
  NoDup (map _node modules) /\
  (forall x, In x (map _node modules) <->
             2 <= calls x [root] (nodes_list st)) /\
  (forall x, In x (map _node modules) ->
             List.length
               (filter (fun m => Node.__eq__ (_node m) x) modules) = 1) /\
  (forall j k mj mk,
      nth_error modules j = Some mj -> nth_error modules k = Some mk ->
      _name mj = _name mk -> j = k) /\
  (forall m,
      In m modules ->
      Dict.get (_node m) node_replacements = Some (_Module.reference m) /\
      written_child modules (_node m) = _Module.reference m /\
      lines_of (_Module.reference m) = [(_name m ++ "();")%string] /\
      forall fuel,
        iter_lines (S fuel) node_replacements (_Module.reference m) =
        ret [(_str_call (_name m) [] ++ ";")%string]) /\
  (forall x, subterm x root -> ~ In x (map _node modules) ->
             Dict.get x node_replacements = Some x /\
             written_child modules x = written modules x) /\
  (well_formed root = true ->
   emit root = ret (program_text modules root) /\
   compile_scad (Object.create (Selection.create root)) =
     ret (program_text modules root)).
Proof.
  split; [exact key_eqb_eq|].
  split; [intros hash_str hash_tuple a b E;
          apply Node_eq_true in E; now subst|].
  simpl.
  destruct (plan_spec root) as (Est & Hw & Hnodes & Hkeep & Hmod).
  destruct (walk_result root) as (Hnd & Ho & Hsub & Hre).
  rewrite <- Est in Hnd, Ho, Hsub, Hre.
  pose proof (plan_modules_NoDup root) as HndM.
  assert (Hin : forall x, In x (map _node (snd (snd (plan root)))) <->
                          In x (reused_nodes (fst (plan root)))).
  { intros x. rewrite Hnodes, filter_In, <- in_rev, set_mem_In. split.
    - tauto.
    - intros Hx. split; [| assumption]. rewrite Est in *.
      now apply walk_reused_visited. }
  split; [assumption|]. split; [assumption|]. split; [assumption|].
  split; [intros x; now rewrite Hin, Hre|].
  split; [exact (@one_module root)|].
  split; [| split; [| split]].
  - intros j k mj mk Hj Hk E.
    rewrite (Hw j mj Hj), (Hw k mk Hk) in E. now apply module_name_inj.
  - intros m Hm.
    destruct (plan_module_nodes root m Hm) as [Hs Hr].
    destruct (replacement_cases Hs)
      as [(_ & Hn & _) | (m' & Hm' & E & Hg & Hwr)].
    + exfalso. apply Hn. now apply in_map.
    + assert (Em : m' = m)
        by exact (NoDup_map_eq _node _ m' m HndM Hm' Hm E).
      subst m'. split; [exact Hg|]. split; [exact Hwr|].
      split; [apply reference_line|]. intros fuel. reflexivity.
  - intros x Hs Hx.
    destruct (replacement_cases Hs)
      as [(Hg & _ & Hwr) | (m' & Hm' & E & _)].
    + split; assumption.
    + exfalso. apply Hx. rewrite <- E. now apply in_map.
  - intros Hwf. split; [now apply emit_text | now apply compile_scad_text].
Qed.

Lemma deduplication_witness :
  Dict.get moved_cube (fst (snd (plan shared_example))) =
    Some (PrimitiveNode "node_1()") /\
  Dict.get cube_node (fst (snd (plan shared_example))) = Some cube_node /\
  emit shared_example =
    ret (program_text [mk_Module "node_1" moved_cube] shared_example).
Proof.
  destruct (deduplication shared_example)
    as (_ & _ & _ & _ & _ & _ & _ & _ & Hmod & Hkeep & Htext).
  split; [| split].
  - apply (Hmod (mk_Module "node_1" moved_cube)). left. reflexivity.
  - apply Hkeep.
    + apply subterm_child with (c := moved_cube); [simpl; auto|].
      apply subterm_child with (c := cube_node); [simpl; auto | constructor].
    + simpl. intros [H | []]. discriminate H.
  - exact (proj1 (Htext eq_refl)).
Defined.
